(** * CauseConnect web scraper: a shallow embedding of [Webscraper.py]

    The development follows the Python module function by function.
    Python [str] values are modelled as [string] (ASCII text: [lower],
    [strip] and the regular-expression classes are the ASCII fragments of
    their Python counterparts), Python [int] as [Z], the [set] objects as
    [gset string], the [Counter] as an insertion-ordered association list,
    and the shared mutable objects of a crawl as one explicit state record
    threaded through the calls.  The network, the HTML parser, the order in
    which a set is iterated and the file system are a parameter of the
    crawl.  The jobs handed to the thread pool are machines that take one
    step for each operation on a shared object; a schedule says which job
    takes the next step, and the properties of a crawl are proved for every
    schedule. *)

From Stdlib Require Import ZArith Ascii String List Bool Lia Permutation Sorted.
From stdpp Require Import base gmap sets list strings.

Local Open Scope string_scope.
Local Open Scope list_scope.
Local Open Scope nat_scope.

(** ** Python string primitives *)

Module PyStr.

Definition in_range (lo hi : N) (c : ascii) : bool :=
  ((lo <=? N_of_ascii c) && (N_of_ascii c <=? hi))%N.

Definition is_upper (c : ascii) : bool := in_range 65 90 c.
Definition is_lower (c : ascii) : bool := in_range 97 122 c.
Definition is_digit (c : ascii) : bool := in_range 48 57 c.

(** [str.isspace] on ASCII: TAB, LF, VT, FF, CR, FS, GS, RS, US, SPACE. *)
Definition is_space (c : ascii) : bool := in_range 9 13 c || in_range 28 32 c.

Definition lower_char (c : ascii) : ascii :=
  if is_upper c then ascii_of_N (N_of_ascii c + 32) else c.

(** [s.lower()] *)
Fixpoint lower (s : string) : string :=
  match s with
  | EmptyString => EmptyString
  | String c s' => String (lower_char c) (lower s')
  end.

Fixpoint lstrip (s : string) : string :=
  match s with
  | String c s' => if is_space c then lstrip s' else s
  | EmptyString => EmptyString
  end.

Fixpoint rstrip (s : string) : string :=
  match s with
  | EmptyString => EmptyString
  | String c s' =>
      match rstrip s' with
      | EmptyString => if is_space c then EmptyString else String c EmptyString
      | r => String c r
      end
  end.

(** [s.strip()] *)
Definition strip (s : string) : string := rstrip (lstrip s).

(** [s.startswith(p)] *)
Fixpoint startswith (p s : string) : bool :=
  match p, s with
  | EmptyString, _ => true
  | String a p', String b s' => Ascii.eqb a b && startswith p' s'
  | String _ _, EmptyString => false
  end.

(** [p in s] *)
Fixpoint str_in (p s : string) : bool :=
  startswith p s ||
  match s with
  | EmptyString => false
  | String _ s' => str_in p s'
  end.

(** [s.replace(c, "")] for a one-character [c] *)
Fixpoint remove_char (c : ascii) (s : string) : string :=
  match s with
  | EmptyString => EmptyString
  | String a s' => if Ascii.eqb a c then remove_char c s' else String a (remove_char c s')
  end.

(** [c in s] for a character [c] *)
Fixpoint has_char (c : ascii) (s : string) : bool :=
  match s with
  | EmptyString => false
  | String a s' => Ascii.eqb a c || has_char c s'
  end.

(** [s.split(c)]: the pieces between the occurrences of [c]; never empty. *)
Fixpoint split_on (c : ascii) (s : string) : list string :=
  match s with
  | EmptyString => [EmptyString]
  | String a s' =>
      if Ascii.eqb a c then EmptyString :: split_on c s'
      else match split_on c s' with
           | [] => [String a EmptyString]
           | piece :: rest => String a piece :: rest
           end
  end.

(** the first [n] characters: [s[:n]] *)
Fixpoint take_str (n : nat) (s : string) : string :=
  match n, s with
  | S n', String c s' => String c (take_str n' s')
  | _, _ => EmptyString
  end.

(** [sorted] is a stable sort: it is modelled by insertion from the right,
    where an element goes in front of the first one it may precede. *)
Fixpoint insert_sorted {A : Type} (le : A -> A -> bool) (x : A) (l : list A) : list A :=
  match l with
  | [] => [x]
  | y :: l' => if le x y then x :: y :: l' else y :: insert_sorted le x l'
  end.

Definition stable_sort {A : Type} (le : A -> A -> bool) (l : list A) : list A :=
  foldr (insert_sorted le) [] l.

(** [sorted(l, key=len)] *)
Definition sorted_by_len (l : list string) : list string :=
  stable_sort (fun x y => (String.length x <=? String.length y)%nat) l.

End PyStr.

Import PyStr.

(** ** [filter_valid_sentence] *)

Definition common_invalid_phrases : list string :=
  [ "learn more"; "read more"; "current coalitions"; "details"; "overview";
    "404"; "page not found"; "error"; "not available" ].

(** The defaults of the keyword arguments [min_length] and [max_length]. *)
Definition default_min_length : nat := 10.
Definition default_max_length : nat := 200.

Definition filter_valid_sentence (sentence : string) (min_length max_length : nat) : bool :=
  if (String.length (strip sentence) <? min_length)%nat
     || (max_length <? String.length (strip sentence))%nat
  then false
  else if existsb (fun phrase => str_in phrase (lower sentence)) common_invalid_phrases
  then false
  else true.

(** ** The [Counter] *)

(** A [collections.Counter] is a [dict]: keys are unique and keep the order of
    their first insertion. *)
Definition Counter : Type := list (string * Z).

(** [counter[key]]: a missing key reads as 0 (and is not inserted). *)
Fixpoint counter_get (c : Counter) (key : string) : Z :=
  match c with
  | [] => 0%Z
  | (k, v) :: c' => if String.eqb k key then v else counter_get c' key
  end.

(** [counter[key] = v]: an existing key keeps its place, a new one goes last. *)
Fixpoint counter_set (c : Counter) (key : string) (v : Z) : Counter :=
  match c with
  | [] => [(key, v)]
  | (k, v0) :: c' =>
      if String.eqb k key then (k, v) :: c' else (k, v0) :: counter_set c' key v
  end.

(** [counter[key] += 1] *)
Definition counter_incr (c : Counter) (key : string) : Counter :=
  counter_set c key (counter_get c key + 1)%Z.

Definition counter_keys (c : Counter) : list string := map fst c.

(** [counter.most_common()] is
    [sorted(counter.items(), key=itemgetter(1), reverse=True)]: a stable sort,
    so entries of equal count keep their order in the dictionary. *)
Definition most_common (c : Counter) : list (string * Z) :=
  stable_sort (fun x y => (snd y <=? snd x)%Z) c.

(** ** [classify_cause_and_count] *)

Definition categories : list (string * list string) :=
  [ ("environment", ["environment"; "climate"; "nature"; "sustainability"; "conservation"; "green"]);
    ("animal", ["animal"; "wildlife"; "pet"; "species"; "habitat"]);
    ("education", ["education"; "learning"; "teaching"; "school"; "students"; "literacy"]);
    ("healthcare", ["health"; "medicine"; "care"; "hospital"; "disease"; "mental health"]);
    ("poverty", ["poverty"; "hunger"; "homeless"; "basic needs"; "food security"; "inequality"]);
    ("human_rights", ["human rights"; "justice"; "freedom"; "equality"; "civil rights"]);
    ("children", ["children"; "kids"; "youth"; "adolescents"; "future generation"]) ].

Definition category_names : list string := map fst categories.

(** The inner loop: [for keyword in keywords: if keyword in sentence.lower(): ...] *)
Definition count_keywords (sentence category : string) (keywords : list string)
    (keyword_counter : Counter) : Counter :=
  foldl (fun kc keyword =>
           if str_in keyword (lower sentence) then counter_incr kc category else kc)
        keyword_counter keywords.

(** The outer loop over [categories.items()], in declaration order. *)
Definition classify_over (cats : list (string * list string)) (sentence : string)
    (keyword_counter : Counter) : Counter :=
  foldl (fun kc '(category, keywords) => count_keywords sentence category keywords kc)
        keyword_counter cats.

Definition classify_cause_and_count (sentence : string) (keyword_counter : Counter) : Counter :=
  classify_over categories sentence keyword_counter.

(** ** [get_main_and_secondary_causes] *)

Definition get_main_and_secondary_causes (keyword_counter : Counter) : string * string :=
  let sorted_causes := most_common keyword_counter in
  let main_cause :=
    match sorted_causes with
    | (k, _) :: _ => k
    | [] => "None"
    end in
  let secondary_cause :=
    match sorted_causes with
    | _ :: (k, _) :: _ => k
    | _ => "None"
    end in
  (main_cause, secondary_cause).

(** ** The regular expressions of [extract_information]

    A backtracking matcher in the style of Python's [re]: alternatives are
    tried in priority order (greedy repetition first) and the first way to
    complete the whole match wins. *)

Module Regex.

Inductive re : Type :=
| Eps : re
| Chr : (ascii -> bool) -> re      (* one character of a class *)
| WordB : re                       (* \b *)
| Seq : re -> re -> re
| Opt : re -> re                   (* r?  greedy *)
| Star : re -> re.                 (* r*  greedy *)

(** [\w] *)
Definition is_word (c : ascii) : bool :=
  is_upper c || is_lower c || is_digit c || Ascii.eqb c "_".

Definition is_word_opt (c : option ascii) : bool :=
  match c with Some a => is_word a | None => false end.

Definition head_char (s : string) : option ascii :=
  match s with String c _ => Some c | EmptyString => None end.

(** [rmatch r prev s k]: match [r] at the front of [s], where [prev] is the
    character before [s] in the subject, then continue with [k]. *)
Fixpoint rmatch {R : Type} (r : re) (prev : option ascii) (s : string)
    (k : option ascii -> string -> option R) {struct r} : option R :=
  match r with
  | Eps => k prev s
  | Chr p =>
      match s with
      | String c s' => if p c then k (Some c) s' else None
      | EmptyString => None
      end
  | WordB =>
      if xorb (is_word_opt prev) (is_word_opt (head_char s)) then k prev s else None
  | Seq r1 r2 => rmatch r1 prev s (fun prev' s' => rmatch r2 prev' s' k)
  | Opt r1 =>
      match rmatch r1 prev s k with
      | Some x => Some x
      | None => k prev s
      end
  | Star r1 =>
      (fix loop (n : nat) (prev : option ascii) (s : string) {struct n} : option R :=
         match n with
         | O => k prev s
         | S n' =>
             match rmatch r1 prev s
                     (fun prev' s' =>
                        if (String.length s' <? String.length s)%nat
                        then loop n' prev' s' else None) with
             | Some x => Some x
             | None => k prev s
             end
         end) (String.length s) prev s
  end.

(** r+ *)
Definition Plus (r : re) : re := Seq r (Star r).

(** r{lo,lo+extra} *)
Fixpoint UpTo (extra : nat) (r : re) : re :=
  match extra with
  | O => Eps
  | S n => Opt (Seq r (UpTo n r))
  end.

Fixpoint Exactly (n : nat) (r : re) : re :=
  match n with
  | O => Eps
  | S n' => Seq r (Exactly n' r)
  end.

Definition Rep (lo hi : nat) (r : re) : re := Seq (Exactly lo r) (UpTo (hi - lo) r).

(** r{lo,} *)
Definition AtLeast (lo : nat) (r : re) : re := Seq (Exactly lo r) (Star r).

Fixpoint seqs (rs : list re) : re :=
  match rs with
  | [] => Eps
  | [r] => r
  | r :: rs' => Seq r (seqs rs')
  end.

(** a literal, under [re.I] *)
Fixpoint LitI (s : string) : re :=
  match s with
  | EmptyString => Eps
  | String c s' => Seq (Chr (fun a => Ascii.eqb (lower_char a) (lower_char c))) (LitI s')
  end.

Definition one_of (cs : string) : ascii -> bool := fun a => has_char a cs.

(** [re.match(r, s)] as a truth value *)
Definition re_match (r : re) (s : string) : bool :=
  match rmatch r None s (fun _ _ => Some tt) with
  | Some _ => true
  | None => false
  end.

Fixpoint last_char (prev : option ascii) (s : string) : option ascii :=
  match s with
  | EmptyString => prev
  | String c s' => last_char (Some c) s'
  end.

(** [re.findall(r, s)] for a pattern without capturing groups: the
    non-overlapping matches, scanning from the left. *)
Fixpoint findall_from (fuel : nat) (r : re) (prev : option ascii) (s : string)
    : list string :=
  match fuel with
  | O => []
  | S fuel' =>
      match rmatch r prev s (fun _ rest => Some rest) with
      | Some rest =>
          let m := take_str (String.length s - String.length rest) s in
          match m, s with
          | EmptyString, EmptyString => [m]
          | EmptyString, String c s' => m :: findall_from fuel' r (Some c) s'
          | _, _ => m :: findall_from fuel' r (last_char prev m) rest
          end
      | None =>
          match s with
          | EmptyString => []
          | String c s' => findall_from fuel' r (Some c) s'
          end
      end
  end.

Definition findall (r : re) (s : string) : list string :=
  findall_from (S (String.length s)) r None s.

End Regex.

Import Regex.

Definition is_alnum (c : ascii) : bool := is_upper c || is_lower c || is_digit c.

(** [\b[A-Za-z0-9._%+-]+@[A-Za-z0-9.-]+\.[A-Za-z]{2,}\b] *)
Definition email_pattern : re :=
  seqs [ WordB;
         Plus (Chr (fun c => is_alnum c || one_of "._%+-" c));
         Chr (Ascii.eqb "@");
         Plus (Chr (fun c => is_alnum c || one_of ".-" c));
         Chr (Ascii.eqb ".");
         AtLeast 2 (Chr (fun c => is_upper c || is_lower c));
         WordB ].

(** [[-.\s]] *)
Definition phone_sep (c : ascii) : bool := one_of "-." c || is_space c.

(** [\b(?:\+?\d{1,3})?[-.\s]?(?:\(?\d{1,4}\)?[-.\s]?)?\d{1,4}[-.\s]?\d{1,4}[-.\s]?\d{1,9}\b] *)
Definition phone_pattern : re :=
  seqs [ WordB;
         Opt (Seq (Opt (Chr (Ascii.eqb "+"))) (Rep 1 3 (Chr is_digit)));
         Opt (Chr phone_sep);
         Opt (seqs [ Opt (Chr (Ascii.eqb "(")); Rep 1 4 (Chr is_digit);
                     Opt (Chr (Ascii.eqb ")")); Opt (Chr phone_sep) ]);
         Rep 1 4 (Chr is_digit);
         Opt (Chr phone_sep);
         Rep 1 4 (Chr is_digit);
         Opt (Chr phone_sep);
         Rep 1 9 (Chr is_digit);
         WordB ].

(** [[^.!?]] and [[.!?]] *)
Definition is_terminal (c : ascii) : bool := one_of ".!?" c.

(** [[^.!?]*\bmission\b[^.!?]*[.!?]], compiled with [re.I] *)
Definition mission_pattern : re :=
  seqs [ Star (Chr (fun c => negb (is_terminal c)));
         WordB; LitI "mission"; WordB;
         Star (Chr (fun c => negb (is_terminal c)));
         Chr is_terminal ].

(** [\d] *)
Definition digit_pattern : re := Chr is_digit.

(** ** The shared state of a crawl

    [visited], [contacts], [mission_sentences] and [keyword_counter] are the
    objects that [scrape_website] creates and hands to every call.  The last
    three fields record what happens outside them: the URLs requested from
    the network, the jobs handed to the executor, and the lines printed. *)

Inductive message : Type :=
| HttpRequestError (url : string)     (* printed by [fetch_page_content] *)
| CannotLoadMainPage                  (* printed by [scrape_website] before it returns *)
| SavedTo (output_csv : string).      (* printed after the CSV file is written *)

Record state : Type := mkState {
  visited : gset string;
  emails : gset string;                (* contacts["emails"] *)
  phones : gset string;                (* contacts["phones"] *)
  mission_sentences : list string;
  keyword_counter : Counter;
  requested : list string;             (* calls of [requests.get], oldest first *)
  submitted : list string;             (* calls of [executor.submit], oldest first *)
  printed : list message               (* oldest first *)
}.

Definition set_visited (f : gset string -> gset string) (st : state) : state :=
  mkState (f (visited st)) (emails st) (phones st) (mission_sentences st)
          (keyword_counter st) (requested st) (submitted st) (printed st).
Definition set_emails (f : gset string -> gset string) (st : state) : state :=
  mkState (visited st) (f (emails st)) (phones st) (mission_sentences st)
          (keyword_counter st) (requested st) (submitted st) (printed st).
Definition set_phones (f : gset string -> gset string) (st : state) : state :=
  mkState (visited st) (emails st) (f (phones st)) (mission_sentences st)
          (keyword_counter st) (requested st) (submitted st) (printed st).
Definition set_mission_sentences (f : list string -> list string) (st : state) : state :=
  mkState (visited st) (emails st) (phones st) (f (mission_sentences st))
          (keyword_counter st) (requested st) (submitted st) (printed st).
Definition set_keyword_counter (f : Counter -> Counter) (st : state) : state :=
  mkState (visited st) (emails st) (phones st) (mission_sentences st)
          (f (keyword_counter st)) (requested st) (submitted st) (printed st).
Definition set_requested (f : list string -> list string) (st : state) : state :=
  mkState (visited st) (emails st) (phones st) (mission_sentences st)
          (keyword_counter st) (f (requested st)) (submitted st) (printed st).
Definition set_submitted (f : list string -> list string) (st : state) : state :=
  mkState (visited st) (emails st) (phones st) (mission_sentences st)
          (keyword_counter st) (requested st) (f (submitted st)) (printed st).
Definition set_printed (f : list message -> list message) (st : state) : state :=
  mkState (visited st) (emails st) (phones st) (mission_sentences st)
          (keyword_counter st) (requested st) (submitted st) (f (printed st)).

(** The objects as [scrape_website] creates them. *)
Definition initial_state : state := mkState ∅ ∅ ∅ [] [] [] [] [].

(** ** The collaborators: network, HTML parser, interpreter, file system

    [requests.get], [BeautifulSoup] and [urljoin] are libraries, the order in
    which a [set] is iterated is the interpreter's, and whether the output
    file can be opened is the file system's; a crawl is run against a
    description of what they answer. *)

Record world : Type := mkWorld {
  (** [requests.get(url, ...)] followed by [raise_for_status()]: the body, or
      [None] when a [RequestException] is raised *)
  http_get : string -> option string;
  (** [BeautifulSoup(html).get_text(separator=' ')] *)
  get_text : string -> string;
  (** the [href] of every [a] element that has one, in document order *)
  hrefs : string -> list string;
  (** [requests.compat.urljoin(base_url, link)], or [None] when it raises
      [ValueError] *)
  urljoin : string -> string -> option string;
  (** the rank of a string in the order in which this run iterates a set *)
  set_rank : string -> nat;
  (** [open(path, mode='w', ...)] returns a file *)
  can_open : string -> bool
}.

(** [for x in s] for a set [s]: its elements, each once, in the order of
    their ranks. *)
Definition iterate (w : world) (s : gset string) : list string :=
  stable_sort (fun x y => (set_rank w x <=? set_rank w y)%nat) (elements s).

(** Python truthiness of what [fetch_page_content] returns: [None] and the
    empty string are false. *)
Definition truthy (content : option string) : bool :=
  match content with
  | Some (String _ _) => true
  | _ => false
  end.

(** ** [fetch_page_content] *)

Definition fetch_page_content (w : world) (url : string) (st : state) : option string * state :=
  let st := set_requested (fun l => l ++ [url]) st in
  match http_get w url with
  | Some text => (Some text, st)
  | None => (None, set_printed (fun l => l ++ [HttpRequestError url]) st)
  end.

(** ** [find_links] *)

(** The result is [None] when the second set comprehension raises: [urljoin]
    is called on every link that does not start with "#", nothing catches
    what it raises. *)
Definition find_links (w : world) (html base_url : string) : option (gset string) :=
  let links : gset string := list_to_set (hrefs w html) in
  match mapM (urljoin w base_url)
             (List.filter (fun link => negb (startswith "#" link)) (iterate w links)) with
  | Some full_links => Some (list_to_set full_links)
  | None => None
  end.

(** ** [extract_information] *)

Definition email_noise : list ascii := ["?"; "0"; "_"]%char.

(** [not any(char in email for char in ['?', '0', '_'])] *)
Definition valid_email (email : string) : bool :=
  negb (existsb (fun char => has_char char email) email_noise).

(** [re.match(r'\d', phone) and len(phone.replace("-", "").replace(" ", "")) >= 7] *)
Definition valid_phone (phone : string) : bool :=
  re_match digit_pattern phone
  && (7 <=? String.length (remove_char " " (remove_char "-" phone)))%nat.

(** The loop that fills [mission_sentences], with its [break]. *)
Fixpoint append_capped (sentences : list string) (mission_sentences : list string)
    : list string :=
  match sentences with
  | [] => mission_sentences
  | sentence :: rest =>
      if (length mission_sentences <? 3)%nat
      then append_capped rest (mission_sentences ++ [strip sentence])
      else mission_sentences
  end.

(** The candidates of one page text, as the two comprehensions build them. *)
Definition valid_emails_of (text : string) : list string :=
  List.filter valid_email (findall email_pattern text).

Definition valid_phones_of (text : string) : list string :=
  List.filter valid_phone (findall phone_pattern text).

Definition valid_mission_sentences_of (text : string) : list string :=
  map strip
      (List.filter
         (fun sentence => filter_valid_sentence sentence default_min_length default_max_length)
         (findall mission_pattern text)).

(** The last loop: every piece of [text.split('.')] that passes the filter is
    classified. *)
Definition count_text (text : string) (keyword_counter : Counter) : Counter :=
  foldl (fun kc sentence =>
           if filter_valid_sentence sentence default_min_length default_max_length
           then classify_cause_and_count sentence kc else kc)
        keyword_counter (split_on "." text).

Definition extract_information (w : world) (html_content : string) (st : state) : state :=
  let text := get_text w html_content in
  let st := set_emails (fun s => s ∪ list_to_set (valid_emails_of text)) st in
  let st := set_phones (fun s => s ∪ list_to_set (valid_phones_of text)) st in
  let st := set_mission_sentences
              (append_capped (sorted_by_len (valid_mission_sentences_of text))) st in
  set_keyword_counter (count_text text) st.

(** ** [scrape_single_page] *)

(** The test [link not in visited and base_url in link]. *)
Definition link_is_taken (link base_url : string) (st : state) : bool :=
  negb (bool_decide (link ∈ visited st)) && str_in base_url link.

Definition scrape_single_page (w : world) (link base_url : string) (st : state) : state :=
  if link_is_taken link base_url st then
    let st := set_visited (fun s => s ∪ {[link]}) st in
    let '(page_content, st) := fetch_page_content w link st in
    if truthy page_content
    then extract_information w (default "" page_content) st
    else st
  else st.

(** ** The thread pool

    [executor.submit] hands [scrape_single_page] with one link to a pool of
    [max_workers] threads, which run on the shared objects without any
    lock.  A thread can be interrupted between any two operations on a
    shared object, so a job is cut into steps with one such operation each:
    a call of [set.add], [set.update], [list.append], [len] or [print] is
    one operation, and [keyword_counter[category] += 1] is two, the read of
    the count and the store of the sum.  [job] says where a job stands;
    what a job does when nothing interrupts it is [scrape_single_page]
    above. *)

Inductive job : Type :=
| JQueued                           (* submitted, no worker has taken it yet *)
| JTest                             (* line 103: [link not in visited and base_url in link] *)
| JMark                             (* line 104: [visited.add(link)] *)
| JFetch                            (* line 105, line 12: [requests.get] *)
| JPrintError                       (* line 16: [print], after which [None] is returned *)
| JEmails (text : string)           (* line 67: [contacts["emails"].update] *)
| JPhones (text : string)           (* line 73: [contacts["phones"].update] *)
| JMissionTest (sentence : string) (rest : list string) (text : string)
                                    (* line 84: [len(mission_sentences) < 3] *)
| JMissionAppend (sentence : string) (rest : list string) (text : string)
                                    (* line 85: [mission_sentences.append] *)
| JCountRead (category : string) (rest : list string)
                                    (* line 56: the read of [keyword_counter[category]] *)
| JCountStore (category : string) (v : Z) (rest : list string)
                                    (* line 56: the store of the value read, plus one *)
| JDone.

(** The categories that [classify_cause_and_count] increments for one
    sentence, one entry for each execution of line 56, and those of a whole
    text (lines 90-92). *)
Definition sentence_increments (sentence : string) : list string :=
  flat_map (fun '(category, keywords) =>
              map (fun _ => category)
                  (List.filter (fun keyword => str_in keyword (lower sentence)) keywords))
           categories.

Definition text_increments (text : string) : list string :=
  flat_map (fun sentence =>
              if filter_valid_sentence sentence default_min_length default_max_length
              then sentence_increments sentence else [])
           (split_on "." text).

(** Where a job stands with these increments left, and with these mission
    sentences left to offer to the list. *)
Definition count_next (increments : list string) : job :=
  match increments with
  | [] => JDone
  | category :: rest => JCountRead category rest
  end.

Definition mission_next (sentences : list string) (text : string) : job :=
  match sentences with
  | [] => count_next (text_increments text)
  | sentence :: rest => JMissionTest sentence rest text
  end.

(** One step of the job of [link]. *)
Definition job_step (w : world) (base_url link : string) (j : job) (st : state)
    : job * state :=
  match j with
  | JQueued => (JTest, st)
  | JTest => (if link_is_taken link base_url st then JMark else JDone, st)
  | JMark => (JFetch, set_visited (fun s => s ∪ {[link]}) st)
  | JFetch =>
      let st := set_requested (fun l => l ++ [link]) st in
      match http_get w link with
      | None => (JPrintError, st)
      | Some content =>
          (if truthy (Some content) then JEmails (get_text w content) else JDone, st)
      end
  | JPrintError => (JDone, set_printed (fun l => l ++ [HttpRequestError link]) st)
  | JEmails text =>
      (JPhones text, set_emails (fun s => s ∪ list_to_set (valid_emails_of text)) st)
  | JPhones text =>
      (mission_next (sorted_by_len (valid_mission_sentences_of text)) text,
       set_phones (fun s => s ∪ list_to_set (valid_phones_of text)) st)
  | JMissionTest sentence rest text =>
      (if (length (mission_sentences st) <? 3)%nat
       then JMissionAppend sentence rest text
       else count_next (text_increments text), st)
  | JMissionAppend sentence rest text =>
      (mission_next rest text,
       set_mission_sentences (fun l => l ++ [strip sentence]) st)
  | JCountRead category rest =>
      (JCountStore category (counter_get (keyword_counter st) category) rest, st)
  | JCountStore category v rest =>
      (count_next rest,
       set_keyword_counter (fun c => counter_set c category (v + 1)%Z) st)
  | JDone => (JDone, st)
  end.

(** The pool: the shared objects, the links in the order of their
    submission, and where the job of each link stands. *)
Record pool : Type := mkPool {
  shared : state;
  queue : list string;
  jobs : gmap string job
}.

Definition max_workers : nat := 10.

Definition is_queued (j : option job) : bool :=
  match j with Some JQueued => true | _ => false end.

Definition is_running (j : option job) : bool :=
  match j with
  | Some JQueued | Some JDone | None => false
  | Some _ => true
  end.

(** The links submitted before [link] have all been taken by a worker. *)
Fixpoint earlier_taken (js : gmap string job) (q : list string) (link : string) : bool :=
  match q with
  | [] => true
  | l :: q' =>
      if String.eqb l link then true
      else negb (is_queued (js !! l)) && earlier_taken js q' link
  end.

(** The job of [link] can take a step: it is running, or it is the first in
    the queue and a worker is free. *)
Definition may_step (link : string) (p : pool) : bool :=
  match jobs p !! link with
  | Some JQueued =>
      earlier_taken (jobs p) (queue p) link
      && (length (List.filter (fun l => is_running (jobs p !! l)) (queue p)) <? max_workers)%nat
  | Some JDone | None => false
  | Some _ => true
  end.

(** One step of the job of [link] in the pool, allowed or not. *)
Definition step_at (w : world) (base_url link : string) (p : pool) : pool :=
  match jobs p !! link with
  | Some j =>
      let '(j', st') := job_step w base_url link j (shared p) in
      mkPool st' (queue p) (<[link := j']> (jobs p))
  | None => p
  end.

(** The step of the job of [link], when the pool allows it. *)
Definition pool_step (w : world) (base_url link : string) (p : pool) : pool :=
  if may_step link p then step_at w base_url link p else p.

(** A schedule names, step after step, the link whose job goes next; a name
    whose job cannot take a step is passed over. *)
Definition run_schedule (w : world) (base_url : string) (schedule : list string) (p : pool)
    : pool :=
  foldl (fun p link => pool_step w base_url link p) p schedule.

(** A number of steps that ends the job of [link], wherever it stands. *)
Definition text_fuel (text : string) : nat :=
  2 + 2 * length (sorted_by_len (valid_mission_sentences_of text))
    + 2 * length (text_increments text).

Definition job_fuel (w : world) (link : string) (j : job) : nat :=
  let fetch_fuel :=
    1 + match http_get w link with
        | Some content => text_fuel (get_text w content)
        | None => 1
        end in
  match j with
  | JQueued => 3 + fetch_fuel
  | JTest => 2 + fetch_fuel
  | JMark => 1 + fetch_fuel
  | JFetch => fetch_fuel
  | JPrintError => 1
  | JEmails text => text_fuel text
  | JPhones text => text_fuel text - 1
  | JMissionTest _ rest text => 2 + 2 * length rest + 2 * length (text_increments text)
  | JMissionAppend _ rest text => 1 + 2 * length rest + 2 * length (text_increments text)
  | JCountRead _ rest => 2 + 2 * length rest
  | JCountStore _ _ rest => 1 + 2 * length rest
  | JDone => 0
  end.

(** [n] steps of the job of [link]. *)
Fixpoint steps_at (w : world) (base_url link : string) (n : nat) (p : pool) : pool :=
  match n with
  | O => p
  | S n' => steps_at w base_url link n' (step_at w base_url link p)
  end.

(** The job of [link], run to its end. *)
Definition finish_job (w : world) (base_url : string) (p : pool) (link : string) : pool :=
  steps_at w base_url link (job_fuel w link (default JDone (jobs p !! link))) p.

(** Leaving the [with] block waits until every job is done: the jobs that
    the schedule has not run to their end are run to it, in the order of
    the queue.  An interleaving in which the jobs end in another order is a
    schedule that runs them all to their end, and leaves nothing to do
    here. *)
Definition join (w : world) (base_url : string) (p : pool) : pool :=
  foldl (finish_job w base_url) p (queue p).

(** [executor.submit] puts a job in the queue and touches none of the shared
    objects, so the jobs are put there together, before the first step. *)
Definition start_pool (links : list string) (st : state) : pool :=
  mkPool (set_submitted (fun l => l ++ links) st) links
         (list_to_map (map (fun link => (link, JQueued)) links)).

(** The [with ThreadPoolExecutor(max_workers=10)] block for the links of a
    set: one [executor.submit] per link, the steps that the schedule lets
    the jobs take, and the wait at the end of the block. *)
Definition run_jobs (w : world) (base_url : string) (links : gset string)
    (schedule : list string) (st : state) : pool :=
  join w base_url (run_schedule w base_url schedule (start_pool (iterate w links) st)).

(** ** [scrape_website] *)

Definition row : Type := string * string * string.

(** The rows handed to [csv.writer], header first.  [list(s)[:3]] takes the
    first three elements of a set in the order of its iteration. *)
Definition csv_rows (w : world) (st : state) : list row :=
  let '(main_cause, secondary_cause) := get_main_and_secondary_causes (keyword_counter st) in
  let emails := take 3 (iterate w (emails st)) in
  let phones := take 3 (iterate w (phones st)) in
  [("Type", "Category", "Content")]
  ++ map (fun email => ("Contact", "Email", email)) emails
  ++ map (fun phone => ("Contact", "Phone", phone)) phones
  ++ [("Main Cause", main_cause, ""); ("Secondary Cause", secondary_cause, "")]
  ++ map (fun sentence => ("Mission Sentence", "N/A", strip sentence)) (mission_sentences st).

Inductive exception : Type :=
| ValueError                         (* from [urljoin], inside [find_links] *)
| OSError.                           (* from [open] *)

(** How a call of [scrape_website] ends. *)
Inductive outcome : Type :=
| Returned                           (* line 124: the main page cannot be loaded *)
| Raised (e : exception)             (* an exception leaves the function *)
| Written (rows : list row).         (* the file is written and the function returns *)

(** The result is how the call ends and the state it ends in.  The schedule
    says how the jobs of the pool interleave. *)
Definition scrape_website (w : world) (base_url output_csv : string)
    (schedule : list string) : outcome * state :=
  let st := initial_state in
  let '(main_page_content, st) := fetch_page_content w base_url st in
  if negb (truthy main_page_content) then
    (Returned, set_printed (fun l => l ++ [CannotLoadMainPage]) st)
  else
    let main_page_content := default "" main_page_content in
    let st := set_visited (fun s => s ∪ {[base_url]}) st in
    match find_links w main_page_content base_url with
    | None => (Raised ValueError, st)
    | Some main_page_links =>
        let st := extract_information w main_page_content st in
        let st := shared (run_jobs w base_url main_page_links schedule st) in
        if can_open w output_csv
        then (Written (csv_rows w st), set_printed (fun l => l ++ [SavedTo output_csv]) st)
        else (Raised OSError, st)
    end.

(** ** Vocabulary of the specification

    The notions below are not part of the program: they are what the
    specification says in words, so that its sentences can be compared with
    the functions above. *)

(** [s] contains [phrase] when letter case is ignored. *)
Definition contains_ci (s phrase : string) : Prop :=
  ∃ pre mid post, s = pre +:+ mid +:+ post ∧ lower mid = lower phrase.

(** The number of digits of a string. *)
Fixpoint digit_count (s : string) : nat :=
  match s with
  | EmptyString => 0
  | String c s' => (if is_digit c then 1 else 0) + digit_count s'
  end.

(** The first character is a digit. *)
Definition starts_with_digit (s : string) : Prop :=
  ∃ c rest, s = String c rest ∧ is_digit c = true.

(** The origin of a URL: its scheme and authority, that is everything up to
    the first [/], [?] or [#] after [://]. *)
Fixpoint until_path (s : string) : string :=
  match s with
  | EmptyString => EmptyString
  | String c s' => if one_of "/?#" c then EmptyString else String c (until_path s')
  end.

Definition authority_part (rest : string) : string :=
  match rest with
  | String a (String b s) => String a (String b (until_path s))
  | _ => rest
  end.

Fixpoint origin_of (url : string) : string :=
  match url with
  | EmptyString => EmptyString
  | String c rest =>
      if Ascii.eqb c ":" && startswith "//" rest
      then String c (authority_part rest)
      else String c (origin_of rest)
  end.

(** The position of a category in the declaration of the taxonomy. *)
Fixpoint index_of (name : string) (names : list string) : nat :=
  match names with
  | [] => 0
  | n :: names' => if String.eqb n name then 0 else S (index_of name names')
  end.

Definition declaration_index (name : string) : nat := index_of name category_names.

(** Ranking by descending count, ties by declaration order. *)
Definition ranks_before (x y : string * Z) : bool :=
  (snd y <? snd x)%Z
  || ((snd y =? snd x)%Z && (declaration_index (fst x) <=? declaration_index (fst y))%nat).

Definition ranking_by_declaration (c : Counter) : list string :=
  map fst (stable_sort ranks_before (List.filter (fun e => (0 <? snd e)%Z) c)).

Definition causes_by_declaration (c : Counter) : string * string :=
  (nth 0 (ranking_by_declaration c) "None", nth 1 (ranking_by_declaration c) "None").

(** How many of the triggers [keywords] occur in the sentence, letter case
    ignored. *)
Definition trigger_hits (sentence : string) (keywords : list string) : nat :=
  length (List.filter (fun keyword => str_in keyword (lower sentence)) keywords).

(** Every key is a category of the taxonomy and every count is positive. *)
Definition tally_ok (c : Counter) : Prop :=
  Forall (fun e => In (fst e) category_names ∧ (0 < snd e)%Z) c.

(** No key is lost and no count goes down. *)
Definition tally_grows (c c' : Counter) : Prop :=
  ∀ key, (In key (counter_keys c) → In key (counter_keys c'))
         ∧ (counter_get c key <= counter_get c' key)%Z.

(** A step of the tally: the invariant is kept and nothing shrinks. *)
Definition tally_step (c c' : Counter) : Prop :=
  (tally_ok c → tally_ok c')
  ∧ (NoDup (counter_keys c) → NoDup (counter_keys c'))
  ∧ tally_grows c c'.

(** The categories of the taxonomy that have a positive count. *)
Definition positive_categories (c : Counter) : list string :=
  List.filter (fun name => (0 <? counter_get c name)%Z) category_names.

(** The aggregated results of two states agree. *)
Definition same_aggregates (st st' : state) : Prop :=
  emails st = emails st' ∧ phones st = phones st'
  ∧ mission_sentences st = mission_sentences st'
  ∧ keyword_counter st = keyword_counter st'.

(** ** Sites for examples

    A site is given by the body of each of its pages and the links of each
    body; bodies are plain text and links are absolute, so that joining a
    link to the base URL gives the link.  As [urljoin] does, the join
    refuses a link whose host opens a bracket that it does not close
    ("Invalid IPv6 URL").  Sets are iterated in the order of a given list,
    the strings that are not in the list last, and every file can be opened
    except those that are listed. *)

Definition lookup_in {V : Type} (table : list (string * V)) (key : string) : option V :=
  snd <$> List.find (fun entry => String.eqb (fst entry) key) table.

Definition join_absolute (base_url link : string) : option string :=
  if has_char "[" link && negb (has_char "]" link) then None else Some link.

Definition site_in_order (pages : list (string * string)) (links : list (string * list string))
    (order locked : list string) : world :=
  mkWorld (lookup_in pages)
          (fun html => html)
          (fun html => default [] (lookup_in links html))
          join_absolute
          (fun x => index_of x order)
          (fun path => negb (existsb (String.eqb path) locked)).

Definition site (pages : list (string * string)) (links : list (string * list string)) : world :=
  site_in_order pages links [] [].

(** A seed page with two links below the seed URL and one link to another
    site; the links are taken in the order in which the page has them. *)
Definition site_with_outside_link : world :=
  site_in_order
    [ ("https://a.org", "home");
      ("https://a.org/x", "page x"); ("https://a.org/y", "page y");
      ("https://b.com/z", "elsewhere") ]
    [ ("home", ["https://a.org/x"; "https://a.org/y"; "https://b.com/z"]) ]
    ["https://a.org/x"; "https://a.org/y"; "https://b.com/z"] [].

(** A seed page with a link to a page that cannot be fetched. *)
Definition site_with_dead_link : world :=
  site [ ("https://a.org", "home") ] [ ("home", ["https://a.org/gone"]) ].

(** A seed page with a link that [urljoin] refuses. *)
Definition site_with_malformed_link : world :=
  site [ ("https://a.org", "Write to jane.doe@example.com"); ("https://a.org/x", "page x") ]
       [ ("Write to jane.doe@example.com", ["https://a.org/x"; "http://[::1"]) ].

(** A site whose report is to go to a file that cannot be opened. *)
Definition site_with_locked_file : world :=
  site_in_order [ ("https://a.org", "home"); ("https://a.org/x", "page x") ]
                [ ("home", ["https://a.org/x"]) ]
                [] ["/proc/out.csv"].

(** A state whose tally has counted one sentence about animals. *)
Definition one_animal : state :=
  set_keyword_counter (fun _ => [("animal", 1%Z)]) initial_state.

(** ** Vocabulary of the further properties *)

(** A phrase that begins with a character that is not whitespace. *)
Definition starts_nonspace (p : string) : bool :=
  match p with
  | String a _ => negb (is_space a)
  | EmptyString => false
  end.

(** A phrase that ends with a character that is not whitespace. *)
Fixpoint ends_nonspace (p : string) : bool :=
  match p with
  | EmptyString => false
  | String a EmptyString => negb (is_space a)
  | String _ p' => ends_nonspace p'
  end.

(** A site whose seed page states a mission and gives contact details, with
    one page below it. *)
Definition site_with_mission : world :=
  site [ ("https://a.org",
          "Welcome to our home. Our mission is to protect wildlife. Write to jane.doe@example.com");
         ("https://a.org/about",
          "We care for students and schools! Is the mission of the school clear? Call: 555-1234 today") ]
       [ ("Welcome to our home. Our mission is to protect wildlife. Write to jane.doe@example.com",
          ["https://a.org/about"; "#top"; "https://other.org/"]) ].

(** The hits of a sentence for a key: the triggers found, summed over the
    categories of that name. *)
Definition hits_over (cats : list (string * list string)) (sentence key : string) : Z :=
  foldr (fun '(category, keywords) acc =>
           ((if String.eqb category key
             then Z.of_nat (trigger_hits sentence keywords) else 0) + acc)%Z)
        0%Z cats.

Definition sentence_hits (sentence key : string) : Z := hits_over categories sentence key.

(** The hits of a page text for a key: those of its accepted sentences. *)
Definition text_hits (text key : string) : Z :=
  foldr (fun sentence acc =>
           ((if filter_valid_sentence sentence default_min_length default_max_length
             then sentence_hits sentence key else 0) + acc)%Z)
        0%Z (split_on "." text).

(** What a request for [url] gives to extract from: the text of the page,
    when there is a page and it is not empty. *)
Definition fetched_text (w : world) (url : string) : option string :=
  match http_get w url with
  | Some (String c content) => Some (get_text w (String c content))
  | _ => None
  end.

(** The hits of a URL for a key: those of its text, if it has any. *)
Definition url_hits (w : world) (key url : string) : Z :=
  match fetched_text w url with
  | Some text => text_hits text key
  | None => 0%Z
  end.

(** The e-mails and the phones that a request for [url] contributes. *)
Definition url_emails (w : world) (url : string) : list string :=
  match fetched_text w url with
  | Some text => valid_emails_of text
  | None => []
  end.

Definition url_phones (w : world) (url : string) : list string :=
  match fetched_text w url with
  | Some text => valid_phones_of text
  | None => []
  end.

Definition sum_Z (l : list Z) : Z := foldr Z.add 0%Z l.

(** The three fields of a row of the report. *)
Definition row_type (r : row) : string := fst (fst r).
Definition row_category (r : row) : string := snd (fst r).
Definition row_content (r : row) : string := snd r.

(** The rows of a type, and those of a type and a category. *)
Definition rows_of_type (type : string) (rows : list row) : list row :=
  List.filter (fun r => String.eqb (row_type r) type) rows.

Definition rows_of_kind (type category : string) (rows : list row) : list row :=
  List.filter (fun r => String.eqb (row_type r) type && String.eqb (row_category r) category)
              rows.

(** The contacts and the mission sentences of [st] are still there in [st'],
    the sentences at the same places. *)
Definition results_kept (st st' : state) : Prop :=
  emails st ⊆ emails st'
  ∧ phones st ⊆ phones st'
  ∧ mission_sentences st `prefix_of` mission_sentences st'.

(** A state whose list of mission sentences is full. *)
Definition three_sentences : state :=
  set_mission_sentences
    (fun _ => ["Our mission is clear."; "Our mission is to help."; "Our mission: shelter!"])
    initial_state.

(** ** What a regular expression matches

    [matches r prev m rest] says that [r] matches the string [m] when [prev]
    is the character before it and [rest] is what follows it in the subject;
    the context is what [\b] looks at. *)

Fixpoint concat_str (pieces : list string) : string :=
  match pieces with
  | [] => EmptyString
  | piece :: pieces' => piece +:+ concat_str pieces'
  end.

Fixpoint matches (r : re) (prev : option ascii) (m rest : string) {struct r} : Prop :=
  match r with
  | Eps => m = EmptyString
  | Chr p => ∃ c, m = String c EmptyString ∧ p c = true
  | WordB =>
      m = EmptyString ∧ xorb (is_word_opt prev) (is_word_opt (head_char rest)) = true
  | Seq r1 r2 =>
      ∃ m1 m2, m = m1 +:+ m2
               ∧ matches r1 prev m1 (m2 +:+ rest)
               ∧ matches r2 (last_char prev m1) m2 rest
  | Opt r1 => m = EmptyString ∨ matches r1 prev m rest
  | Star r1 =>
      ∃ pieces, m = concat_str pieces
                ∧ (fix each (pieces : list string) (prev : option ascii) : Prop :=
                     match pieces with
                     | [] => True
                     | piece :: pieces' =>
                         matches r1 prev piece (concat_str pieces' +:+ rest)
                         ∧ each pieces' (last_char prev piece)
                     end) pieces prev
  end.

(** The characters that a regular expression can consume. *)
Fixpoint alphabet (r : re) (c : ascii) : bool :=
  match r with
  | Eps | WordB => false
  | Chr p => p c
  | Seq r1 r2 => alphabet r1 c || alphabet r2 c
  | Opt r1 | Star r1 => alphabet r1 c
  end.

(** Every character of a string satisfies a test. *)
Fixpoint all_chars (p : ascii → bool) (s : string) : bool :=
  match s with
  | EmptyString => true
  | String c s' => p c && all_chars p s'
  end.

(** The least number of characters that a regular expression consumes. *)
Fixpoint min_len (r : re) : nat :=
  match r with
  | Eps | WordB | Opt _ | Star _ => 0
  | Chr _ => 1
  | Seq r1 r2 => min_len r1 + min_len r2
  end.

(** The last character of a string is one of [.!?]. *)
Definition ends_with_terminal (s : string) : bool :=
  match last_char None s with
  | Some c => is_terminal c
  | None => false
  end.

(** [key in counter] *)
Definition in_keys (key : string) (c : Counter) : bool :=
  existsb (String.eqb key) (counter_keys c).

(** ** Vocabulary of the crawl *)

(** The state in which [scrape_website] enters the [with] block, when the
    seed page has the body [html]: the seed is requested and visited and its
    page is extracted. *)
Definition before_pool (w : world) (base_url html : string) : state :=
  extract_information w html
    (set_visited (fun s => s ∪ {[base_url]})
       (set_requested (fun l => l ++ [base_url]) initial_state)).

(** The pool of a crawl after the steps of a schedule, before the wait at
    the end of the block. *)
Definition crawl_pool (w : world) (base_url html : string) (links : gset string)
    (schedule : list string) : pool :=
  run_schedule w base_url schedule
    (start_pool (iterate w links) (before_pool w base_url html)).

(** The body of the seed page as [scrape_website] tests it: empty when the
    request fails. *)
Definition seed_body (w : world) (base_url : string) : string :=
  default "" (http_get w base_url).

(** The job has called [requests.get]. *)
Definition after_fetch (j : job) : bool :=
  match j with
  | JQueued | JTest | JMark | JFetch | JDone => false
  | _ => true
  end.

(** What a job holds comes from the page of its link: its text is the text
    of that page, and the mission sentences and the increments that it has
    still to go through are the last ones of that text. *)
Definition job_ok (w : world) (link : string) (j : job) : Prop :=
  match j with
  | JQueued | JTest | JMark | JFetch | JDone => True
  | JPrintError => http_get w link = None
  | JEmails text | JPhones text => fetched_text w link = Some text
  | JMissionTest sentence rest text | JMissionAppend sentence rest text =>
      fetched_text w link = Some text
      ∧ (sentence :: rest) `suffix_of` sorted_by_len (valid_mission_sentences_of text)
  | JCountRead category rest | JCountStore category _ rest =>
      ∃ text, fetched_text w link = Some text
              ∧ (category :: rest) `suffix_of` text_increments text
  end.

(** The increments of its page that a job has not stored yet. *)
Definition pending_increments (j : option job) : list string :=
  match j with
  | Some (JEmails text) | Some (JPhones text)
  | Some (JMissionTest _ _ text) | Some (JMissionAppend _ _ text) => text_increments text
  | Some (JCountRead category rest) | Some (JCountStore category _ rest) => category :: rest
  | _ => []
  end.

(** The job is about to add the e-mails, or the phones, of its page. *)
Definition before_emails (j : option job) : bool :=
  match j with Some (JEmails _) => true | _ => false end.

Definition before_phones (j : option job) : bool :=
  match j with Some (JEmails _) | Some (JPhones _) => true | _ => false end.

(** The requests and the visited set of a pool fit together: a URL is
    visited when it has been requested or is about to be, a job that is
    about to mark or to request its link is the first to do so, and what is
    requested is the seed or a link of the queue. *)
Record trace_inv (w : world) (base_url : string) (p : pool) : Prop := mkTraceInv {
  inv_dom : ∀ link j, jobs p !! link = Some j → In link (queue p);
  inv_job : ∀ link j, jobs p !! link = Some j → job_ok w link j;
  inv_after : ∀ link j, jobs p !! link = Some j → after_fetch j = true →
              In link (requested (shared p));
  inv_visited : ∀ url, url ∈ visited (shared p)
                       ↔ In url (requested (shared p)) ∨ jobs p !! url = Some JFetch;
  inv_mark : ∀ link, jobs p !! link = Some JMark → link ∉ visited (shared p);
  inv_fetch : ∀ link, jobs p !! link = Some JFetch → ¬ In link (requested (shared p));
  inv_once : NoDup (requested (shared p));
  inv_seed : In base_url (requested (shared p));
  inv_links : ∀ url, In url (requested (shared p)) → url = base_url ∨ In url (queue p);
  inv_submitted : submitted (shared p) = queue p
}.

(** The workers take the jobs in the order of the queue: behind a job that
    waits, every job waits. *)
Definition in_order (p : pool) : Prop :=
  ∀ taken link waiting,
    queue p = taken ++ link :: waiting →
    is_queued (jobs p !! link) = true →
    ∀ l, In l waiting → is_queued (jobs p !! l) = true.

(** The tally of a pool: its keys are categories, each once, its counts are
    positive, and no job is about to store a negative count. *)
Definition tally_inv (p : pool) : Prop :=
  tally_ok (keyword_counter (shared p))
  ∧ NoDup (counter_keys (keyword_counter (shared p)))
  ∧ ∀ link category v rest,
      jobs p !! link = Some (JCountStore category v rest) → (0 <= v)%Z.

(** The contacts of a pool are those of the requested pages whose jobs have
    added them. *)
Definition contacts_inv (w : world) (p : pool) : Prop :=
  (∀ email, email ∈ emails (shared p)
            ↔ ∃ url, In url (requested (shared p))
                     ∧ before_emails (jobs p !! url) = false
                     ∧ In email (url_emails w url))
  ∧ (∀ phone, phone ∈ phones (shared p)
              ↔ ∃ url, In url (requested (shared p))
                       ∧ before_phones (jobs p !! url) = false
                       ∧ In phone (url_phones w url)).

(** The lines of a pool are the error lines of the requests that failed,
    each once, but for the jobs that have not printed theirs yet. *)
Definition printed_inv (w : world) (p : pool) : Prop :=
  NoDup (printed (shared p))
  ∧ ∀ m, In m (printed (shared p))
         ↔ ∃ url, m = HttpRequestError url
                  ∧ In url (requested (shared p))
                  ∧ http_get w url = None
                  ∧ jobs p !! url ≠ Some JPrintError.

(** The increments of a page that the job of [url] has stored. *)
Definition stored_hits (w : world) (p : pool) (key url : string) : Z :=
  (url_hits w key url
   - Z.of_nat (count_occ string_dec (pending_increments (jobs p !! url)) key))%Z.

(** The keys of a pool are those that a requested page has a stored
    increment for, and no count is larger than the number of stored
    increments, nor is a count that is about to be stored. *)
Definition count_inv (w : world) (p : pool) : Prop :=
  (∀ key, In key (counter_keys (keyword_counter (shared p)))
          ↔ ∃ url, In url (requested (shared p)) ∧ (0 < stored_hits w p key url)%Z)
  ∧ (∀ key, (counter_get (keyword_counter (shared p)) key
             <= sum_Z (map (stored_hits w p key) (requested (shared p))))%Z)
  ∧ (∀ link category v rest,
       jobs p !! link = Some (JCountStore category v rest) →
       (v <= sum_Z (map (stored_hits w p category) (requested (shared p))))%Z).

(** ** Crawls for examples *)

(** Two pages that each state a mission, below a seed page that states two. *)
Definition site_with_missions : world :=
  site_in_order
    [ ("https://a.org", "Our mission is to feed people. Our mission is to shelter people.");
      ("https://a.org/x", "Our mission is to teach people.");
      ("https://a.org/y", "Our mission is to heal people.") ]
    [ ("Our mission is to feed people. Our mission is to shelter people.",
       ["https://a.org/x"; "https://a.org/y"]) ]
    ["https://a.org/x"; "https://a.org/y"] [].

(** Both jobs test the length of the list before either appends. *)
Definition both_test_then_append : list string :=
  repeat "https://a.org/x" 7 ++ repeat "https://a.org/y" 7
  ++ ["https://a.org/x"; "https://a.org/y"].

(** Two pages about the environment, the second with three triggers. *)
Definition site_with_keywords : world :=
  site_in_order
    [ ("https://a.org", "home");
      ("https://a.org/x", "We protect the environment here.");
      ("https://a.org/y", "Climate and nature are the environment we share.") ]
    [ ("home", ["https://a.org/x"; "https://a.org/y"]) ]
    ["https://a.org/x"; "https://a.org/y"] [].

(** The first job reads the count, the second job counts its page, and the
    first job stores what it has read, plus one. *)
Definition read_then_overtaken : list string :=
  repeat "https://a.org/x" 7 ++ repeat "https://a.org/y" 12.

Definition store_after_overtaken : list string :=
  read_then_overtaken ++ ["https://a.org/x"].

(** * Properties *)

(** ** Strings *)

Section StringFacts.

Lemma startswith_app (p s : string) :
  startswith p s = true ↔ ∃ post, s = p +:+ post.
Proof.
  revert s. induction p as [|a p IH]; intros s; simpl.
  - split; [intros _; by exists s | done].
  - destruct s as [|b s].
    + split; [done | intros [post H]; discriminate].
    + rewrite andb_true_iff, IH. split.
      * intros [Hab [post ->]]. apply Ascii.eqb_eq in Hab as ->. by exists post.
      * intros [post H]. injection H as -> ->. split; [apply Ascii.eqb_refl | by exists post].
Qed.

Lemma str_in_app (p s : string) :
  str_in p s = true ↔ ∃ pre post, s = pre +:+ p +:+ post.
Proof.
  induction s as [|c s IH]; simpl.
  - rewrite orb_false_r, startswith_app. split.
    + intros [post H]. by exists EmptyString, post.
    + intros [pre [post H]]. destruct pre; [by exists post | discriminate].
  - rewrite orb_true_iff, startswith_app, IH. split.
    + intros [[post H] | [pre [post H]]].
      * by exists EmptyString, post.
      * exists (String c pre), post. simpl. by rewrite H.
    + intros [pre [post H]]. destruct pre as [|a pre]; simpl in H.
      * left. by exists post.
      * right. injection H as -> ->. by exists pre, post.
Qed.

Lemma lower_app (a b : string) : lower (a +:+ b) = lower a +:+ lower b.
Proof. induction a as [|c a IH]; simpl; [done | by rewrite IH]. Qed.

Lemma lower_split (s a b : string) :
  lower s = a +:+ b → ∃ a' b', s = a' +:+ b' ∧ lower a' = a ∧ lower b' = b.
Proof.
  revert s. induction a as [|c a IH]; intros s H; simpl in H.
  - by exists EmptyString, s.
  - destruct s as [|d s]; [discriminate |]. simpl in H. injection H as Hc Hs.
    destruct (IH s Hs) as (a' & b' & -> & Ha & Hb).
    exists (String d a'), b'. simpl. by rewrite Hc, Ha.
Qed.

(** Looking for a lower-case phrase in [s.lower()] is looking for the
    phrase in [s] with letter case ignored. *)
Lemma str_in_lower (phrase s : string) :
  lower phrase = phrase →
  str_in phrase (lower s) = true ↔ contains_ci s phrase.
Proof.
  intros Hlow. rewrite str_in_app. unfold contains_ci. split.
  - intros (pre & post & H).
    apply lower_split in H as (pre' & rest & -> & _ & H).
    apply lower_split in H as (mid & post' & -> & Hmid & _).
    exists pre', mid, post'. by rewrite Hlow.
  - intros (pre & mid & post & -> & Hmid).
    exists (lower pre), (lower post).
    by rewrite !lower_app, Hmid, Hlow.
Qed.

End StringFacts.

(** ** [filter_valid_sentence] *)

Lemma common_invalid_phrases_lower :
  Forall (fun phrase => lower phrase = phrase) common_invalid_phrases.
Proof. repeat constructor. Qed.

Lemma blacklisted_iff (s : string) :
  existsb (fun phrase => str_in phrase (lower s)) common_invalid_phrases = true
  ↔ ∃ phrase, In phrase common_invalid_phrases ∧ contains_ci s phrase.
Proof.
  pose proof common_invalid_phrases_lower as Hall.
  rewrite List.Forall_forall in Hall.
  rewrite existsb_exists. split.
  - intros (phrase & Hin & H). exists phrase. split; [done |].
    apply str_in_lower; auto.
  - intros (phrase & Hin & H). exists phrase. split; [done |].
    apply str_in_lower; auto.
Qed.

(** C7. [filter_valid_sentence], with its default bounds, rejects a sentence
    exactly when its stripped length is below 10, or above 200, or when the
    sentence contains one of the blacklisted phrases with letter case
    ignored; in every other case it accepts.  It is a function of the
    sentence alone: it takes no shared object and returns nothing but the
    verdict. *)
Theorem filter_valid_sentence_rejects_iff (s : string) :
  filter_valid_sentence s default_min_length default_max_length = false
  ↔ (String.length (strip s) < 10
     ∨ 200 < String.length (strip s)
     ∨ ∃ phrase, In phrase common_invalid_phrases ∧ contains_ci s phrase).
Proof.
  unfold filter_valid_sentence, default_min_length, default_max_length.
  rewrite <- blacklisted_iff.
  destruct (String.length (strip s) <? 10)%nat eqn:Hmin.
  { apply Nat.ltb_lt in Hmin. cbn [orb]. tauto. }
  destruct (200 <? String.length (strip s))%nat eqn:Hmax.
  { apply Nat.ltb_lt in Hmax. cbn [orb]. tauto. }
  apply Nat.ltb_ge in Hmin, Hmax. cbn [orb].
  destruct (existsb (fun phrase => str_in phrase (lower s)) common_invalid_phrases).
  - tauto.
  - split; [done |]. intros [H | [H | H]]; [lia | lia | done].
Qed.

(** ** The counter *)

Section CounterFacts.

Lemma counter_get_set (c : Counter) (k k' : string) (v : Z) :
  counter_get (counter_set c k v) k' = if String.eqb k k' then v else counter_get c k'.
Proof.
  induction c as [|[k0 v0] c IH]; simpl.
  - done.
  - destruct (String.eqb k0 k) eqn:E0; simpl.
    + apply String.eqb_eq in E0 as ->. by destruct (String.eqb k k').
    + rewrite IH. destruct (String.eqb k0 k') eqn:E1; [| done].
      apply String.eqb_eq in E1 as ->. by rewrite String.eqb_sym, E0.
Qed.

Lemma counter_get_incr (c : Counter) (k k' : string) :
  counter_get (counter_incr c k) k'
  = (counter_get c k' + if String.eqb k k' then 1 else 0)%Z.
Proof.
  unfold counter_incr. rewrite counter_get_set.
  destruct (String.eqb k k') eqn:E; [| lia].
  apply String.eqb_eq in E as ->. done.
Qed.

Lemma counter_keys_set (c : Counter) (k k' : string) (v : Z) :
  In k' (counter_keys c) → In k' (counter_keys (counter_set c k v)).
Proof.
  unfold counter_keys. induction c as [|[k0 v0] c IH]; simpl; [done |].
  destruct (String.eqb k0 k); simpl; tauto.
Qed.

Lemma counter_keys_set_inv (c : Counter) (k k' : string) (v : Z) :
  In k' (counter_keys (counter_set c k v)) → In k' (counter_keys c) ∨ k' = k.
Proof.
  unfold counter_keys. induction c as [|[k0 v0] c IH]; simpl.
  - intros [<- | []]. by right.
  - destruct (String.eqb k0 k) eqn:E; simpl; [tauto |].
    intros [<- | H]; [tauto |]. apply IH in H. tauto.
Qed.

Lemma counter_keys_set_NoDup (c : Counter) (k : string) (v : Z) :
  NoDup (counter_keys c) → NoDup (counter_keys (counter_set c k v)).
Proof.
  unfold counter_keys. induction c as [|[k0 v0] c IH]; simpl; intros Hnd.
  - apply NoDup_singleton.
  - apply NoDup_cons in Hnd as [Hfresh Hnd].
    destruct (String.eqb k0 k) eqn:E; simpl.
    + apply NoDup_cons. done.
    + apply NoDup_cons. split; [| by apply IH].
      rewrite list_elem_of_In. intros H.
      apply counter_keys_set_inv in H as [H | ->].
      * apply Hfresh. by apply list_elem_of_In.
      * by rewrite String.eqb_refl in E.
Qed.

Lemma counter_set_Forall (P : string * Z → Prop) (c : Counter) (k : string) (v : Z) :
  Forall P c → (∀ v0, P (k, v0) → P (k, v)) → P (k, v) → Forall P (counter_set c k v).
Proof.
  intros Hc Hupd Hkv. induction Hc as [|[k0 v0] c H0 Hc IH]; simpl.
  - by constructor.
  - destruct (String.eqb k0 k) eqn:E.
    + apply String.eqb_eq in E as ->. constructor; eauto.
    + by constructor.
Qed.

Lemma tally_ok_nonneg (c : Counter) (k : string) :
  tally_ok c → (0 <= counter_get c k)%Z.
Proof.
  induction 1 as [|[k0 v0] c [_ H0] _ IH]; simpl in *; [done |].
  destruct (String.eqb k0 k); lia.
Qed.

Lemma tally_grows_refl (c : Counter) : tally_grows c c.
Proof. intros k. split; [done | lia]. Qed.

Lemma tally_grows_trans (c1 c2 c3 : Counter) :
  tally_grows c1 c2 → tally_grows c2 c3 → tally_grows c1 c3.
Proof.
  intros H12 H23 k. destruct (H12 k) as [Ha Hb], (H23 k) as [Hc Hd].
  split; [auto | lia].
Qed.

Lemma tally_grows_incr (c : Counter) (k : string) : tally_grows c (counter_incr c k).
Proof.
  intros k'. split.
  - apply counter_keys_set.
  - rewrite counter_get_incr. destruct (String.eqb k k'); lia.
Qed.

Lemma tally_ok_incr (c : Counter) (k : string) :
  In k category_names → tally_ok c → tally_ok (counter_incr c k).
Proof.
  intros Hk Hc. pose proof (tally_ok_nonneg c k Hc) as Hnn.
  apply counter_set_Forall; simpl; [done | intros _ _ | ]; (split; [done | lia]).
Qed.

End CounterFacts.

Lemma tally_step_refl (c : Counter) : tally_step c c.
Proof. split; [done |]. split; [done | apply tally_grows_refl]. Qed.

Lemma tally_step_trans (c1 c2 c3 : Counter) :
  tally_step c1 c2 → tally_step c2 c3 → tally_step c1 c3.
Proof.
  intros (Ha & Hb & Hc) (Hd & He & Hf).
  split; [auto |]. split; [auto | by eapply tally_grows_trans].
Qed.

Lemma tally_step_incr (c : Counter) (k : string) :
  In k category_names → tally_step c (counter_incr c k).
Proof.
  intros Hk. split; [by apply tally_ok_incr |].
  split; [apply counter_keys_set_NoDup | apply tally_grows_incr].
Qed.

(** A loop whose every iteration is a step is a step. *)
Lemma tally_step_foldl {A : Type} (f : Counter → A → Counter) (l : list A) (c : Counter) :
  (∀ c x, In x l → tally_step c (f c x)) → tally_step c (foldl f c l).
Proof.
  revert c. induction l as [|x l IH]; intros c Hf; simpl.
  - apply tally_step_refl.
  - eapply tally_step_trans; [apply Hf; by left |].
    apply IH. intros c' y Hy. apply Hf. by right.
Qed.

Create HintDb tally.
#[local] Hint Resolve tally_step_refl tally_step_incr : tally.

(** ** [classify_cause_and_count] *)

Lemma count_keywords_step (sentence category : string) (keywords : list string) (c : Counter) :
  In category category_names → tally_step c (count_keywords sentence category keywords c).
Proof.
  intros Hcat. unfold count_keywords. apply tally_step_foldl.
  intros c' keyword _. destruct (str_in keyword (lower sentence)); auto with tally.
Qed.

Lemma classify_step (sentence : string) (c : Counter) :
  tally_step c (classify_cause_and_count sentence c).
Proof.
  unfold classify_cause_and_count, classify_over. apply tally_step_foldl.
  intros c' [category keywords] Hin. apply count_keywords_step.
  unfold category_names. apply (in_map fst) in Hin. exact Hin.
Qed.

Lemma count_keywords_get (sentence category : string) (keywords : list string)
    (c : Counter) (k : string) :
  counter_get (count_keywords sentence category keywords c) k
  = (counter_get c k
     + if String.eqb category k then Z.of_nat (trigger_hits sentence keywords) else 0)%Z.
Proof.
  unfold count_keywords, trigger_hits. revert c.
  induction keywords as [|keyword keywords IH]; intros c; simpl.
  - destruct (String.eqb category k); lia.
  - rewrite IH. destruct (str_in keyword (lower sentence)); simpl length.
    + rewrite counter_get_incr. destruct (String.eqb category k); lia.
    + done.
Qed.

Lemma classify_over_get_other (cats : list (string * list string)) (sentence : string)
    (c : Counter) (k : string) :
  ¬ In k (map fst cats) → counter_get (classify_over cats sentence c) k = counter_get c k.
Proof.
  unfold classify_over. revert c.
  induction cats as [|[category keywords] cats IH]; intros c Hk; simpl in *; [done |].
  rewrite IH by tauto. rewrite count_keywords_get.
  destruct (String.eqb category k) eqn:E; [| lia].
  apply String.eqb_eq in E. tauto.
Qed.

Lemma classify_over_get (cats : list (string * list string)) (sentence : string)
    (c : Counter) (category : string) (keywords : list string) :
  NoDup (map fst cats) → In (category, keywords) cats →
  counter_get (classify_over cats sentence c) category
  = (counter_get c category + Z.of_nat (trigger_hits sentence keywords))%Z.
Proof.
  revert c. induction cats as [|[category0 keywords0] cats IH]; intros c Hnd Hin;
    simpl in *; [done |].
  apply NoDup_cons in Hnd as [Hfresh Hnd]. destruct Hin as [Heq | Hin].
  - injection Heq as -> ->.
    change (counter_get (classify_over cats sentence
              (count_keywords sentence category keywords c)) category
            = (counter_get c category + Z.of_nat (trigger_hits sentence keywords))%Z).
    rewrite classify_over_get_other.
    + rewrite count_keywords_get, String.eqb_refl. done.
    + by rewrite <- list_elem_of_In.
  - change (counter_get (classify_over cats sentence
              (count_keywords sentence category0 keywords0 c)) category
            = (counter_get c category + Z.of_nat (trigger_hits sentence keywords))%Z).
    rewrite IH by done. rewrite count_keywords_get.
    destruct (String.eqb category0 category) eqn:E; [| lia].
    apply String.eqb_eq in E as ->. exfalso. apply Hfresh.
    apply list_elem_of_In. apply (in_map fst) in Hin. exact Hin.
Qed.

Lemma category_names_NoDup : NoDup category_names.
Proof. apply (bool_decide_unpack _). by vm_compute. Qed.

(** C2, as stated: each category goes up by exactly one when any of its
    triggers occurs.  The sentence "mental health" contains two triggers of
    healthcare ("health" and "mental health") and the counter goes from 0
    to 2. *)
Lemma classify_once_per_category_counterexample :
  counter_get (classify_cause_and_count "mental health" []) "healthcare" = 2%Z
  ∧ ¬ (∀ sentence c category keywords,
         In (category, keywords) categories →
         counter_get (classify_cause_and_count sentence c) category
         = (counter_get c category
            + if existsb (fun keyword => str_in keyword (lower sentence)) keywords
              then 1 else 0)%Z).
Proof.
  split; [by vm_compute |].
  intros H.
  specialize (H "mental health" []  "healthcare"
                ["health"; "medicine"; "care"; "hospital"; "disease"; "mental health"]).
  assert (In ("healthcare",
              ["health"; "medicine"; "care"; "hospital"; "disease"; "mental health"])
             categories) as Hin by (unfold categories; simpl; tauto).
  specialize (H Hin). vm_compute in H. discriminate.
Qed.

(** C2, amended.  For every sentence and every category of the taxonomy,
    [classify_cause_and_count] adds to the category's counter the number of
    the category's triggers that occur in the lower-cased sentence: 0 when
    none occurs, 1 when exactly one does, more when several do. *)
Theorem classify_counts_matching_triggers
    (sentence : string) (c : Counter) (category : string) (keywords : list string)
    (Hin : In (category, keywords) categories) :
  counter_get (classify_cause_and_count sentence c) category
  = (counter_get c category + Z.of_nat (trigger_hits sentence keywords))%Z.
Proof.
  unfold classify_cause_and_count. apply classify_over_get; [| done].
  apply category_names_NoDup.
Qed.

Lemma classify_counts_matching_triggers_witness :
  counter_get (classify_cause_and_count "Kids and youth love nature" [("children", 4%Z)])
              "children"
  = (counter_get [("children", 4%Z)] "children"
     + Z.of_nat (trigger_hits "Kids and youth love nature"
                   ["children"; "kids"; "youth"; "adolescents"; "future generation"]))%Z.
Proof.
  apply classify_counts_matching_triggers.
  unfold categories. do 6 right. left. reflexivity.
Defined.

(** One sentence may count for several categories. *)
Example classify_several_categories :
  classify_cause_and_count "Kids and youth love nature" []
  = [("environment", 1%Z); ("children", 2%Z)].
Proof. by vm_compute. Qed.

(** ** Stable sorting *)

Section StableSortFacts.

Context {A : Type} (le : A → A → bool).

Lemma insert_sorted_perm (x : A) (l : list A) :
  Permutation (insert_sorted le x l) (x :: l).
Proof.
  induction l as [|y l IH]; simpl; [done |].
  destruct (le x y); [done |].
  rewrite IH. apply perm_swap.
Qed.

Lemma stable_sort_perm (l : list A) : Permutation (stable_sort le l) l.
Proof.
  induction l as [|x l IH]; simpl; [done |].
  rewrite insert_sorted_perm. by constructor.
Qed.

(** Entries that may all precede one another keep their relative order. *)
Lemma insert_sorted_filter (P : A → bool) (x : A) (l : list A) :
  (∀ a b, P a = true → P b = true → le a b = true) →
  List.filter P (insert_sorted le x l) = List.filter P (x :: l).
Proof.
  intros Hclass. induction l as [|y l IH]; simpl; [done |].
  destruct (le x y) eqn:Hxy; [done |].
  simpl in *. rewrite IH.
  destruct (P x) eqn:Hx, (P y) eqn:Hy; try done.
  rewrite Hclass in Hxy; done.
Qed.

Lemma stable_sort_filter (P : A → bool) (l : list A) :
  (∀ a b, P a = true → P b = true → le a b = true) →
  List.filter P (stable_sort le l) = List.filter P l.
Proof.
  intros Hclass. induction l as [|x l IH]; simpl; [done |].
  change (foldr (insert_sorted le) [] l) with (stable_sort le l).
  rewrite insert_sorted_filter by done. simpl. by rewrite IH.
Qed.

Hypothesis le_total : ∀ a b, le a b = false → le b a = true.
Hypothesis le_trans : ∀ a b c, le a b = true → le b c = true → le a c = true.

Lemma insert_sorted_sorted (x : A) (l : list A) :
  StronglySorted (fun a b => le a b = true) l →
  StronglySorted (fun a b => le a b = true) (insert_sorted le x l).
Proof.
  induction 1 as [|y l Hl IH Hy]; simpl.
  - repeat constructor.
  - destruct (le x y) eqn:Hxy.
    + constructor; [by constructor |]. constructor; [done |].
      eapply Forall_impl; [exact Hy |]. intros z Hz. simpl in Hz. eauto.
    + constructor; [done |].
      rewrite insert_sorted_perm. constructor; auto.
Qed.

Lemma stable_sort_sorted (l : list A) :
  StronglySorted (fun a b => le a b = true) (stable_sort le l).
Proof.
  induction l as [|x l IH]; simpl; [constructor |].
  by apply insert_sorted_sorted.
Qed.

End StableSortFacts.

(** ** [get_main_and_secondary_causes] *)

Lemma StronglySorted_weaken {A : Type} (R R' : A → A → Prop) (l : list A) :
  (∀ x y, R x y → R' x y) → StronglySorted R l → StronglySorted R' l.
Proof.
  intros HR. induction 1 as [|x l Hl IH Hx]; constructor; [done |].
  eapply Forall_impl; [exact Hx | auto].
Qed.

Lemma most_common_sorted (c : Counter) :
  StronglySorted (fun x y => (snd y <= snd x)%Z) (most_common c).
Proof.
  unfold most_common.
  apply (StronglySorted_weaken (fun x y => (snd y <=? snd x)%Z = true)).
  - intros x y H. by apply Z.leb_le.
  - apply stable_sort_sorted.
    + intros x y H. apply Z.leb_gt in H. apply Z.leb_le. lia.
    + intros x y z Hxy Hyz. apply Z.leb_le in Hxy, Hyz. apply Z.leb_le. lia.
Qed.

Lemma most_common_stable (c : Counter) (v : Z) :
  List.filter (fun e => (snd e =? v)%Z) (most_common c)
  = List.filter (fun e => (snd e =? v)%Z) c.
Proof.
  unfold most_common. apply stable_sort_filter.
  intros x y Hx Hy. apply Z.eqb_eq in Hx, Hy. apply Z.leb_le. lia.
Qed.

Lemma counter_get_pos_key (c : Counter) (k : string) :
  (0 < counter_get c k)%Z → In k (counter_keys c).
Proof.
  unfold counter_keys. induction c as [|[k0 v0] c IH]; simpl; [lia |].
  destruct (String.eqb k0 k) eqn:E.
  - apply String.eqb_eq in E. by left.
  - intros H. right. by apply IH.
Qed.

Lemma tally_ok_key_pos (c : Counter) (k : string) :
  tally_ok c → In k (counter_keys c) →
  (0 < counter_get c k)%Z ∧ In k category_names.
Proof.
  unfold counter_keys. induction 1 as [|[k0 v0] c [Hname Hpos] _ IH]; simpl; [done |].
  destruct (String.eqb k0 k) eqn:E.
  - apply String.eqb_eq in E as <-. done.
  - intros [-> | H]; [by rewrite String.eqb_refl in E | by apply IH].
Qed.

(** On a tally of the crawl the categories of positive count are the keys. *)
Lemma positive_categories_length (c : Counter) :
  NoDup (counter_keys c) → tally_ok c →
  length (positive_categories c) = length c.
Proof.
  intros Hnd Hok.
  assert (Permutation (positive_categories c) (counter_keys c)) as Hperm.
  { apply NoDup_Permutation; [| done |].
    - apply NoDup_ListNoDup, List.NoDup_filter, NoDup_ListNoDup, category_names_NoDup.
    - intros k. unfold positive_categories.
      rewrite !list_elem_of_In, filter_In, Z.ltb_lt. split.
      + intros [_ Hpos]. by apply counter_get_pos_key.
      + intros Hk. destruct (tally_ok_key_pos c k Hok Hk). done. }
  rewrite (Permutation_length Hperm). unfold counter_keys. apply length_map.
Qed.

(** C3, as stated: ties are broken by the declaration order of the
    taxonomy.  On a page that speaks of animals before it speaks of the
    environment, both once, the two counts are equal, "environment" is
    declared first, and the primary cause is "animal". *)
Lemma tie_by_declaration_order_counterexample :
  let c := count_text "We rescue animals every day. We protect the environment too." [] in
  c = [("animal", 1%Z); ("environment", 1%Z)]
  ∧ get_main_and_secondary_causes c = ("animal", "environment")
  ∧ causes_by_declaration c = ("environment", "animal")
  ∧ get_main_and_secondary_causes c ≠ causes_by_declaration c.
Proof. by vm_compute. Qed.

(** C3, amended.  [get_main_and_secondary_causes] ranks the entries of the
    tally by descending count, entries of equal count staying in the order
    in which they entered the tally; the primary cause is the first key of
    that ranking and the secondary cause the second, with "None" where the
    ranking has no such entry.  On a tally of the crawl (unique keys, all of
    the taxonomy, positive counts) that is "None" for the primary cause when
    no category has a positive count and for the secondary cause when fewer
    than two have.  A tally of environment 3 and animal 1 gives
    ("environment", "animal") whichever of the two entered first. *)
Theorem main_and_secondary_by_count_then_insertion (c : Counter) :
  let sorted_causes := most_common c in
  Permutation sorted_causes c
  ∧ StronglySorted (fun x y => (snd y <= snd x)%Z) sorted_causes
  ∧ (∀ v, List.filter (fun e => (snd e =? v)%Z) sorted_causes
          = List.filter (fun e => (snd e =? v)%Z) c)
  ∧ get_main_and_secondary_causes c
    = (nth 0 (map fst sorted_causes) "None", nth 1 (map fst sorted_causes) "None")
  ∧ (NoDup (counter_keys c) → tally_ok c →
     (positive_categories c = [] → fst (get_main_and_secondary_causes c) = "None")
     ∧ (length (positive_categories c) < 2 →
        snd (get_main_and_secondary_causes c) = "None"))
  ∧ get_main_and_secondary_causes [("environment", 3%Z); ("animal", 1%Z)]
    = ("environment", "animal")
  ∧ get_main_and_secondary_causes [("animal", 1%Z); ("environment", 3%Z)]
    = ("environment", "animal").
Proof.
  cbv zeta. split; [apply stable_sort_perm |].
  split; [apply most_common_sorted |].
  split; [apply most_common_stable |].
  split.
  { unfold get_main_and_secondary_causes.
    destruct (most_common c) as [|[k1 v1] [|[k2 v2] l]]; reflexivity. }
  split.
  { intros Hnd Hok.
    pose proof (positive_categories_length c Hnd Hok) as Hlen.
    pose proof (Permutation_length (stable_sort_perm (fun x y => (snd y <=? snd x)%Z) c))
      as Hsorted.
    fold (most_common c) in Hsorted. rewrite <- Hsorted in Hlen.
    unfold get_main_and_secondary_causes.
    destruct (most_common c) as [|[k1 v1] [|[k2 v2] l]]; simpl in *.
    - done.
    - split; [| done]. intros Hnone. rewrite Hnone in Hlen. discriminate.
    - split; [| lia]. intros Hnone. rewrite Hnone in Hlen. discriminate. }
  split; by vm_compute.
Qed.

Lemma main_and_secondary_by_count_then_insertion_witness :
  NoDup (counter_keys [("healthcare", 2%Z)])
  ∧ tally_ok [("healthcare", 2%Z)]
  ∧ length (positive_categories [("healthcare", 2%Z)]) < 2
  ∧ snd (get_main_and_secondary_causes [("healthcare", 2%Z)]) = "None".
Proof.
  assert (NoDup (counter_keys [("healthcare", 2%Z)])) as Hnd by apply NoDup_singleton.
  assert (tally_ok [("healthcare", 2%Z)]) as Hok.
  { repeat constructor; simpl; tauto. }
  assert (length (positive_categories [("healthcare", 2%Z)]) < 2) as Hfew
    by (vm_compute; lia).
  split; [exact Hnd |]. split; [exact Hok |]. split; [exact Hfew |].
  destruct (main_and_secondary_by_count_then_insertion [("healthcare", 2%Z)])
    as (_ & _ & _ & _ & Hnone & _).
  destruct (Hnone Hnd Hok) as [_ Hsecond]. exact (Hsecond Hfew).
Defined.

(** ** [extract_information]: contacts *)

Lemma valid_email_iff (email : string) :
  valid_email email = true
  ↔ has_char "?" email = false ∧ has_char "0" email = false ∧ has_char "_" email = false.
Proof.
  unfold valid_email, email_noise. cbn [existsb].
  destruct (has_char "?" email), (has_char "0" email), (has_char "_" email);
    simpl; intuition congruence.
Qed.

Lemma re_match_digit (phone : string) :
  re_match digit_pattern phone = true ↔ starts_with_digit phone.
Proof.
  unfold re_match, digit_pattern, starts_with_digit. simpl.
  destruct phone as [|c rest].
  - split; [done | intros (c & rest & H & _); discriminate].
  - destruct (is_digit c) eqn:Hc.
    + split; [intros _; by exists c, rest | done].
    + split; [done | intros (c' & rest' & H & Hc')]. injection H as -> ->. congruence.
Qed.

Lemma valid_phone_iff (phone : string) :
  valid_phone phone = true
  ↔ starts_with_digit phone
    ∧ (7 ≤ String.length (remove_char " " (remove_char "-" phone)))%nat.
Proof.
  unfold valid_phone. rewrite andb_true_iff, re_match_digit, Nat.leb_le. done.
Qed.

Lemma emails_extract (w : world) (html : string) (st : state) :
  emails (extract_information w html st)
  = emails st ∪ list_to_set (valid_emails_of (get_text w html)).
Proof. reflexivity. Qed.

Lemma phones_extract (w : world) (html : string) (st : state) :
  phones (extract_information w html st)
  = phones st ∪ list_to_set (valid_phones_of (get_text w html)).
Proof. reflexivity. Qed.

(** C5.  After [extract_information] the e-mail set holds what it held
    before together with exactly those candidates found by the e-mail
    pattern that contain none of the characters '?', '0' and '_'.  The
    string "a?b@example.com" fails the test and is not in the set obtained
    from a page that contains it; "jane.doe@example.com" passes and is. *)
Theorem email_added_iff_clean (w : world) (html : string) (st : state) (email : string) :
  (email ∈ emails (extract_information w html st)
   ↔ email ∈ emails st
     ∨ (In email (findall email_pattern (get_text w html))
        ∧ has_char "?" email = false
        ∧ has_char "0" email = false
        ∧ has_char "_" email = false))
  ∧ valid_email "a?b@example.com" = false
  ∧ valid_email "jane.doe@example.com" = true
  ∧ ("a?b@example.com"
       ∉ emails (extract_information (site [] []) "Write to a?b@example.com today"
                                     initial_state))
  ∧ ("jane.doe@example.com"
       ∈ emails (extract_information (site [] []) "Write to jane.doe@example.com today"
                                     initial_state)).
Proof.
  split.
  { rewrite emails_extract, elem_of_union, elem_of_list_to_set, list_elem_of_In.
    unfold valid_emails_of. rewrite filter_In, valid_email_iff. tauto. }
  split; [reflexivity |]. split; [reflexivity |].
  split.
  - rewrite emails_extract, elem_of_union, elem_of_list_to_set, list_elem_of_In.
    intros [H | H]; [by apply not_elem_of_empty in H |].
    vm_compute in H. destruct H as [H | []]. discriminate.
  - rewrite emails_extract, elem_of_union, elem_of_list_to_set, list_elem_of_In.
    right. vm_compute. by left.
Qed.

(** What is stored from the first page is the part of the string that the
    pattern can match. *)
Example email_after_question_mark :
  elements (emails (extract_information (site [] []) "Write to a?b@example.com today"
                                        initial_state))
  = ["b@example.com"].
Proof. by vm_compute. Qed.

(** C6, as stated: a candidate is added exactly when it starts with a digit
    and has at least seven digits.  The text "1.2.3.4" is one candidate of
    the phone pattern; it has four digits and it is added, because only
    hyphens and spaces are removed before the length is taken. *)
Lemma phone_digit_count_counterexample :
  findall phone_pattern "1.2.3.4" = ["1.2.3.4"]
  ∧ digit_count "1.2.3.4" = 4
  ∧ "1.2.3.4" ∈ phones (extract_information (site [] []) "1.2.3.4" initial_state)
  ∧ ¬ (∀ w html phone,
         In phone (findall phone_pattern (get_text w html)) →
         phone ∈ phones (extract_information w html initial_state)
         ↔ starts_with_digit phone ∧ (7 ≤ digit_count phone)%nat).
Proof.
  assert ("1.2.3.4" ∈ phones (extract_information (site [] []) "1.2.3.4" initial_state))
    as Hadded.
  { rewrite phones_extract, elem_of_union, elem_of_list_to_set, list_elem_of_In.
    right. vm_compute. by left. }
  split; [by vm_compute |]. split; [reflexivity |]. split; [exact Hadded |].
  intros H. specialize (H (site [] []) "1.2.3.4" "1.2.3.4").
  assert (In "1.2.3.4" (findall phone_pattern (get_text (site [] []) "1.2.3.4"))) as Hin
    by (vm_compute; by left).
  apply H in Hin. apply Hin in Hadded as [_ Hdigits].
  vm_compute in Hdigits. lia.
Qed.

(** C6, amended.  After [extract_information] the phone set holds what it
    held before together with exactly those candidates found by the phone
    pattern whose first character is a digit and whose length, once every
    hyphen and every space is removed, is at least 7.  "555-1234" passes
    the test and "12" does not. *)
Theorem phone_added_iff_long_enough (w : world) (html : string) (st : state) (phone : string) :
  (phone ∈ phones (extract_information w html st)
   ↔ phone ∈ phones st
     ∨ (In phone (findall phone_pattern (get_text w html))
        ∧ starts_with_digit phone
        ∧ (7 ≤ String.length (remove_char " " (remove_char "-" phone)))%nat))
  ∧ valid_phone "555-1234" = true
  ∧ valid_phone "12" = false
  ∧ "555-1234" ∈ phones (extract_information (site [] []) "555-1234" initial_state).
Proof.
  split.
  { rewrite phones_extract, elem_of_union, elem_of_list_to_set, list_elem_of_In.
    unfold valid_phones_of. rewrite filter_In, valid_phone_iff. tauto. }
  split; [reflexivity |]. split; [reflexivity |].
  rewrite phones_extract, elem_of_union, elem_of_list_to_set, list_elem_of_In.
  right. vm_compute. by left.
Qed.

(** ** [extract_information]: mission sentences *)

Section StripFacts.

Lemma rstrip_idemp (s : string) : rstrip (rstrip s) = rstrip s.
Proof.
  induction s as [|c s IH]; simpl; [done |].
  destruct (rstrip s) as [|d r] eqn:Hr.
  - destruct (is_space c) eqn:Hc; simpl; [done | by rewrite Hc].
  - simpl in *. by rewrite IH.
Qed.

Lemma lstrip_rstrip_lstrip (s : string) : lstrip (rstrip (lstrip s)) = rstrip (lstrip s).
Proof.
  induction s as [|c s IH]; simpl; [done |].
  destruct (is_space c) eqn:Hc; [done |].
  cbn [rstrip]. destruct (rstrip s); rewrite ?Hc; cbn [lstrip]; by rewrite Hc.
Qed.

Lemma strip_idemp (s : string) : strip (strip s) = strip s.
Proof. unfold strip. by rewrite lstrip_rstrip_lstrip, rstrip_idemp. Qed.

End StripFacts.

Lemma sorted_by_len_perm (l : list string) : Permutation (sorted_by_len l) l.
Proof. apply stable_sort_perm. Qed.

Lemma sorted_by_len_sorted (l : list string) :
  StronglySorted (fun x y => String.length x ≤ String.length y) (sorted_by_len l).
Proof.
  unfold sorted_by_len.
  apply (StronglySorted_weaken
           (fun x y => (String.length x <=? String.length y)%nat = true)).
  - intros x y H. by apply Nat.leb_le.
  - apply stable_sort_sorted.
    + intros x y H. apply Nat.leb_gt in H. apply Nat.leb_le. lia.
    + intros x y z Hxy Hyz. apply Nat.leb_le in Hxy, Hyz. apply Nat.leb_le. lia.
Qed.

Lemma append_capped_take (sentences ms : list string) :
  append_capped sentences ms = ms ++ take (3 - length ms) (map strip sentences).
Proof.
  revert ms. induction sentences as [|s rest IH]; intros ms; simpl.
  - by rewrite take_nil, app_nil_r.
  - destruct (length ms <? 3)%nat eqn:Hlen.
    + apply Nat.ltb_lt in Hlen. rewrite IH, length_app. simpl.
      destruct (3 - length ms) as [|n] eqn:Hn; [lia |].
      replace (3 - (length ms + 1)) with n by lia.
      simpl. by rewrite <- app_assoc.
    + apply Nat.ltb_ge in Hlen.
      replace (3 - length ms) with 0 by lia. by rewrite app_nil_r.
Qed.

Lemma append_capped_length (sentences ms : list string) :
  length ms ≤ 3 → length (append_capped sentences ms) ≤ 3.
Proof.
  intros Hms. rewrite append_capped_take, length_app, length_take. lia.
Qed.

Lemma valid_mission_sentences_stripped (text : string) :
  Forall (fun s => strip s = s) (valid_mission_sentences_of text).
Proof.
  unfold valid_mission_sentences_of. apply List.Forall_forall.
  intros s Hs. apply in_map_iff in Hs as (s0 & <- & _). apply strip_idemp.
Qed.

Lemma map_strip_stripped (l : list string) :
  Forall (fun s => strip s = s) l → map strip l = l.
Proof. induction 1 as [|s l Hs _ IH]; simpl; [done | by rewrite Hs, IH]. Qed.

Lemma mission_sentences_extract (w : world) (html : string) (st : state) :
  mission_sentences (extract_information w html st)
  = mission_sentences st
    ++ take (3 - length (mission_sentences st))
            (sorted_by_len (valid_mission_sentences_of (get_text w html))).
Proof.
  change (mission_sentences (extract_information w html st))
    with (append_capped (sorted_by_len (valid_mission_sentences_of (get_text w html)))
                        (mission_sentences st)).
  rewrite append_capped_take. f_equal. f_equal.
  apply map_strip_stripped.
  eapply Permutation_Forall; [symmetry; apply sorted_by_len_perm |].
  apply valid_mission_sentences_stripped.
Qed.

(** ** The tally of a text *)

Lemma count_text_step (text : string) (c : Counter) : tally_step c (count_text text c).
Proof.
  unfold count_text. apply tally_step_foldl. intros c' sentence _.
  destruct (filter_valid_sentence sentence default_min_length default_max_length);
    [apply classify_step | apply tally_step_refl].
Qed.

(** ** Jobs and requests *)

Section CrawlTrace.

Context (w : world).

Lemma scrape_single_page_skip (link base_url : string) (st : state) :
  link_is_taken link base_url st = false → scrape_single_page w link base_url st = st.
Proof. unfold scrape_single_page, link_is_taken. by intros ->. Qed.

Lemma scrape_single_page_trace (link base_url : string) (st : state) :
  let st' := scrape_single_page w link base_url st in
  submitted st' = submitted st
  ∧ requested st'
    = requested st ++ (if link_is_taken link base_url st then [link] else [])
  ∧ visited st'
    = (if link_is_taken link base_url st then visited st ∪ {[link]} else visited st).
Proof.
  unfold scrape_single_page, link_is_taken.
  destruct (negb (bool_decide (link ∈ visited st)) && str_in base_url link); simpl.
  - unfold fetch_page_content.
    destruct (http_get w link) as [[|c text]|]; simpl; done.
  - by rewrite app_nil_r.
Qed.

End CrawlTrace.

(** * Further properties of the functions *)

(** ** [filter_valid_sentence] and surrounding whitespace *)

Section StripContainment.

Lemma lower_char_space (c : ascii) : is_space (lower_char c) = is_space c.
Proof.
  unfold lower_char. destruct (is_upper c) eqn:Hup; [| done].
  destruct c as [[] [] [] [] [] [] [] []]; try discriminate Hup; reflexivity.
Qed.

Lemma startswith_lower_space (p : string) (c : ascii) (s : string) :
  starts_nonspace p = true → is_space c = true →
  startswith p (String (lower_char c) s) = false.
Proof.
  destruct p as [|a p]; simpl; [done |]. intros Ha Hc.
  destruct (Ascii.eqb a (lower_char c)) eqn:E; [| done].
  apply Ascii.eqb_eq in E as ->. rewrite lower_char_space, Hc in Ha. done.
Qed.

Lemma str_in_lower_lstrip (p s : string) :
  starts_nonspace p = true →
  str_in p (lower (lstrip s)) = str_in p (lower s).
Proof.
  intros Hp. induction s as [|c s IH]; simpl; [done |].
  destruct (is_space c) eqn:Hc; [| done].
  by rewrite IH, startswith_lower_space.
Qed.

Lemma ends_nonspace_nonempty (p : string) : ends_nonspace p = true → p ≠ "".
Proof. by destruct p. Qed.

Lemma startswith_nonempty_nil (p : string) : p ≠ "" → startswith p "" = false.
Proof. by destruct p. Qed.

Lemma startswith_lower_rstrip (s p : string) :
  ends_nonspace p = true →
  startswith p (lower (rstrip s)) = startswith p (lower s).
Proof.
  revert p. induction s as [|c s IH]; intros p Hp; [done |].
  destruct p as [|a p]; [done |].
  assert (p = "" ∧ is_space a = false ∨ ends_nonspace p = true) as Hcases.
  { destruct p; [left | by right]. split; [done |]. by apply negb_true_iff. }
  cbn [rstrip]. destruct (rstrip s) as [|d r] eqn:Hr.
  - destruct Hcases as [[-> Ha] | Hp'].
    + destruct (is_space c) eqn:Hc; simpl; [| done].
      destruct (Ascii.eqb a (lower_char c)) eqn:E; [| done].
      apply Ascii.eqb_eq in E as ->. by rewrite lower_char_space, Hc in Ha.
    + specialize (IH p Hp'). simpl in IH.
      rewrite startswith_nonempty_nil in IH by by apply ends_nonspace_nonempty.
      destruct (is_space c); simpl; rewrite <- IH.
      * by rewrite andb_false_r.
      * by rewrite startswith_nonempty_nil by by apply ends_nonspace_nonempty.
  - destruct Hcases as [[-> Ha] | Hp'].
    + simpl. by rewrite !andb_true_r.
    + specialize (IH p Hp'). simpl in *. by rewrite IH.
Qed.

Lemma str_in_lower_rstrip (p s : string) :
  ends_nonspace p = true →
  str_in p (lower (rstrip s)) = str_in p (lower s).
Proof.
  intros Hp. pose proof (ends_nonspace_nonempty p Hp) as Hne.
  induction s as [|c s IH]; [done |].
  change (str_in p (lower (String c s)))
    with (startswith p (lower (String c s)) || str_in p (lower s)).
  rewrite <- (startswith_lower_rstrip (String c s)) by done.
  rewrite <- IH. cbn [rstrip].
  destruct (rstrip s) as [|d r] eqn:Hr.
  - destruct (is_space c); simpl; rewrite !startswith_nonempty_nil by done.
    + done.
    + by rewrite !orb_false_r.
  - done.
Qed.

Lemma str_in_lower_strip (p s : string) :
  starts_nonspace p = true → ends_nonspace p = true →
  str_in p (lower (strip s)) = str_in p (lower s).
Proof.
  intros Hs He. unfold strip. by rewrite str_in_lower_rstrip, str_in_lower_lstrip.
Qed.

End StripContainment.

Lemma common_invalid_phrases_trimmed :
  Forall (fun phrase => starts_nonspace phrase = true ∧ ends_nonspace phrase = true)
         common_invalid_phrases.
Proof. repeat constructor. Qed.

Lemma blacklist_strip (sentence : string) :
  existsb (fun phrase => str_in phrase (lower (strip sentence))) common_invalid_phrases
  = existsb (fun phrase => str_in phrase (lower sentence)) common_invalid_phrases.
Proof.
  pose proof common_invalid_phrases_trimmed as Hall.
  induction Hall as [|phrase l [Hs He] _ IH]; simpl; [done |].
  by rewrite IH, str_in_lower_strip.
Qed.

(** X2.  The verdict of [filter_valid_sentence] does not depend on the
    whitespace around the sentence, whatever the bounds: a sentence is
    accepted exactly when its stripped form is. *)
Theorem filter_valid_sentence_strip (sentence : string) (min_length max_length : nat) :
  filter_valid_sentence (strip sentence) min_length max_length
  = filter_valid_sentence sentence min_length max_length.
Proof.
  unfold filter_valid_sentence.
  rewrite strip_idemp.
  rewrite blacklist_strip.
  reflexivity.
Qed.

(** ** What is stored as a mission sentence *)

(** A sentence as [extract_information] stores it: stripped, and accepted by
    the filter as it stands. *)
Lemma stored_sentence_valid (sentence : string) :
  filter_valid_sentence sentence default_min_length default_max_length = true →
  strip (strip sentence) = strip sentence
  ∧ filter_valid_sentence (strip sentence) default_min_length default_max_length = true.
Proof.
  intros Hvalid. split; [apply strip_idemp |].
  unfold filter_valid_sentence in *. by rewrite strip_idemp, blacklist_strip.
Qed.

Lemma valid_mission_sentences_valid (text : string) :
  Forall (fun m => strip m = m
                   ∧ filter_valid_sentence m default_min_length default_max_length = true)
         (valid_mission_sentences_of text).
Proof.
  unfold valid_mission_sentences_of. apply List.Forall_forall.
  intros m Hm. apply in_map_iff in Hm as (s & <- & Hs).
  apply filter_In in Hs as [_ Hs]. by apply stored_sentence_valid.
Qed.

Lemma mission_valid_extract (w : world) (html : string) (st : state) :
  Forall (fun m => strip m = m
                   ∧ filter_valid_sentence m default_min_length default_max_length = true)
         (mission_sentences st) →
  Forall (fun m => strip m = m
                   ∧ filter_valid_sentence m default_min_length default_max_length = true)
         (mission_sentences (extract_information w html st)).
Proof.
  intros Hst. rewrite mission_sentences_extract. apply Forall_app. split; [done |].
  apply Forall_take.
  eapply Permutation_Forall; [symmetry; apply sorted_by_len_perm |].
  apply valid_mission_sentences_valid.
Qed.

(** ** Counts add up *)

Lemma classify_over_hits (cats : list (string * list string)) (sentence : string)
    (c : Counter) (key : string) :
  counter_get (classify_over cats sentence c) key
  = (counter_get c key + hits_over cats sentence key)%Z.
Proof.
  unfold classify_over. revert c.
  induction cats as [|[category keywords] cats IH]; intros c; simpl; [lia |].
  rewrite IH, count_keywords_get. lia.
Qed.

Lemma count_text_hits (text : string) (c : Counter) (key : string) :
  counter_get (count_text text c) key = (counter_get c key + text_hits text key)%Z.
Proof.
  unfold count_text, text_hits. revert c.
  induction (split_on "." text) as [|sentence l IH]; intros c; simpl; [lia |].
  rewrite IH.
  destruct (filter_valid_sentence sentence default_min_length default_max_length);
    [| lia].
  unfold classify_cause_and_count, sentence_hits. rewrite classify_over_hits. lia.
Qed.

(** X4.  What a page adds to a count does not depend on the tally it is
    added to: each key goes up by the hits of the page's accepted sentences.
    So two pages extracted in either order give the same e-mails, the same
    phones and the same count for every key. *)
Theorem extract_information_commutes (w : world) (html1 html2 : string) (st : state) :
  let st12 := extract_information w html2 (extract_information w html1 st) in
  let st21 := extract_information w html1 (extract_information w html2 st) in
  (∀ key, counter_get (keyword_counter (extract_information w html1 st)) key
          = (counter_get (keyword_counter st) key + text_hits (get_text w html1) key)%Z)
  ∧ emails st12 = emails st21
  ∧ phones st12 = phones st21
  ∧ (∀ key, counter_get (keyword_counter st12) key = counter_get (keyword_counter st21) key).
Proof.
  intros st12 st21. subst st12 st21.
  assert (∀ html st0 key,
            counter_get (keyword_counter (extract_information w html st0)) key
            = (counter_get (keyword_counter st0) key + text_hits (get_text w html) key)%Z)
    as Hadd.
  { intros html st0 key.
    change (keyword_counter (extract_information w html st0))
      with (count_text (get_text w html) (keyword_counter st0)).
    apply count_text_hits. }
  split; [apply Hadd |].
  split.
  { rewrite !emails_extract, <- !union_assoc_L. f_equal. apply union_comm_L. }
  split.
  { rewrite !phones_extract, <- !union_assoc_L. f_equal. apply union_comm_L. }
  intros key. rewrite !Hadd. lia.
Qed.

(** The order of the keys, and with it the ranking of a tie, does depend on
    the order of the pages. *)
Example extract_information_key_order :
  let w := site [] [] in
  let animals := "We rescue animals every day." in
  let green := "We protect the environment too." in
  keyword_counter (extract_information w green (extract_information w animals initial_state))
  = [("animal", 1%Z); ("environment", 1%Z)]
  ∧ keyword_counter
      (extract_information w animals (extract_information w green initial_state))
    = [("environment", 1%Z); ("animal", 1%Z)].
Proof. by vm_compute. Qed.

(** ** The causes that are reported *)

Lemma counter_get_In (c : Counter) (k : string) (v : Z) :
  NoDup (counter_keys c) → In (k, v) c → counter_get c k = v.
Proof.
  unfold counter_keys. induction c as [|[k0 v0] c IH]; simpl; [done |].
  intros Hnd [Heq | Hin].
  - injection Heq as -> ->. by rewrite String.eqb_refl.
  - apply NoDup_cons in Hnd as [Hfresh Hnd].
    destruct (String.eqb k0 k) eqn:E; [| by apply IH].
    apply String.eqb_eq in E as ->. exfalso. apply Hfresh.
    apply list_elem_of_In. apply (in_map fst) in Hin. exact Hin.
Qed.

Lemma counter_keys_In (c : Counter) (k : string) :
  In k (counter_keys c) → ∃ v, In (k, v) c.
Proof.
  unfold counter_keys. intros H. apply in_map_iff in H as ([k' v] & Hk & Hin).
  simpl in Hk. subst k'. eauto.
Qed.

(** X5.  On a tally with unique keys, the primary cause is a key whose count
    no other key exceeds, and the secondary cause is another key, whose
    count no key but the primary one exceeds. *)
Theorem causes_have_largest_counts (c : Counter) (main_cause secondary_cause : string)
    (Hnd : NoDup (counter_keys c))
    (Hcauses : get_main_and_secondary_causes c = (main_cause, secondary_cause)) :
  (1 ≤ length c →
   In main_cause (counter_keys c)
   ∧ ∀ key, In key (counter_keys c) →
            (counter_get c key <= counter_get c main_cause)%Z)
  ∧ (2 ≤ length c →
     In secondary_cause (counter_keys c)
     ∧ secondary_cause ≠ main_cause
     ∧ ∀ key, In key (counter_keys c) → key ≠ main_cause →
              (counter_get c key <= counter_get c secondary_cause)%Z).
Proof.
  pose proof (stable_sort_perm (fun x y => (snd y <=? snd x)%Z) c) as Hperm.
  pose proof (most_common_sorted c) as Hsorted.
  fold (most_common c) in Hperm.
  unfold get_main_and_secondary_causes in Hcauses.
  assert (NoDup (map fst (most_common c))) as Hnd'.
  { apply NoDup_ListNoDup.
    eapply Permutation_NoDup; [| apply NoDup_ListNoDup; exact Hnd].
    unfold counter_keys. symmetry. by apply Permutation_map. }
  assert (∀ k v, In (k, v) (most_common c) → counter_get c k = v) as Hget.
  { intros k v Hin. apply counter_get_In; [done |].
    eapply Permutation_in; [exact Hperm | done]. }
  assert (∀ k, In k (counter_keys c) → ∃ v, In (k, v) (most_common c)) as Hkey.
  { intros k Hk. apply counter_keys_In in Hk as [v Hv]. exists v.
    eapply Permutation_in; [symmetry; exact Hperm | done]. }
  assert (∀ k v, In (k, v) (most_common c) → In k (counter_keys c)) as Hback.
  { intros k v Hin. unfold counter_keys.
    apply (in_map fst) in Hin. simpl in Hin.
    eapply Permutation_in; [apply Permutation_map; exact Hperm | done]. }
  pose proof (Permutation_length Hperm) as Hlen.
  destruct (most_common c) as [|[k1 v1] [|[k2 v2] l]]; simpl in *.
  - split; intros; lia.
  - injection Hcauses as <- <-. split; [| intros; lia]. intros _.
    split; [by eapply Hback; left |].
    intros key Hk. destruct (Hkey key Hk) as [v [Hv | []]].
    injection Hv as -> ->. lia.
  - injection Hcauses as <- <-.
    apply StronglySorted_inv in Hsorted as [Htail Hhead].
    apply StronglySorted_inv in Htail as [_ Hsecond].
    rewrite List.Forall_forall in Hhead, Hsecond.
    rewrite (Hget k1 v1) by (by left). rewrite (Hget k2 v2) by (right; by left).
    apply NoDup_cons in Hnd' as [Hfresh _].
    split; intros _.
    + split; [by eapply Hback; left |].
      intros key Hk. destruct (Hkey key Hk) as [v Hv].
      rewrite (Hget key v Hv). destruct Hv as [Hv | Hv].
      * injection Hv as -> ->. lia.
      * apply (Hhead _ Hv).
    + split; [eapply Hback; right; by left |].
      split.
      { intros ->. apply Hfresh. by left. }
      intros key Hk Hne. destruct (Hkey key Hk) as [v Hv].
      rewrite (Hget key v Hv). destruct Hv as [Hv | [Hv | Hv]].
      * injection Hv as -> ->. done.
      * injection Hv as -> ->. lia.
      * apply (Hsecond _ Hv).
Qed.

Lemma causes_have_largest_counts_witness :
  NoDup (counter_keys [("animal", 1%Z); ("education", 2%Z); ("healthcare", 1%Z)])
  ∧ get_main_and_secondary_causes [("animal", 1%Z); ("education", 2%Z); ("healthcare", 1%Z)]
    = ("education", "animal")
  ∧ (counter_get [("animal", 1%Z); ("education", 2%Z); ("healthcare", 1%Z)] "healthcare"
     <= counter_get [("animal", 1%Z); ("education", 2%Z); ("healthcare", 1%Z)] "animal")%Z.
Proof.
  assert (NoDup (counter_keys [("animal", 1%Z); ("education", 2%Z); ("healthcare", 1%Z)]))
    as Hnd.
  { apply (bool_decide_unpack _). by vm_compute. }
  assert (get_main_and_secondary_causes
            [("animal", 1%Z); ("education", 2%Z); ("healthcare", 1%Z)]
          = ("education", "animal")) as Hcauses by reflexivity.
  split; [exact Hnd |]. split; [exact Hcauses |].
  destruct (causes_have_largest_counts _ _ _ Hnd Hcauses) as [_ Hsecond].
  destruct Hsecond as (_ & _ & Hmax); [simpl; lia |].
  apply Hmax; [simpl; tauto | discriminate].
Defined.

(** ** A job run twice *)

(** X6.  Running the job of a link a second time changes nothing: the link
    is in the visited set after the first run, whether or not its page could
    be fetched. *)
Theorem scrape_single_page_idempotent (w : world) (link base_url : string) (st : state) :
  scrape_single_page w link base_url (scrape_single_page w link base_url st)
  = scrape_single_page w link base_url st.
Proof.
  destruct (link_is_taken link base_url st) eqn:Htaken.
  - apply scrape_single_page_skip.
    destruct (scrape_single_page_trace w link base_url st) as (_ & _ & Hv).
    rewrite Htaken in Hv. unfold link_is_taken. rewrite Hv.
    rewrite bool_decide_eq_true_2; [done |].
    apply elem_of_union_r. by apply elem_of_singleton.
  - by rewrite !(scrape_single_page_skip w link base_url st Htaken).
Qed.

(** ** Sums of hits, rows of a kind, results that are kept *)

Lemma sum_Z_app (l1 l2 : list Z) : sum_Z (l1 ++ l2) = (sum_Z l1 + sum_Z l2)%Z.
Proof. unfold sum_Z. induction l1 as [|x l1 IH]; simpl; lia. Qed.

Lemma hits_over_nonneg (cats : list (string * list string)) (sentence key : string) :
  (0 <= hits_over cats sentence key)%Z.
Proof.
  induction cats as [|[category keywords] cats IH]; simpl; [lia |].
  destruct (String.eqb category key); lia.
Qed.

Lemma text_hits_nonneg (text key : string) : (0 <= text_hits text key)%Z.
Proof.
  unfold text_hits. induction (split_on "." text) as [|sentence l IH]; simpl; [lia |].
  destruct (filter_valid_sentence sentence default_min_length default_max_length);
    [| lia].
  pose proof (hits_over_nonneg categories sentence key) as Hs.
  fold (sentence_hits sentence key) in Hs. lia.
Qed.

Lemma url_hits_nonneg (w : world) (key url : string) : (0 <= url_hits w key url)%Z.
Proof.
  unfold url_hits. destruct (fetched_text w url); [apply text_hits_nonneg | lia].
Qed.

Lemma filter_map_const {A B : Type} (p : B → bool) (f : A → B) (l : list A) (b : bool) :
  (∀ x, p (f x) = b) → List.filter p (map f l) = if b then map f l else [].
Proof.
  intros Hp. induction l as [|x l IH]; simpl; [by destruct b |].
  rewrite Hp, IH. by destruct b.
Qed.

Lemma results_kept_extract (w : world) (st0 : state) (html : string) (st : state) :
  results_kept st0 st → results_kept st0 (extract_information w html st).
Proof.
  intros (He & Hp & Hm). split; [| split].
  - rewrite emails_extract. by apply union_subseteq_l'.
  - rewrite phones_extract. by apply union_subseteq_l'.
  - rewrite mission_sentences_extract. by apply prefix_app_r.
Qed.

Lemma results_kept_refl (st : state) : results_kept st st.
Proof. by repeat split. Qed.

(** ** The matcher finds matches *)

Section MatcherSound.

Lemma append_cons (x : ascii) (a b : string) : String x a +:+ b = String x (a +:+ b).
Proof. reflexivity. Qed.

Lemma append_nil_l (a : string) : "" +:+ a = a.
Proof. reflexivity. Qed.

Lemma append_assoc (a b c : string) : (a +:+ b) +:+ c = a +:+ (b +:+ c).
Proof.
  induction a as [|x a IH]; [done |]. by rewrite !append_cons, IH.
Qed.

Lemma append_nil_r (a : string) : a +:+ "" = a.
Proof. induction a as [|x a IH]; [done |]. by rewrite append_cons, IH. Qed.

Lemma length_append (a b : string) :
  String.length (a +:+ b) = String.length a + String.length b.
Proof.
  induction a as [|x a IH]; [done |]. rewrite append_cons. simpl. by rewrite IH.
Qed.

Lemma last_char_append (prev : option ascii) (a b : string) :
  last_char prev (a +:+ b) = last_char (last_char prev a) b.
Proof.
  revert prev. induction a as [|x a IH]; intros prev; [done |].
  rewrite append_cons. simpl. apply IH.
Qed.

Lemma take_str_append (a b : string) : take_str (String.length a) (a +:+ b) = a.
Proof.
  induction a as [|x a IH]; [by destruct b |].
  rewrite append_cons. simpl. by rewrite IH.
Qed.

(** Whatever [rmatch] returns comes from its continuation, called on what is
    left after a match of the expression. *)
Lemma rmatch_sound (r : re) :
  ∀ (R : Type) (prev : option ascii) (s : string)
    (k : option ascii → string → option R) (x : R),
    rmatch r prev s k = Some x →
    ∃ m rest, s = m +:+ rest ∧ matches r prev m rest ∧ k (last_char prev m) rest = Some x.
Proof.
  induction r as [|p| |r1 IH1 r2 IH2|r1 IH1|r1 IH1]; intros R prev s k x H; simpl in H.
  - exists "", s. by repeat split.
  - destruct s as [|c s]; [done |]. destruct (p c) eqn:Hp; [| done].
    exists (String c ""), s. split; [done |]. split; [| done]. simpl. eauto.
  - destruct (xorb (is_word_opt prev) (is_word_opt (head_char s))) eqn:Hb; [| done].
    exists "", s. by repeat split.
  - apply IH1 in H as (m1 & rest1 & -> & Hm1 & H).
    apply IH2 in H as (m2 & rest & -> & Hm2 & H).
    exists (m1 +:+ m2), rest. split; [by rewrite append_assoc |].
    split; [| by rewrite last_char_append]. simpl. eauto.
  - destruct (rmatch r1 prev s k) as [y|] eqn:Hr.
    + injection H as ->. apply IH1 in Hr as (m & rest & -> & Hm & Hk).
      exists m, rest. split; [done |]. split; [by right | done].
    + exists "", s. split; [done |]. split; [by left | done].
  - revert H. generalize (String.length s) at 1. intros n. revert prev s.
    induction n as [|n IHn]; intros prev s H.
    + exists "", s. split; [done |]. split; [by exists [] | done].
    + destruct (rmatch r1 prev s _) as [y|] eqn:Hr.
      * injection H as ->. apply IH1 in Hr as (m1 & rest1 & -> & Hm1 & Hk).
        destruct (String.length rest1 <? String.length (m1 +:+ rest1)); [| done].
        apply IHn in Hk as (m' & rest & -> & (pieces & -> & Hpieces) & Hk).
        exists (m1 +:+ concat_str pieces), rest. split; [by rewrite append_assoc |].
        split; [| by rewrite last_char_append].
        exists (m1 :: pieces). split; [done |]. split; done.
      * exists "", s. split; [done |]. split; [by exists [] | done].
Qed.

(** The characters of a match are characters of the expression. *)
Lemma matches_alphabet (r : re) :
  ∀ prev m rest, matches r prev m rest → all_chars (alphabet r) m = true.
Proof.
  assert (∀ p q a, (∀ c, p c = true → q c = true) →
                   all_chars p a = true → all_chars q a = true) as Hmono.
  { intros p q a Hpq. induction a as [|c a IH]; simpl; [done |].
    rewrite !andb_true_iff. intros [Hc Ha]. auto. }
  assert (∀ p a b, all_chars p (a +:+ b) = all_chars p a && all_chars p b) as Happ.
  { intros p a b. induction a as [|c a IH]; [done |].
    rewrite append_cons. simpl. by rewrite IH, andb_assoc. }
  induction r as [|p| |r1 IH1 r2 IH2|r1 IH1|r1 IH1]; intros prev m rest H; simpl in H.
  - by subst.
  - destruct H as (c & -> & Hc). simpl. by rewrite Hc.
  - by destruct H as [-> _].
  - destruct H as (m1 & m2 & -> & H1 & H2). rewrite Happ. apply andb_true_iff. split.
    + eapply Hmono; [| eapply IH1; exact H1]. intros c Hc. simpl. by rewrite Hc.
    + eapply Hmono; [| eapply IH2; exact H2]. intros c Hc. simpl. rewrite Hc.
      by rewrite orb_true_r.
  - destruct H as [-> | H]; [done |]. by eapply IH1.
  - destruct H as (pieces & -> & H). revert prev H.
    induction pieces as [|piece pieces IHp]; intros prev H; simpl; [done |].
    destruct H as [H1 H2]. rewrite Happ. apply andb_true_iff. split.
    + by eapply IH1.
    + by eapply IHp.
Qed.

End MatcherSound.

Section FindallSound.

Lemma matches_min_len (r : re) :
  ∀ prev m rest, matches r prev m rest → min_len r ≤ String.length m.
Proof.
  induction r as [|p| |r1 IH1 r2 IH2|r1 IH1|r1 IH1]; intros prev m rest H; simpl in *;
    try lia.
  - destruct H as (c & -> & _). simpl. lia.
  - destruct H as (m1 & m2 & -> & H1 & H2). rewrite length_append.
    apply IH1 in H1. apply IH2 in H2. lia.
Qed.

(** Every string that [findall] returns is a match of the expression at the
    place where it stands in the subject. *)
Lemma findall_from_sound (r : re) (fuel : nat) :
  ∀ prev s x,
    In x (findall_from fuel r prev s) →
    ∃ pre post, s = pre +:+ x +:+ post ∧ matches r (last_char prev pre) x post.
Proof.
  induction fuel as [|fuel IH]; intros prev s x Hin; simpl in Hin; [done |].
  destruct (rmatch r prev s (fun _ rest => Some rest)) as [rest|] eqn:Hr.
  - apply rmatch_sound in Hr as (m & rest' & -> & Hm & Hk). injection Hk as ->.
    rewrite length_append in Hin.
    replace (String.length m + String.length rest - String.length rest)
      with (String.length m) in Hin by lia.
    rewrite take_str_append in Hin.
    assert (x = m ∨ ∃ prev' s', In x (findall_from fuel r prev' s')
                                ∧ ((m = "" ∧ ∃ c, rest = String c s' ∧ prev' = Some c)
                                   ∨ (s' = rest ∧ prev' = last_char prev m))) as Hcases.
    { destruct m as [|a m].
      - rewrite append_nil_l in Hin. destruct rest as [|c s'].
        + destruct Hin as [<- | []]. by left.
        + destruct Hin as [<- | Hin]; [by left |]. right.
          exists (Some c), s'. split; [done |]. left. eauto.
      - destruct Hin as [<- | Hin]; [by left |]. right.
        exists (last_char prev (String a m)), rest. split; [done |]. by right. }
    destruct Hcases as [-> | (prev' & s' & Hx & Hwhere)].
    + exists "", rest. by split.
    + apply IH in Hx as (pre & post & Hs' & Hx). subst s'.
      destruct Hwhere as [[-> (c & -> & ->)] | [<- ->]].
      * exists (String c pre), post. split; [done | exact Hx].
      * exists (m +:+ pre), post. split; [by rewrite append_assoc |].
        by rewrite last_char_append.
  - destruct s as [|c s]; [done |].
    apply IH in Hin as (pre & post & -> & Hx).
    exists (String c pre), post. split; [done | exact Hx].
Qed.

Lemma findall_sound (r : re) (s x : string) :
  In x (findall r s) →
  ∃ pre post, s = pre +:+ x +:+ post ∧ matches r (last_char None pre) x post.
Proof. apply findall_from_sound. Qed.

Lemma all_chars_impl (p q : ascii → bool) (a : string) :
  (∀ c, p c = true → q c = true) → all_chars p a = true → all_chars q a = true.
Proof.
  intros Hpq. induction a as [|c a IH]; simpl; [done |].
  rewrite !andb_true_iff. intros [Hc Ha]. auto.
Qed.

Lemma all_chars_append (p : ascii → bool) (a b : string) :
  all_chars p (a +:+ b) = all_chars p a && all_chars p b.
Proof.
  induction a as [|c a IH]; [done |].
  rewrite append_cons. simpl. by rewrite IH, andb_assoc.
Qed.

End FindallSound.

(** ** What the three patterns let through *)

Section PatternFacts.

Lemma matches_Seq (r1 r2 : re) (prev : option ascii) (m rest : string) :
  matches (Seq r1 r2) prev m rest →
  ∃ m1 m2, m = m1 +:+ m2
           ∧ matches r1 prev m1 (m2 +:+ rest)
           ∧ matches r2 (last_char prev m1) m2 rest.
Proof. intros H. exact H. Qed.

Lemma matches_WordB (prev : option ascii) (m rest : string) :
  matches WordB prev m rest → m = "".
Proof. by intros [-> _]. Qed.

Lemma matches_Chr (p : ascii → bool) (prev : option ascii) (m rest : string) :
  matches (Chr p) prev m rest → ∃ c, m = String c "" ∧ p c = true.
Proof. intros H. exact H. Qed.

(** A run of characters of one class: [c+], [c{lo,hi}], [c{lo,}]. *)
Lemma matches_run (r : re) (p : ascii → bool) (prev : option ascii) (m rest : string) :
  (∀ c, alphabet r c = true → p c = true) →
  matches r prev m rest →
  min_len r ≤ String.length m ∧ all_chars p m = true.
Proof.
  intros Hp H. split; [by eapply matches_min_len |].
  eapply all_chars_impl; [exact Hp |]. by eapply matches_alphabet.
Qed.

Lemma matches_LitI (p : string) :
  ∀ prev m rest, matches (LitI p) prev m rest → lower m = lower p.
Proof.
  induction p as [|c p IH]; intros prev m rest H; simpl in H.
  - by subst.
  - destruct H as (m1 & m2 & -> & (a & -> & Ha) & H2).
    apply Ascii.eqb_eq in Ha. apply IH in H2.
    rewrite append_cons, append_nil_l. simpl. by rewrite Ha, H2.
Qed.

Lemma digit_count_append (a b : string) :
  digit_count (a +:+ b) = digit_count a + digit_count b.
Proof.
  induction a as [|c a IH]; [done |]. rewrite append_cons. simpl. rewrite IH. lia.
Qed.

Lemma digit_count_digits (a : string) :
  all_chars is_digit a = true → digit_count a = String.length a.
Proof.
  induction a as [|c a IH]; simpl; [done |].
  rewrite andb_true_iff. intros [-> Ha]. by rewrite IH.
Qed.

Lemma has_char_append (c : ascii) (a b : string) :
  has_char c (a +:+ b) = has_char c a || has_char c b.
Proof.
  induction a as [|x a IH]; [done |].
  rewrite append_cons. simpl. by rewrite IH, orb_assoc.
Qed.

End PatternFacts.

(** The side condition of [matches_run]. *)
Ltac solve_alphabet :=
  let c := fresh "c" in
  let Hc := fresh "Hc" in
  intros c Hc;
  cbn [alphabet Plus AtLeast Exactly Rep UpTo Nat.sub] in Hc;
  repeat match type of Hc with
         | (_ || _) = true => apply orb_true_iff in Hc as [Hc | Hc]
         end;
  try discriminate;
  cbn beta; rewrite ?Hc, ?orb_true_r; reflexivity.

(** X13.  Every e-mail that [extract_information] takes from a page occurs
    in the text of the page and has the shape local@domain.tld: a local
    part of at least one character among letters, digits and [._%+-], a
    domain of at least one character among letters, digits and [.-], and
    after the last separating dot at least two letters; and it has none of
    the characters [?], [0] and [_]. *)
Theorem stored_email_shape (text email : string)
    (Hin : In email (valid_emails_of text)) :
  (∃ pre post, text = pre +:+ email +:+ post)
  ∧ (∃ local domain tld,
       email = local +:+ "@" +:+ domain +:+ "." +:+ tld
       ∧ 1 ≤ String.length local
       ∧ all_chars (fun c => is_alnum c || one_of "._%+-" c) local = true
       ∧ 1 ≤ String.length domain
       ∧ all_chars (fun c => is_alnum c || one_of ".-" c) domain = true
       ∧ 2 ≤ String.length tld
       ∧ all_chars (fun c => is_upper c || is_lower c) tld = true)
  ∧ has_char "?" email = false
  ∧ has_char "0" email = false
  ∧ has_char "_" email = false.
Proof.
  unfold valid_emails_of in Hin. apply filter_In in Hin as [Hin Hvalid].
  apply findall_sound in Hin as (pre & post & -> & H).
  split; [eauto |]. split; [| by apply valid_email_iff].
  unfold email_pattern, seqs in H.
  apply matches_Seq in H as (m0 & m & -> & H0 & H). apply matches_WordB in H0 as ->.
  apply matches_Seq in H as (local & m' & -> & Hlocal & H).
  apply matches_Seq in H as (at_sign & m & -> & Hat & H).
  apply matches_Seq in H as (domain & m' & -> & Hdomain & H).
  apply matches_Seq in H as (dot & m & -> & Hdot & H).
  apply matches_Seq in H as (tld & m' & -> & Htld & H). apply matches_WordB in H as ->.
  apply matches_Chr in Hat as (c & -> & Hc). apply Ascii.eqb_eq in Hc as <-.
  apply matches_Chr in Hdot as (c & -> & Hc). apply Ascii.eqb_eq in Hc as <-.
  apply (matches_run _ (fun c => is_alnum c || one_of "._%+-" c)) in Hlocal
    as [Hlocal1 Hlocal2];
    [| solve_alphabet].
  apply (matches_run _ (fun c => is_alnum c || one_of ".-" c)) in Hdomain
    as [Hdomain1 Hdomain2];
    [| solve_alphabet].
  apply (matches_run _ (fun c => is_upper c || is_lower c)) in Htld as [Htld1 Htld2];
    [| solve_alphabet].
  exists local, domain, tld. rewrite append_nil_l, append_nil_r.
  by repeat split.
Qed.

Lemma stored_email_shape_witness :
  In "jane.doe@example.com" (valid_emails_of "Write to jane.doe@example.com today")
  ∧ ∃ pre post,
      "Write to jane.doe@example.com today" = pre +:+ "jane.doe@example.com" +:+ post.
Proof.
  assert (In "jane.doe@example.com" (valid_emails_of "Write to jane.doe@example.com today"))
    as Hin by (vm_compute; by left).
  split; [exact Hin |].
  apply (stored_email_shape "Write to jane.doe@example.com today" "jane.doe@example.com" Hin).
Defined.

(** X14.  Every phone that [extract_information] takes from a page occurs
    in the text of the page, is made of digits, the separators [-], [.] and
    whitespace, parentheses and [+] only, starts with a digit, has at least
    three digits, and has at least seven characters that are neither a
    hyphen nor a space. *)
Theorem stored_phone_shape (text phone : string)
    (Hin : In phone (valid_phones_of text)) :
  (∃ pre post, text = pre +:+ phone +:+ post)
  ∧ all_chars (fun c => is_digit c || phone_sep c || one_of "()+" c) phone = true
  ∧ starts_with_digit phone
  ∧ 3 ≤ digit_count phone
  ∧ 7 ≤ String.length (remove_char " " (remove_char "-" phone)).
Proof.
  unfold valid_phones_of in Hin. apply filter_In in Hin as [Hin Hvalid].
  apply valid_phone_iff in Hvalid as [Hdigit Hlong].
  apply findall_sound in Hin as (pre & post & -> & H).
  split; [eauto |]. split; [| split; [done |]; split; [| done]].
  - apply (matches_run _ (fun c => is_digit c || phone_sep c || one_of "()+" c)) in H
      as [_ H]; [done |].
    intros c Hc. unfold phone_pattern in Hc.
    cbn [alphabet seqs Rep Exactly UpTo Nat.sub] in Hc.
    repeat match type of Hc with
           | (_ || _) = true => apply orb_true_iff in Hc as [Hc | Hc]
           end;
      try discriminate;
      try (rewrite Hc; rewrite ?orb_true_r; reflexivity).
    + apply Ascii.eqb_eq in Hc as <-. reflexivity.
    + apply Ascii.eqb_eq in Hc as <-. reflexivity.
    + apply Ascii.eqb_eq in Hc as <-. reflexivity.
  - unfold phone_pattern, seqs in H.
    apply matches_Seq in H as (m0 & m & -> & _ & H).
    apply matches_Seq in H as (m1 & m' & -> & _ & H).
    apply matches_Seq in H as (m2 & m & -> & _ & H).
    apply matches_Seq in H as (m3 & m' & -> & _ & H).
    apply matches_Seq in H as (g1 & m & -> & Hg1 & H).
    apply matches_Seq in H as (s1 & m' & -> & _ & H).
    apply matches_Seq in H as (g2 & m & -> & Hg2 & H).
    apply matches_Seq in H as (s2 & m' & -> & _ & H).
    apply matches_Seq in H as (g3 & m & -> & Hg3 & _).
    apply (matches_run _ is_digit) in Hg1 as [Hg1 Hd1]; [| solve_alphabet].
    apply (matches_run _ is_digit) in Hg2 as [Hg2 Hd2]; [| solve_alphabet].
    apply (matches_run _ is_digit) in Hg3 as [Hg3 Hd3]; [| solve_alphabet].
    apply digit_count_digits in Hd1, Hd2, Hd3.
    rewrite !digit_count_append. simpl in Hg1, Hg2, Hg3. lia.
Qed.

Lemma stored_phone_shape_witness :
  In "555-1234" (valid_phones_of "Call: 555-1234 today")
  ∧ 3 ≤ digit_count "555-1234".
Proof.
  assert (In "555-1234" (valid_phones_of "Call: 555-1234 today")) as Hin
    by (vm_compute; by left).
  split; [exact Hin |].
  apply (stored_phone_shape "Call: 555-1234 today" "555-1234" Hin).
Defined.

(** ** What is reported as a mission sentence *)

Section MissionFacts.

Lemma terminal_not_space (c : ascii) : is_terminal c = true → is_space c = false.
Proof.
  destruct c as [[] [] [] [] [] [] [] []]; intros H; try discriminate H; reflexivity.
Qed.

Lemma last_char_nonempty (prev prev' : option ascii) (c : ascii) (s : string) :
  last_char prev (String c s) = last_char prev' (String c s).
Proof. reflexivity. Qed.

Lemma ends_with_terminal_cons (c d : ascii) (s : string) :
  ends_with_terminal (String c (String d s)) = ends_with_terminal (String d s).
Proof. reflexivity. Qed.

Lemma rstrip_terminal (s : string) : ends_with_terminal s = true → rstrip s = s.
Proof.
  induction s as [|c s IH]; [done |]. destruct s as [|d s].
  - unfold ends_with_terminal. simpl. intros Hc.
    by rewrite (terminal_not_space c Hc).
  - rewrite ends_with_terminal_cons. intros H. specialize (IH H).
    cbn [rstrip]. cbn [rstrip] in IH. by rewrite IH.
Qed.

Lemma lstrip_terminal (s : string) :
  ends_with_terminal s = true → ends_with_terminal (lstrip s) = true.
Proof.
  induction s as [|c s IH]; [done |]. simpl.
  destruct (is_space c) eqn:Hc; [| done].
  destruct s as [|d s].
  - unfold ends_with_terminal. simpl. intros Ht.
    apply terminal_not_space in Ht. congruence.
  - rewrite ends_with_terminal_cons. exact IH.
Qed.

Lemma strip_terminal (s : string) :
  ends_with_terminal s = true → ends_with_terminal (strip s) = true.
Proof.
  intros H. apply lstrip_terminal in H. unfold strip. by rewrite rstrip_terminal.
Qed.

(** A match of the mission pattern has the word in it and a terminal
    character at its end. *)
Lemma mission_match (prev : option ascii) (m rest : string) :
  matches mission_pattern prev m rest →
  str_in "mission" (lower m) = true ∧ ends_with_terminal m = true.
Proof.
  unfold mission_pattern, seqs. intros H.
  apply matches_Seq in H as (before & m1 & -> & _ & H).
  apply matches_Seq in H as (b1 & m2 & -> & Hb1 & H). apply matches_WordB in Hb1 as ->.
  apply matches_Seq in H as (word & m3 & -> & Hword & H).
  apply matches_Seq in H as (b2 & m4 & -> & Hb2 & H). apply matches_WordB in Hb2 as ->.
  apply matches_Seq in H as (after & m5 & -> & _ & H).
  apply matches_Chr in H as (c & -> & Hc).
  apply matches_LitI in Hword. rewrite !append_nil_l. split.
  - apply str_in_app. exists (lower before), (lower (after +:+ String c "")).
    by rewrite !lower_app, Hword.
  - unfold ends_with_terminal. rewrite !last_char_append. simpl. exact Hc.
Qed.

End MissionFacts.

(** ** Short pages *)

Section ShortText.

Lemma lstrip_length (s : string) : String.length (lstrip s) ≤ String.length s.
Proof.
  induction s as [|c s IH]; simpl; [done |]. destruct (is_space c); simpl; lia.
Qed.

Lemma rstrip_length (s : string) : String.length (rstrip s) ≤ String.length s.
Proof.
  induction s as [|c s IH]; simpl; [done |].
  destruct (rstrip s) as [|d r]; [destruct (is_space c) |]; simpl in *; lia.
Qed.

Lemma strip_length (s : string) : String.length (strip s) ≤ String.length s.
Proof.
  unfold strip. etrans; [apply rstrip_length | apply lstrip_length].
Qed.

Lemma split_on_length (c : ascii) (s : string) :
  Forall (fun piece => String.length piece ≤ String.length s) (split_on c s).
Proof.
  induction s as [|a s IH]; simpl; [constructor; [simpl; lia | constructor] |].
  destruct (Ascii.eqb a c).
  - constructor; [simpl; lia |].
    eapply Forall_impl; [exact IH |]. simpl. intros piece Hp. lia.
  - destruct (split_on c s) as [|piece rest]; simpl.
    { constructor; [simpl; lia | constructor]. }
    apply Forall_cons in IH as [Hpiece Hrest]. constructor; [simpl; lia |].
    eapply Forall_impl; [exact Hrest |]. simpl. intros p Hp. lia.
Qed.

Lemma filter_rejects_short (sentence : string) :
  String.length sentence < 10 →
  filter_valid_sentence sentence default_min_length default_max_length = false.
Proof.
  intros Hshort. unfold filter_valid_sentence, default_min_length.
  pose proof (strip_length sentence) as Hstrip.
  assert ((String.length (strip sentence) <? 10) = true) as ->
    by (apply Nat.ltb_lt; lia).
  done.
Qed.

Lemma findall_length (r : re) (s x : string) :
  In x (findall r s) → min_len r ≤ String.length x ≤ String.length s.
Proof.
  intros Hin. apply findall_sound in Hin as (pre & post & -> & H).
  apply matches_min_len in H. rewrite !length_append. lia.
Qed.

Lemma remove_char_length (c : ascii) (s : string) :
  String.length (remove_char c s) ≤ String.length s.
Proof.
  induction s as [|a s IH]; simpl; [done |]. destruct (Ascii.eqb a c); simpl; lia.
Qed.

Lemma filter_nil_all {A : Type} (p : A → bool) (l : list A) :
  (∀ x, In x l → p x = false) → List.filter p l = [].
Proof.
  induction l as [|x l IH]; simpl; intros Hp; [done |].
  rewrite (Hp x) by (by left). apply IH. intros y Hy. apply Hp. by right.
Qed.

End ShortText.

(** X16.  A page whose text has fewer than 6 characters gives no e-mail,
    one with fewer than 7 no phone, and one with fewer than 10 neither a
    mission sentence nor a keyword count; in particular a page with an
    empty text leaves everything that was collected as it is. *)
Theorem short_page_adds_nothing (w : world) (html : string) (st : state) :
  let st' := extract_information w html st in
  let n := String.length (get_text w html) in
  (n < 6 → emails st' = emails st)
  ∧ (n < 7 → phones st' = phones st)
  ∧ (n < 10 → mission_sentences st' = mission_sentences st
              ∧ keyword_counter st' = keyword_counter st).
Proof.
  intros st' n. subst st' n. split; [| split].
  - intros Hshort. rewrite emails_extract. unfold valid_emails_of.
    rewrite filter_nil_all; [by rewrite list_to_set_nil, union_empty_r_L |].
    intros email Hin. apply findall_length in Hin.
    change (min_len email_pattern) with 6 in Hin. lia.
  - intros Hshort. rewrite phones_extract. unfold valid_phones_of.
    rewrite filter_nil_all; [by rewrite list_to_set_nil, union_empty_r_L |].
    intros phone Hin. apply findall_length in Hin as [_ Hlen].
    destruct (valid_phone phone) eqn:Hvalid; [| done].
    apply valid_phone_iff in Hvalid as [_ Hlong].
    pose proof (remove_char_length " " (remove_char "-" phone)).
    pose proof (remove_char_length "-" phone). lia.
  - intros Hshort. split.
    + rewrite mission_sentences_extract. unfold valid_mission_sentences_of.
      rewrite filter_nil_all; [simpl; by rewrite take_nil, app_nil_r |].
      intros sentence Hin. apply findall_length in Hin as [_ Hlen].
      apply filter_rejects_short. lia.
    + change (keyword_counter (extract_information w html st))
        with (count_text (get_text w html) (keyword_counter st)).
      unfold count_text.
      pose proof (split_on_length "." (get_text w html)) as Hpieces.
      revert Hpieces. generalize (keyword_counter st).
      induction (split_on "." (get_text w html)) as [|piece pieces IH];
        intros c Hpieces; simpl; [done |].
      apply Forall_cons in Hpieces as [Hpiece Hpieces].
      rewrite filter_rejects_short by lia. by apply IH.
Qed.

Lemma short_page_adds_nothing_witness :
  String.length (get_text (site [] []) "") < 6
  ∧ emails (extract_information (site [] []) "" one_animal) = emails one_animal.
Proof.
  assert (String.length (get_text (site [] []) "") < 6) as Hshort by (simpl; lia).
  split; [exact Hshort |].
  destruct (short_page_adds_nothing (site [] []) "" one_animal) as [Hemails _].
  exact (Hemails Hshort).
Defined.

(** ** The order of the keys *)

Section KeyOrder.

Lemma in_keys_app (key : string) (c1 c2 : Counter) :
  in_keys key (c1 ++ c2) = in_keys key c1 || in_keys key c2.
Proof. unfold in_keys, counter_keys. by rewrite map_app, existsb_app. Qed.

Lemma counter_set_keys (c : Counter) (k : string) (v : Z) :
  counter_keys (counter_set c k v) = counter_keys c ++ (if in_keys k c then [] else [k]).
Proof.
  unfold in_keys, counter_keys. induction c as [|[k0 v0] c IH]; simpl; [done |].
  rewrite (String.eqb_sym k k0). destruct (String.eqb k0 k) eqn:E; simpl.
  - by rewrite app_nil_r.
  - by rewrite IH.
Qed.

Lemma in_keys_set (c : Counter) (k key : string) (v : Z) :
  in_keys key (counter_set c k v) = in_keys key c || String.eqb key k.
Proof.
  unfold in_keys at 1. rewrite counter_set_keys, existsb_app. fold (in_keys key c).
  destruct (in_keys k c) eqn:Hk; simpl; [| by rewrite orb_false_r].
  rewrite orb_false_r. destruct (String.eqb key k) eqn:E; [| by rewrite orb_false_r].
  apply String.eqb_eq in E as ->. by rewrite Hk.
Qed.

Lemma count_keywords_keys (sentence category : string) (keywords : list string)
    (c : Counter) :
  counter_keys (count_keywords sentence category keywords c)
  = counter_keys c
    ++ (if in_keys category c || (trigger_hits sentence keywords =? 0)
        then [] else [category]).
Proof.
  unfold count_keywords, trigger_hits. revert c.
  induction keywords as [|keyword keywords IH]; intros c; simpl.
  - by rewrite orb_true_r, app_nil_r.
  - rewrite IH. destruct (str_in keyword (lower sentence)); simpl; [| done].
    unfold counter_incr. rewrite in_keys_set, String.eqb_refl, orb_true_r. simpl.
    rewrite counter_set_keys, app_nil_r, orb_false_r. done.
Qed.

Lemma in_keys_count_keywords (sentence category key : string) (keywords : list string)
    (c : Counter) :
  key ≠ category →
  in_keys key (count_keywords sentence category keywords c) = in_keys key c.
Proof.
  intros Hne. unfold in_keys at 1. rewrite count_keywords_keys, existsb_app.
  fold (in_keys key c).
  destruct (in_keys category c || (trigger_hits sentence keywords =? 0)); simpl;
    [by rewrite orb_false_r |].
  apply String.eqb_neq in Hne. by rewrite Hne, !orb_false_r.
Qed.

Lemma hits_over_absent (cats : list (string * list string)) (sentence key : string) :
  ¬ In key (map fst cats) → hits_over cats sentence key = 0%Z.
Proof.
  induction cats as [|[category keywords] cats IH]; simpl; [done |].
  intros Hk. rewrite IH by tauto.
  destruct (String.eqb category key) eqn:E; [| done].
  apply String.eqb_eq in E. tauto.
Qed.

Lemma classify_over_keys (cats : list (string * list string)) (sentence : string)
    (c : Counter) :
  NoDup (map fst cats) →
  counter_keys (classify_over cats sentence c)
  = counter_keys c
    ++ List.filter (fun name => negb (in_keys name c)
                                && (0 <? hits_over cats sentence name)%Z)
                   (map fst cats).
Proof.
  revert c. induction cats as [|[category keywords] cats IH]; intros c Hnd.
  - simpl. by rewrite app_nil_r.
  - apply NoDup_cons in Hnd as [Hfresh Hnd]. rewrite list_elem_of_In in Hfresh.
    change (classify_over ((category, keywords) :: cats) sentence c)
      with (classify_over cats sentence (count_keywords sentence category keywords c)).
    rewrite IH by done. rewrite count_keywords_keys, <- app_assoc. f_equal.
    cbn [map fst List.filter hits_over foldr].
    fold (hits_over cats sentence category).
    rewrite String.eqb_refl, (hits_over_absent cats sentence category Hfresh).
    assert (List.filter
              (fun name =>
                 negb (in_keys name (count_keywords sentence category keywords c))
                 && (0 <? hits_over cats sentence name)%Z) (map fst cats)
            = List.filter
                (fun name =>
                   negb (in_keys name c)
                   && (0 <? hits_over ((category, keywords) :: cats) sentence name)%Z)
                (map fst cats)) as ->.
    { apply filter_ext_in. intros name Hname.
      assert (name ≠ category) as Hne by (intros ->; done).
      rewrite in_keys_count_keywords by done. f_equal. simpl.
      apply not_eq_sym, String.eqb_neq in Hne. by rewrite Hne. }
    destruct (in_keys category c); simpl; [done |].
    destruct (trigger_hits sentence keywords) as [|n]; [done |].
    replace (0 <? Z.of_nat (S n) + 0)%Z with true by (symmetry; apply Z.ltb_lt; lia).
    done.
Qed.

End KeyOrder.

(** X17.  [classify_cause_and_count] leaves the keys of the tally where they
    are and puts the categories that the sentence brings in for the first
    time behind them, in the order in which the taxonomy declares them.  So
    from the empty tally the keys of one sentence are in declaration
    order. *)
Theorem classify_appends_in_declaration_order (sentence : string) (c : Counter) :
  counter_keys (classify_cause_and_count sentence c)
  = counter_keys c
    ++ List.filter (fun name => negb (in_keys name c) && (0 <? sentence_hits sentence name)%Z)
                   category_names
  ∧ counter_keys (classify_cause_and_count sentence [])
    = List.filter (fun name => (0 <? sentence_hits sentence name)%Z) category_names.
Proof.
  assert (∀ c0, counter_keys (classify_cause_and_count sentence c0)
                = counter_keys c0
                  ++ List.filter (fun name => negb (in_keys name c0)
                                              && (0 <? sentence_hits sentence name)%Z)
                                 category_names) as Hkeys.
  { intros c0. unfold classify_cause_and_count, sentence_hits, category_names.
    apply classify_over_keys. apply category_names_NoDup. }
  split; [apply Hkeys |].
  rewrite Hkeys. simpl counter_keys. rewrite app_nil_l.
  apply filter_ext. intros name. reflexivity.
Qed.

(** * The crawl *)

(** ** Sets in the order of their iteration *)

Lemma iterate_perm (w : world) (s : gset string) : iterate w s ≡ₚ elements s.
Proof. apply stable_sort_perm. Qed.

Lemma iterate_In (w : world) (s : gset string) (x : string) : In x (iterate w s) ↔ x ∈ s.
Proof. by rewrite <- list_elem_of_In, iterate_perm, elem_of_elements. Qed.

Lemma iterate_NoDup (w : world) (s : gset string) : NoDup (iterate w s).
Proof. rewrite iterate_perm. apply NoDup_elements. Qed.

(** ** [find_links] *)

(** The links of a page are the joins of its [href]s that do not start with
    "#", when [urljoin] accepts them all. *)
Lemma find_links_Some (w : world) (html base_url : string) (links : gset string) :
  find_links w html base_url = Some links →
  ∀ url, url ∈ links
         ↔ ∃ href, In href (hrefs w html) ∧ startswith "#" href = false
                   ∧ urljoin w base_url href = Some url.
Proof.
  unfold find_links.
  destruct (mapM _ _) as [full_links|] eqn:Hjoin; [| done].
  intros [= <-] url. apply mapM_Some in Hjoin.
  rewrite elem_of_list_to_set. split.
  - intros Hurl. apply list_elem_of_lookup in Hurl as [i Hi].
    destruct (Forall2_lookup_r _ _ _ _ _ Hjoin Hi) as (href & Hhref & Hurl).
    exists href. apply list_elem_of_lookup_2, list_elem_of_In, filter_In in Hhref
      as [Hhref Hanchor].
    apply iterate_In, elem_of_list_to_set, list_elem_of_In in Hhref.
    apply negb_true_iff in Hanchor. done.
  - intros (href & Hhref & Hanchor & Hurl).
    assert (href ∈ List.filter (fun link => negb (startswith "#" link))
                               (iterate w (list_to_set (hrefs w html)))) as Hin.
    { apply list_elem_of_In, filter_In. split; [| by apply negb_true_iff].
      by apply iterate_In, elem_of_list_to_set, list_elem_of_In. }
    apply list_elem_of_lookup in Hin as [i Hi].
    destruct (Forall2_lookup_l _ _ _ _ _ Hjoin Hi) as (url' & Hurl' & Heq).
    rewrite Hurl in Heq. injection Heq as <-.
    by eapply list_elem_of_lookup_2.
Qed.

(** [find_links] raises exactly when [urljoin] refuses one of them. *)
Lemma find_links_None (w : world) (html base_url : string) :
  find_links w html base_url = None
  ↔ ∃ href, In href (hrefs w html) ∧ startswith "#" href = false
            ∧ urljoin w base_url href = None.
Proof.
  unfold find_links.
  destruct (mapM _ _) as [full_links|] eqn:Hjoin.
  - split; [done |]. intros (href & Hhref & Hanchor & Hurl).
    apply mapM_Some in Hjoin.
    assert (href ∈ List.filter (fun link => negb (startswith "#" link))
                               (iterate w (list_to_set (hrefs w html)))) as Hin.
    { apply list_elem_of_In, filter_In. split; [| by apply negb_true_iff].
      by apply iterate_In, elem_of_list_to_set, list_elem_of_In. }
    apply list_elem_of_lookup in Hin as [i Hi].
    destruct (Forall2_lookup_l _ _ _ _ _ Hjoin Hi) as (url' & _ & Heq). congruence.
  - split; [intros _ | done]. apply mapM_None, Exists_exists in Hjoin
      as (href & Hhref & Hurl).
    exists href. apply list_elem_of_In, filter_In in Hhref as [Hhref Hanchor].
    apply iterate_In, elem_of_list_to_set, list_elem_of_In in Hhref.
    apply negb_true_iff in Hanchor. done.
Qed.

(** ** Steps of the pool *)

Section PoolSteps.

Context (w : world) (base_url : string).

Lemma step_at_queue (link : string) (p : pool) :
  queue (step_at w base_url link p) = queue p.
Proof.
  unfold step_at. destruct (jobs p !! link) as [j|]; [| done].
  by destruct (job_step w base_url link j (shared p)).
Qed.

Lemma step_at_jobs_other (link other : string) (p : pool) :
  other ≠ link → jobs (step_at w base_url link p) !! other = jobs p !! other.
Proof.
  intros Hne. unfold step_at. destruct (jobs p !! link) as [j|]; [| done].
  destruct (job_step w base_url link j (shared p)). simpl.
  by rewrite lookup_insert_ne.
Qed.

Lemma steps_at_queue (link : string) (n : nat) (p : pool) :
  queue (steps_at w base_url link n p) = queue p.
Proof.
  revert p. induction n as [|n IH]; intros p; simpl; [done |].
  by rewrite IH, step_at_queue.
Qed.

(** What holds at the start and is kept by every step of every job holds
    after any schedule and after the wait for the jobs. *)
Lemma pool_induction (Inv : pool → Prop) :
  (∀ link p, Inv p → Inv (step_at w base_url link p)) →
  ∀ p, Inv p →
       (∀ schedule, Inv (run_schedule w base_url schedule p))
       ∧ Inv (join w base_url p).
Proof.
  intros Hstep.
  assert (∀ link n p, Inv p → Inv (steps_at w base_url link n p)) as Hsteps.
  { intros link n. induction n as [|n IH]; intros p Hp; simpl; auto. }
  intros p Hp. split.
  - intros schedule. unfold run_schedule. revert p Hp.
    induction schedule as [|link schedule IH]; intros p Hp; simpl; [done |].
    apply IH. unfold pool_step. destruct (may_step link p); auto.
  - unfold join. generalize (queue p). intros q. revert p Hp.
    induction q as [|link q IH]; intros p Hp; simpl; [done |].
    apply IH. unfold finish_job. auto.
Qed.

Lemma run_schedule_app (schedule more : list string) (p : pool) :
  run_schedule w base_url (schedule ++ more) p
  = run_schedule w base_url more (run_schedule w base_url schedule p).
Proof. unfold run_schedule. apply foldl_app. Qed.

Lemma run_schedule_queue (schedule : list string) (p : pool) :
  queue (run_schedule w base_url schedule p) = queue p.
Proof.
  apply (pool_induction (fun p' => queue p' = queue p)); [| done].
  intros link p' <-. apply step_at_queue.
Qed.

Lemma join_queue (p : pool) : queue (join w base_url p) = queue p.
Proof.
  apply (pool_induction (fun p' => queue p' = queue p)); [| done].
  intros link p' <-. apply step_at_queue.
Qed.

(** *** Every job comes to its end *)

Lemma count_next_fuel (increments : list string) (link : string) :
  job_fuel w link (count_next increments) = 2 * length increments.
Proof. destruct increments; simpl; lia. Qed.

Lemma mission_next_fuel (sentences : list string) (text link : string) :
  job_fuel w link (mission_next sentences text)
  = 2 * length sentences + 2 * length (text_increments text).
Proof. destruct sentences; simpl; [apply count_next_fuel | lia]. Qed.

Lemma job_step_fuel (link : string) (j : job) (st : state) :
  j ≠ JDone →
  job_fuel w link (fst (job_step w base_url link j st)) < job_fuel w link j.
Proof.
  intros Hj. destruct j as [| | | | |text|text|s rest text|s rest text|c rest|c v rest|];
    try done; cbn [job_step fst].
  - simpl. lia.
  - destruct (link_is_taken link base_url st); simpl; lia.
  - simpl. lia.
  - destruct (http_get w link) as [[|c content]|] eqn:Hget; simpl; rewrite Hget;
      unfold text_fuel; simpl; lia.
  - simpl. lia.
  - simpl. unfold text_fuel. lia.
  - rewrite mission_next_fuel. simpl. unfold text_fuel. lia.
  - destruct (length (mission_sentences st) <? 3);
      [| rewrite count_next_fuel]; simpl; lia.
  - rewrite mission_next_fuel. simpl. lia.
  - simpl. lia.
  - rewrite count_next_fuel. simpl. lia.
Qed.

Lemma job_done_or_not (j : job) : j = JDone ∨ j ≠ JDone.
Proof. destruct j; (by left) || (by right). Qed.

Lemma steps_at_done (link : string) (n : nat) (p : pool) (j : job) :
  jobs p !! link = Some j → job_fuel w link j ≤ n →
  jobs (steps_at w base_url link n p) !! link = Some JDone.
Proof.
  revert p j. induction n as [|n IH]; intros p j Hj Hfuel; simpl.
  - destruct (job_done_or_not j) as [-> | Hne]; [done |].
    pose proof (job_step_fuel link j (shared p) Hne). lia.
  - destruct (job_done_or_not j) as [-> | Hne].
    + apply (IH _ JDone); [| simpl; lia].
      unfold step_at. rewrite Hj. simpl. apply lookup_insert_eq.
    + pose proof (job_step_fuel link j (shared p) Hne) as Hless.
      apply (IH _ (fst (job_step w base_url link j (shared p)))); [| lia].
      unfold step_at. rewrite Hj.
      destruct (job_step w base_url link j (shared p)). simpl. apply lookup_insert_eq.
Qed.

Lemma step_at_done_kept (link other : string) (p : pool) :
  jobs p !! other = Some JDone → jobs (step_at w base_url link p) !! other = Some JDone.
Proof.
  intros Hdone. destruct (decide (other = link)) as [-> | Hne].
  - unfold step_at. rewrite Hdone. simpl. apply lookup_insert_eq.
  - by rewrite step_at_jobs_other.
Qed.

Lemma step_at_is_Some (link other : string) (p : pool) :
  is_Some (jobs p !! other) → is_Some (jobs (step_at w base_url link p) !! other).
Proof.
  intros Hsome. destruct (decide (other = link)) as [-> | Hne].
  - unfold step_at. destruct Hsome as [j ->].
    destruct (job_step w base_url link j (shared p)). simpl.
    rewrite lookup_insert_eq. eauto.
  - by rewrite step_at_jobs_other.
Qed.

Lemma steps_at_done_kept (link other : string) (n : nat) (p : pool) :
  jobs p !! other = Some JDone →
  jobs (steps_at w base_url link n p) !! other = Some JDone.
Proof.
  revert p. induction n as [|n IH]; intros p Hp; simpl; [done |].
  by apply IH, step_at_done_kept.
Qed.

Lemma steps_at_is_Some (link other : string) (n : nat) (p : pool) :
  is_Some (jobs p !! other) → is_Some (jobs (steps_at w base_url link n p) !! other).
Proof.
  revert p. induction n as [|n IH]; intros p Hp; simpl; [done |].
  by apply IH, step_at_is_Some.
Qed.

Lemma finish_job_done (link : string) (p : pool) :
  is_Some (jobs p !! link) → jobs (finish_job w base_url p link) !! link = Some JDone.
Proof.
  intros [j Hj]. unfold finish_job. rewrite Hj. simpl.
  by apply (steps_at_done link _ p j).
Qed.

(** After the wait every job of the queue is done. *)
Lemma join_done (p : pool) (link : string) :
  (∀ l, In l (queue p) → is_Some (jobs p !! l)) →
  In link (queue p) → jobs (join w base_url p) !! link = Some JDone.
Proof.
  unfold join. intros Hsome Hin.
  assert (In link (queue p) ∨ jobs p !! link = Some JDone) as Hlink by (by left).
  clear Hin. revert Hsome Hlink. generalize (queue p). intros q. revert p.
  induction q as [|l q IH]; intros p Hsome Hlink; simpl.
  - by destruct Hlink.
  - apply IH.
    + intros l' Hl'. unfold finish_job. apply steps_at_is_Some, Hsome. by right.
    + destruct Hlink as [[<- | Hin] | Hdone].
      * right. apply finish_job_done, Hsome. by left.
      * by left.
      * right. unfold finish_job. by apply steps_at_done_kept.
Qed.

End PoolSteps.

(** ** Requests and the visited set, for every schedule *)

Section TraceInvariant.

Context (w : world) (base_url : string).

Lemma count_next_ok (link text : string) (increments : list string) :
  fetched_text w link = Some text →
  increments `suffix_of` text_increments text →
  job_ok w link (count_next increments).
Proof. intros Htext Hsuffix. destruct increments; simpl; eauto. Qed.

Lemma mission_next_ok (link text : string) (sentences : list string) :
  fetched_text w link = Some text →
  sentences `suffix_of` sorted_by_len (valid_mission_sentences_of text) →
  job_ok w link (mission_next sentences text).
Proof.
  intros Htext Hsuffix. destruct sentences; simpl; [| done].
  by apply (count_next_ok link text).
Qed.

Lemma job_step_ok (link : string) (j : job) (st : state) :
  job_ok w link j → job_ok w link (fst (job_step w base_url link j st)).
Proof.
  destruct j as [| | | | |text|text|s rest text|s rest text|c rest|c v rest|];
    cbn [job_step fst]; intros Hok; try done.
  - by destruct (link_is_taken link base_url st).
  - destruct (http_get w link) as [[|c content]|] eqn:Hget; simpl; [done | | done].
    unfold fetched_text. by rewrite Hget.
  - by apply mission_next_ok.
  - destruct Hok as [Htext Hsuffix].
    destruct (length (mission_sentences st) <? 3); [done |].
    by apply (count_next_ok link text).
  - destruct Hok as [Htext Hsuffix].
    apply mission_next_ok; [done |]. by eapply suffix_cons_l.
  - destruct Hok as (text & Htext & Hsuffix).
    apply (count_next_ok link text); [done |]. by eapply suffix_cons_l.
Qed.

(** What a step does to the visited set and to the requests. *)
Lemma job_step_trace (link : string) (j : job) (st : state) :
  let j' := fst (job_step w base_url link j st) in
  let st' := snd (job_step w base_url link j st) in
  submitted st' = submitted st
  ∧ ((j = JMark ∧ j' = JFetch
      ∧ visited st' = visited st ∪ {[link]} ∧ requested st' = requested st)
     ∨ (j = JFetch ∧ j' ≠ JFetch ∧ j' ≠ JMark
        ∧ visited st' = visited st ∧ requested st' = requested st ++ [link])
     ∨ (j ≠ JMark ∧ j ≠ JFetch ∧ j' ≠ JFetch
        ∧ (j' = JMark → link ∉ visited st)
        ∧ (after_fetch j' = true → after_fetch j = true)
        ∧ visited st' = visited st ∧ requested st' = requested st)).
Proof.
  assert (∀ increments, count_next increments ≠ JFetch
                        ∧ count_next increments ≠ JMark) as Hcount.
  { intros [|c l]; by split. }
  assert (∀ sentences text, mission_next sentences text ≠ JFetch
                            ∧ mission_next sentences text ≠ JMark) as Hmission.
  { intros [|s l] text; [apply Hcount | by split]. }
  cbv zeta.
  destruct j as [| | | | |text|text|s rest text|s rest text|c rest|c v rest|];
    cbn [job_step fst snd].
  - split; [done |]. right; right. by repeat split.
  - split; [done |]. right; right. unfold link_is_taken.
    destruct (bool_decide (link ∈ visited st)) eqn:Hv; simpl.
    + by repeat split.
    + apply bool_decide_eq_false in Hv.
      destruct (str_in base_url link); by repeat split.
  - split; [done |]. left. by repeat split.
  - destruct (http_get w link) as [[|c content]|]; (split; [done |]);
      right; left; by repeat split.
  - split; [done |]. right; right. by repeat split.
  - split; [done |]. right; right. by repeat split.
  - split; [done |]. right; right.
    destruct (Hmission (sorted_by_len (valid_mission_sentences_of text)) text).
    by repeat split.
  - split; [done |]. right; right. destruct (Hcount (text_increments text)).
    destruct (length (mission_sentences st) <? 3); by repeat split.
  - split; [done |]. right; right. destruct (Hmission rest text). by repeat split.
  - split; [done |]. right; right. by repeat split.
  - split; [done |]. right; right. destruct (Hcount rest). by repeat split.
  - split; [done |]. right; right. by repeat split.
Qed.

Lemma trace_inv_step (link : string) (p : pool) :
  trace_inv w base_url p → trace_inv w base_url (step_at w base_url link p).
Proof.
  intros [Hdom Hjob Hafter Hvis Hmark Hfetch Honce Hseed Hlinks Hsub].
  unfold step_at. destruct (jobs p !! link) as [j|] eqn:Hj; [| by constructor].
  pose proof (job_step_ok link j (shared p) (Hjob link j Hj)) as Hok.
  destruct (job_step_trace link j (shared p)) as [Hsubmitted Hcases].
  destruct (job_step w base_url link j (shared p)) as [j' st']. simpl in *.
  assert (∀ url, In url (requested (shared p)) → In url (requested st')) as Hgrow.
  { intros url Hurl.
    destruct Hcases as [(_ & _ & _ & ->) | [(_ & _ & _ & _ & ->) | (_ & _ & _ & _ & _ & _ & ->)]];
      [done | | done].
    apply in_app_iff. by left. }
  constructor; simpl.
  - intros l j0 Hl. apply lookup_insert_Some in Hl as [[<- _] | [_ Hl]]; eauto.
  - intros l j0 Hl. apply lookup_insert_Some in Hl as [[<- <-] | [_ Hl]]; eauto.
  - intros l j0 Hl Hj0. apply lookup_insert_Some in Hl as [[<- <-] | [_ Hl]]; [| eauto].
    destruct Hcases as [(_ & -> & _) | [(_ & _ & _ & _ & ->) | (_ & _ & _ & _ & Haf & _)]].
    + done.
    + apply in_app_iff. right. by left.
    + apply Hgrow. eauto.
  - intros url.
    destruct Hcases as [(-> & -> & -> & ->) | [(-> & Hnf & _ & -> & ->)
                                              | (Hnm & Hnf & Hnf' & _ & _ & -> & ->)]].
    + rewrite elem_of_union, elem_of_singleton, Hvis.
      destruct (decide (url = link)) as [-> | Hne].
      * rewrite lookup_insert_eq. tauto.
      * rewrite lookup_insert_ne by done. tauto.
    + rewrite Hvis, in_app_iff. simpl.
      destruct (decide (url = link)) as [-> | Hne].
      * rewrite lookup_insert_eq, Hj. split; [tauto |]. intros _. by right.
      * rewrite lookup_insert_ne by done.
        split; [tauto |]. intros [[H | [H | []]] | H]; try tauto. congruence.
    + rewrite Hvis.
      destruct (decide (url = link)) as [-> | Hne].
      * rewrite lookup_insert_eq, Hj. split; intros [H | H]; try tauto; congruence.
      * by rewrite lookup_insert_ne.
  - intros l Hl. apply lookup_insert_Some in Hl as [[<- ->] | [Hne Hl]].
    + destruct Hcases as [(_ & ? & _) | [(_ & _ & ? & _) | (_ & _ & _ & Hm & _ & -> & _)]];
        [done | done |]. by apply Hm.
    + specialize (Hmark l Hl).
      destruct Hcases as [(_ & _ & -> & _) | [(_ & _ & _ & -> & _) | (_ & _ & _ & _ & _ & -> & _)]];
        [| done | done].
      rewrite elem_of_union, elem_of_singleton. intros [H | H]; [done | congruence].
  - intros l Hl. apply lookup_insert_Some in Hl as [[<- ->] | [Hne Hl]].
    + destruct Hcases as [(-> & _ & _ & ->) | [(_ & ? & _) | (_ & _ & ? & _)]]; [| done | done].
      intros Hin. apply (Hmark link Hj). apply Hvis. by left.
    + specialize (Hfetch l Hl).
      destruct Hcases as [(_ & _ & _ & ->) | [(_ & _ & _ & _ & ->) | (_ & _ & _ & _ & _ & _ & ->)]];
        [done | | done].
      rewrite in_app_iff. simpl. intros [H | [H | []]]; [done | congruence].
  - destruct Hcases as [(_ & _ & _ & ->) | [(-> & _ & _ & _ & ->) | (_ & _ & _ & _ & _ & _ & ->)]];
      [done | | done].
    apply NoDup_app. split; [done |]. split; [| apply NoDup_singleton].
    intros url Hurl Hin. apply list_elem_of_singleton in Hin as ->.
    apply (Hfetch link Hj). by apply list_elem_of_In.
  - by apply Hgrow.
  - intros url Hurl.
    destruct Hcases as [(_ & _ & _ & Hr) | [(_ & _ & _ & _ & Hr) | (_ & _ & _ & _ & _ & _ & Hr)]];
      rewrite Hr in Hurl; [auto | | auto].
    apply in_app_iff in Hurl as [Hurl | [<- | []]]; [auto |]. right. eauto.
  - by rewrite Hsubmitted.
Qed.

Lemma start_pool_jobs (links : list string) (st : state) (link : string) (j : job) :
  jobs (start_pool links st) !! link = Some j ↔ In link links ∧ j = JQueued.
Proof.
  unfold start_pool. simpl. induction links as [|l links IH]; simpl.
  - rewrite lookup_empty. split; [done | by intros [[] _]].
  - rewrite lookup_insert_Some, IH. split.
    + intros [[<- <-] | [_ [H ->]]]; split; auto.
    + intros [[<- | H] ->]; [by left |].
      destruct (decide (l = link)) as [<- | Hne]; [by left | by right].
Qed.

Lemma trace_inv_start (links : list string) (st : state) :
  (∀ url, url ∈ visited st ↔ url = base_url) →
  requested st = [base_url] →
  submitted st = [] →
  trace_inv w base_url (start_pool links st).
Proof.
  intros Hvis Hreq Hsub. constructor; simpl.
  - intros link j Hj. by apply start_pool_jobs in Hj as [? _].
  - intros link j Hj. by apply start_pool_jobs in Hj as [_ ->].
  - intros link j Hj. by apply start_pool_jobs in Hj as [_ ->].
  - intros url. rewrite Hvis, Hreq. simpl. split; [auto |].
    intros [[<- | []] | H]; [done |].
    change (jobs (start_pool links st) !! url = Some JFetch) in H.
    by apply start_pool_jobs in H as [_ ?].
  - intros link Hj.
    change (jobs (start_pool links st) !! link = Some JMark) in Hj.
    by apply start_pool_jobs in Hj as [_ ?].
  - intros link Hj.
    change (jobs (start_pool links st) !! link = Some JFetch) in Hj.
    by apply start_pool_jobs in Hj as [_ ?].
  - rewrite Hreq. apply NoDup_singleton.
  - rewrite Hreq. by left.
  - rewrite Hreq. intros url [<- | []]. by left.
  - by rewrite Hsub.
Qed.

End TraceInvariant.

(** ** The ways in which [scrape_website] ends *)

Section Crawl.

Context (w : world) (base_url output_csv : string) (schedule : list string).

Lemma scrape_website_unloaded :
  seed_body w base_url = "" →
  scrape_website w base_url output_csv schedule
  = (Returned,
     set_printed (fun l => l ++ [CannotLoadMainPage])
                 (snd (fetch_page_content w base_url initial_state))).
Proof.
  unfold seed_body, scrape_website, fetch_page_content.
  by destruct (http_get w base_url) as [[|c content]|].
Qed.

Lemma scrape_website_refused :
  seed_body w base_url ≠ "" →
  find_links w (seed_body w base_url) base_url = None →
  scrape_website w base_url output_csv schedule
  = (Raised ValueError,
     set_visited (fun s => s ∪ {[base_url]})
                 (set_requested (fun l => l ++ [base_url]) initial_state)).
Proof.
  unfold seed_body, scrape_website, fetch_page_content.
  destruct (http_get w base_url) as [[|c content]|]; simpl; [done | | done].
  by intros _ ->.
Qed.

Lemma scrape_website_loaded (links : gset string) :
  seed_body w base_url ≠ "" →
  find_links w (seed_body w base_url) base_url = Some links →
  let st := shared (join w base_url
                      (crawl_pool w base_url (seed_body w base_url) links schedule)) in
  scrape_website w base_url output_csv schedule
  = if can_open w output_csv
    then (Written (csv_rows w st), set_printed (fun l => l ++ [SavedTo output_csv]) st)
    else (Raised OSError, st).
Proof.
  unfold seed_body, scrape_website, fetch_page_content.
  destruct (http_get w base_url) as [[|c content]|]; simpl; [done | | done].
  by intros _ ->.
Qed.

Lemma seed_body_loaded :
  seed_body w base_url ≠ "" →
  http_get w base_url = Some (seed_body w base_url)
  ∧ truthy (http_get w base_url) = true
  ∧ fetched_text w base_url = Some (get_text w (seed_body w base_url)).
Proof.
  unfold seed_body, fetched_text.
  by destruct (http_get w base_url) as [[|c content]|].
Qed.

Lemma seed_body_unloaded :
  seed_body w base_url = "" →
  truthy (http_get w base_url) = false ∧ fetched_text w base_url = None.
Proof.
  unfold seed_body, fetched_text.
  by destruct (http_get w base_url) as [[|c content]|].
Qed.

(** How the call ends is decided by the seed page, by what [urljoin] makes
    of its links and by the output file. *)
Lemma scrape_website_cases :
  (seed_body w base_url = ""
   ∧ scrape_website w base_url output_csv schedule
     = (Returned,
        set_printed (fun l => l ++ [CannotLoadMainPage])
                    (snd (fetch_page_content w base_url initial_state))))
  ∨ (seed_body w base_url ≠ ""
     ∧ find_links w (seed_body w base_url) base_url = None
     ∧ scrape_website w base_url output_csv schedule
       = (Raised ValueError,
          set_visited (fun s => s ∪ {[base_url]})
                      (set_requested (fun l => l ++ [base_url]) initial_state)))
  ∨ (∃ links,
       seed_body w base_url ≠ ""
       ∧ find_links w (seed_body w base_url) base_url = Some links
       ∧ scrape_website w base_url output_csv schedule
         = let st := shared (join w base_url
                               (crawl_pool w base_url (seed_body w base_url) links
                                           schedule)) in
           if can_open w output_csv
           then (Written (csv_rows w st),
                 set_printed (fun l => l ++ [SavedTo output_csv]) st)
           else (Raised OSError, st)).
Proof.
  destruct (String.string_dec (seed_body w base_url) "") as [Hempty | Hne].
  - left. split; [done |]. by apply scrape_website_unloaded.
  - right. destruct (find_links w (seed_body w base_url) base_url) as [links|] eqn:Hlinks.
    + right. exists links. split; [done |]. split; [done |].
      by apply scrape_website_loaded.
    + left. split; [done |]. split; [done |]. by apply scrape_website_refused.
Qed.

(** *** The pool of a crawl *)

Lemma before_pool_trace (html : string) :
  visited (before_pool w base_url html) = ∅ ∪ {[base_url]}
  ∧ requested (before_pool w base_url html) = [base_url]
  ∧ submitted (before_pool w base_url html) = []
  ∧ printed (before_pool w base_url html) = [].
Proof. done. Qed.

Lemma crawl_pool_queue (html : string) (links : gset string) :
  queue (crawl_pool w base_url html links schedule) = iterate w links.
Proof. unfold crawl_pool. by rewrite run_schedule_queue. Qed.

Lemma crawl_pool_trace (html : string) (links : gset string) :
  trace_inv w base_url (crawl_pool w base_url html links schedule).
Proof.
  unfold crawl_pool.
  apply (pool_induction w base_url (trace_inv w base_url)).
  - apply trace_inv_step.
  - apply trace_inv_start; [| done | done].
    intros url. simpl. rewrite union_empty_l_L, elem_of_singleton. done.
Qed.

Lemma crawl_pool_total (html : string) (links : gset string) (link : string) :
  In link (iterate w links) →
  is_Some (jobs (crawl_pool w base_url html links schedule) !! link).
Proof.
  unfold crawl_pool. revert link.
  apply (pool_induction w base_url
           (fun p => ∀ link, In link (iterate w links) → is_Some (jobs p !! link))).
  - intros l p Hp link Hlink. apply step_at_is_Some. auto.
  - intros link Hlink. exists JQueued. by apply start_pool_jobs.
Qed.

(** When the wait is over, the pool is as the steps have left it, the jobs
    are all done, and a further step would change nothing. *)
Lemma crawl_end (html : string) (links : gset string) :
  let p := join w base_url (crawl_pool w base_url html links schedule) in
  trace_inv w base_url p
  ∧ queue p = iterate w links
  ∧ (∀ link, link ∈ links → jobs p !! link = Some JDone)
  ∧ (∀ link j, jobs p !! link = Some j → j = JDone)
  ∧ (∀ link, step_at w base_url link p = p).
Proof.
  intros p.
  assert (trace_inv w base_url p) as Hinv.
  { apply (pool_induction w base_url (trace_inv w base_url));
      [apply trace_inv_step | apply crawl_pool_trace]. }
  assert (queue p = iterate w links) as Hqueue.
  { unfold p. by rewrite join_queue, crawl_pool_queue. }
  assert (∀ link, link ∈ links → jobs p !! link = Some JDone) as Hdone.
  { intros link Hlink. apply join_done.
    - intros l Hl. rewrite crawl_pool_queue in Hl. by apply crawl_pool_total.
    - rewrite crawl_pool_queue. by apply iterate_In. }
  assert (∀ link j, jobs p !! link = Some j → j = JDone) as Hall.
  { intros link j Hj. pose proof (inv_dom _ _ _ Hinv link j Hj) as Hin.
    rewrite Hqueue in Hin. apply iterate_In, Hdone in Hin. congruence. }
  split; [done |]. split; [done |]. split; [done |]. split; [done |].
  intros link. unfold step_at. destruct (jobs p !! link) as [j|] eqn:Hj; [| done].
  pose proof (Hall link j Hj) as ->. simpl. destruct p as [st q js]. simpl in *.
  f_equal. by apply insert_id.
Qed.

End Crawl.

(** ** What a step does to the results *)

Section StepEffect.

Context (w : world) (base_url : string).

Lemma count_next_cases (increments : list string) :
  (increments = [] ∧ count_next increments = JDone)
  ∨ (∃ category rest, increments = category :: rest
                      ∧ count_next increments = JCountRead category rest).
Proof. destruct increments as [|c rest]; [by left | right; eauto]. Qed.

Lemma mission_next_cases (sentences : list string) (text : string) :
  (sentences = [] ∧ mission_next sentences text = count_next (text_increments text))
  ∨ (∃ sentence rest, sentences = sentence :: rest
                      ∧ mission_next sentences text = JMissionTest sentence rest text).
Proof. destruct sentences as [|s rest]; [by left | right; eauto]. Qed.

Lemma pending_count_next (increments : list string) :
  pending_increments (Some (count_next increments)) = increments.
Proof. by destruct increments. Qed.

Lemma pending_mission_next (sentences : list string) (text : string) :
  pending_increments (Some (mission_next sentences text)) = text_increments text.
Proof. destruct sentences; [apply pending_count_next | done]. Qed.

(** Each field of the results is changed by one kind of step only. *)
Lemma job_step_aggregates (link : string) (j : job) (st : state) :
  let st' := snd (job_step w base_url link j st) in
  emails st'
  = match j with
    | JEmails text => emails st ∪ list_to_set (valid_emails_of text)
    | _ => emails st
    end
  ∧ phones st'
    = match j with
      | JPhones text => phones st ∪ list_to_set (valid_phones_of text)
      | _ => phones st
      end
  ∧ mission_sentences st'
    = match j with
      | JMissionAppend sentence _ _ => mission_sentences st ++ [strip sentence]
      | _ => mission_sentences st
      end
  ∧ keyword_counter st'
    = match j with
      | JCountStore category v _ => counter_set (keyword_counter st) category (v + 1)%Z
      | _ => keyword_counter st
      end
  ∧ printed st'
    = match j with
      | JPrintError => printed st ++ [HttpRequestError link]
      | _ => printed st
      end.
Proof.
  cbv zeta.
  destruct j as [| | | | |text|text|s rest text|s rest text|c rest|c v rest|];
    cbn [job_step snd]; try done.
  destruct (http_get w link) as [[|c content]|]; done.
Qed.

(** The steps that lead to a job that holds something. *)
Lemma job_step_to (link : string) (j : job) (st : state) :
  match fst (job_step w base_url link j st) with
  | JQueued => False
  | JTest => j = JQueued
  | JMark => j = JTest
  | JFetch => j = JMark
  | JPrintError => j = JFetch ∧ http_get w link = None
  | JEmails text => j = JFetch ∧ fetched_text w link = Some text
  | JPhones text => j = JEmails text
  | JMissionTest _ _ text => j = JPhones text ∨ ∃ s rest, j = JMissionAppend s rest text
  | JMissionAppend sentence rest text => j = JMissionTest sentence rest text
  | JCountRead _ _ =>
      (∃ text, j = JPhones text) ∨ (∃ s rest text, j = JMissionTest s rest text)
      ∨ (∃ s rest text, j = JMissionAppend s rest text)
      ∨ (∃ c v rest, j = JCountStore c v rest)
  | JCountStore category v rest =>
      j = JCountRead category rest ∧ v = counter_get (keyword_counter st) category
  | JDone => True
  end.
Proof.
  destruct j as [| | | | |text|text|s rest text|s rest text|c rest|c v rest|];
    cbn [job_step fst]; try done.
  - by destruct (link_is_taken link base_url st).
  - destruct (http_get w link) as [[|c content]|] eqn:Hget; simpl; [done | | done].
    split; [done |]. unfold fetched_text. by rewrite Hget.
  - destruct (mission_next_cases (sorted_by_len (valid_mission_sentences_of text)) text)
      as [[_ ->] | (s & rest & _ & ->)]; [| by left].
    destruct (count_next_cases (text_increments text)) as [[_ ->] | (c & rest & _ & ->)];
      [done | left; eauto].
  - destruct (length (mission_sentences st) <? 3); [done |].
    destruct (count_next_cases (text_increments text)) as [[_ ->] | (c & rest' & _ & ->)];
      [done | right; left; eauto].
  - destruct (mission_next_cases rest text) as [[_ ->] | (s' & rest' & _ & ->)];
      [| right; eauto].
    destruct (count_next_cases (text_increments text)) as [[_ ->] | (c & rest' & _ & ->)];
      [done | right; right; left; eauto].
  - destruct (count_next_cases rest) as [[_ ->] | (c' & rest' & _ & ->)];
      [done | right; right; right; eauto].
Qed.

(** What holds of the pool when the jobs start, and is kept by every step
    of a pool whose requests and visited set fit together, holds after any
    schedule and after the wait. *)
Lemma pool_induction_trace (Inv : pool → Prop) :
  (∀ link p, trace_inv w base_url p → Inv p → Inv (step_at w base_url link p)) →
  ∀ p, trace_inv w base_url p → Inv p →
       (∀ schedule, Inv (run_schedule w base_url schedule p))
       ∧ Inv (join w base_url p)
       ∧ (∀ schedule, Inv (join w base_url (run_schedule w base_url schedule p))).
Proof.
  intros Hstep p Htrace Hinv.
  assert (∀ link p, trace_inv w base_url p ∧ Inv p →
                    trace_inv w base_url (step_at w base_url link p)
                    ∧ Inv (step_at w base_url link p)) as Hboth.
  { intros link p' [Ht Hi]. split; [by apply trace_inv_step | by apply Hstep]. }
  destruct (pool_induction w base_url _ Hboth p (conj Htrace Hinv)) as [Hrun Hjoin].
  split; [intros schedule; apply Hrun |]. split; [apply Hjoin |].
  intros schedule.
  apply (pool_induction w base_url _ Hboth (run_schedule w base_url schedule p)), Hrun.
Qed.

End StepEffect.

(** ** The mission sentences, for every schedule *)

Section MissionInvariant.

Context (w : world) (base_url : string) (P : string → Prop).
Hypothesis P_candidates :
  ∀ text sentence, In sentence (valid_mission_sentences_of text) → P (strip sentence).

Lemma mission_extract (html : string) (st : state) :
  Forall P (mission_sentences st) →
  Forall P (mission_sentences (extract_information w html st)).
Proof.
  intros Hst. rewrite mission_sentences_extract. apply Forall_app. split; [done |].
  apply Forall_take.
  eapply Permutation_Forall; [symmetry; apply sorted_by_len_perm |].
  apply List.Forall_forall. intros s Hs.
  pose proof (valid_mission_sentences_stripped (get_text w html)) as Hstripped.
  rewrite List.Forall_forall in Hstripped. rewrite <- (Hstripped s Hs). eauto.
Qed.

Lemma mission_step (link : string) (p : pool) :
  trace_inv w base_url p →
  Forall P (mission_sentences (shared p)) →
  Forall P (mission_sentences (shared (step_at w base_url link p))).
Proof.
  intros Htrace Hall. unfold step_at. destruct (jobs p !! link) as [j|] eqn:Hj; [| done].
  destruct (job_step_aggregates w base_url link j (shared p)) as (_ & _ & Hm & _).
  pose proof (inv_job _ _ _ Htrace link j Hj) as Hok.
  destruct (job_step w base_url link j (shared p)) as [j' st']. simpl in *.
  rewrite Hm. destruct j; try done.
  apply Forall_app. split; [done |]. apply Forall_singleton.
  destruct Hok as [_ [k Hk]]. apply (P_candidates text).
  apply (Permutation_in _ (sorted_by_len_perm _)). rewrite Hk.
  apply in_app_iff. right. by left.
Qed.

Lemma mission_crawl (html : string) (links : gset string) (schedule : list string) :
  Forall P (mission_sentences
              (shared (join w base_url (crawl_pool w base_url html links schedule)))).
Proof.
  unfold crawl_pool.
  apply (pool_induction_trace w base_url
           (fun p => Forall P (mission_sentences (shared p)))).
  - apply mission_step.
  - apply (crawl_pool_trace w base_url [] html links).
  - change (Forall P (mission_sentences (before_pool w base_url html))).
    unfold before_pool. apply mission_extract. constructor.
Qed.

Lemma mission_scrape_website (output_csv : string) (schedule : list string) :
  Forall P (mission_sentences (snd (scrape_website w base_url output_csv schedule))).
Proof.
  destruct (scrape_website_cases w base_url output_csv schedule)
    as [[_ ->] | [(_ & _ & ->) | (links & _ & _ & ->)]]; simpl.
  - unfold fetch_page_content. destruct (http_get w base_url); constructor.
  - constructor.
  - destruct (can_open w output_csv); simpl; apply mission_crawl.
Qed.

End MissionInvariant.

(** ** The increments of a text *)

Section Increments.

Lemma increments_over_In (cats : list (string * list string)) (sentence category : string) :
  In category
     (flat_map (fun '(category, keywords) =>
                  map (fun _ : string => category)
                      (List.filter (fun keyword => str_in keyword (lower sentence)) keywords))
               cats) →
  In category (map fst cats).
Proof.
  induction cats as [|[c keywords] cats IH]; simpl; [done |].
  rewrite in_app_iff, in_map_iff. intros [(k & <- & _) | H]; auto.
Qed.

Lemma text_increments_In (text category : string) :
  In category (text_increments text) → In category category_names.
Proof.
  unfold text_increments. rewrite in_flat_map. intros (sentence & _ & Hc).
  destruct (filter_valid_sentence sentence default_min_length default_max_length);
    [| done].
  by apply increments_over_In in Hc.
Qed.

Lemma count_occ_const (key category : string) (l : list string) :
  count_occ string_dec (map (fun _ : string => category) l) key
  = if String.eqb category key then length l else 0.
Proof.
  induction l as [|x l IH]; simpl; [by destruct (String.eqb category key) |].
  rewrite IH. destruct (string_dec category key) as [-> | Hne].
  - by rewrite String.eqb_refl.
  - apply String.eqb_neq in Hne. by rewrite Hne.
Qed.

Lemma increments_over_hits (cats : list (string * list string)) (sentence key : string) :
  Z.of_nat
    (count_occ string_dec
       (flat_map (fun '(category, keywords) =>
                    map (fun _ : string => category)
                        (List.filter (fun keyword => str_in keyword (lower sentence))
                                     keywords))
                 cats) key)
  = hits_over cats sentence key.
Proof.
  induction cats as [|[c keywords] cats IH]; simpl; [done |].
  rewrite count_occ_app, Nat2Z.inj_add, IH, count_occ_const. unfold trigger_hits.
  by destruct (String.eqb c key).
Qed.

(** The increments of a text for a key are as many as its hits. *)
Lemma text_increments_hits (text key : string) :
  Z.of_nat (count_occ string_dec (text_increments text) key) = text_hits text key.
Proof.
  unfold text_increments, text_hits.
  induction (split_on "." text) as [|sentence l IH]; simpl; [done |].
  rewrite count_occ_app, Nat2Z.inj_add, IH.
  destruct (filter_valid_sentence sentence default_min_length default_max_length);
    [| done].
  unfold sentence_increments, sentence_hits. by rewrite increments_over_hits.
Qed.

Lemma count_occ_suffix (l1 l2 : list string) (key : string) :
  l1 `suffix_of` l2 → count_occ string_dec l1 key ≤ count_occ string_dec l2 key.
Proof. intros [k ->]. rewrite count_occ_app. lia. Qed.

Lemma counter_keys_set_self (c : Counter) (k : string) (v : Z) :
  In k (counter_keys (counter_set c k v)).
Proof.
  rewrite counter_set_keys, in_app_iff. unfold in_keys.
  destruct (existsb (String.eqb k) (counter_keys c)) eqn:Hk.
  - left. apply existsb_exists in Hk as (k' & Hk' & Heq).
    by apply String.eqb_eq in Heq as ->.
  - right. by left.
Qed.

End Increments.

(** ** The tally, for every schedule *)

Section TallyInvariant.

Context (w : world) (base_url : string).

Lemma tally_inv_step (link : string) (p : pool) :
  trace_inv w base_url p → tally_inv p → tally_inv (step_at w base_url link p).
Proof.
  intros Htrace (Hok & Hnd & Hstore). unfold step_at.
  destruct (jobs p !! link) as [j|] eqn:Hj; [| done].
  destruct (job_step_aggregates w base_url link j (shared p)) as (_ & _ & _ & Hk & _).
  pose proof (job_step_to w base_url link j (shared p)) as Hto.
  pose proof (inv_job _ _ _ Htrace link j Hj) as Hjob.
  destruct (job_step w base_url link j (shared p)) as [j' st']. simpl in *.
  assert (tally_ok (keyword_counter st') ∧ NoDup (counter_keys (keyword_counter st')))
    as [Hok' Hnd'].
  { rewrite Hk. destruct j; try done.
    destruct Hjob as (text & _ & [k Hk']).
    assert (In category category_names) as Hcat.
    { apply (text_increments_In text). rewrite Hk', in_app_iff. right. by left. }
    pose proof (Hstore link category v rest Hj) as Hv.
    split; [| by apply counter_keys_set_NoDup].
    apply counter_set_Forall; simpl; [done | intros _ _ |]; (split; [done | lia]). }
  split; [done |]. split; [done |].
  intros l c v rest Hl. simpl in Hl.
  apply lookup_insert_Some in Hl as [[<- ->] | [_ Hl]]; [| eauto].
  destruct Hto as [-> ->]. by apply tally_ok_nonneg.
Qed.

Lemma keys_kept_step (link key : string) (p : pool) :
  In key (counter_keys (keyword_counter (shared p))) →
  In key (counter_keys (keyword_counter (shared (step_at w base_url link p)))).
Proof.
  intros Hkey. unfold step_at. destruct (jobs p !! link) as [j|] eqn:Hj; [| done].
  destruct (job_step_aggregates w base_url link j (shared p)) as (_ & _ & _ & Hk & _).
  destruct (job_step w base_url link j (shared p)) as [j' st']. simpl in *.
  rewrite Hk. destruct j; try done. by apply counter_keys_set.
Qed.

Lemma tally_inv_start (links : list string) (html : string) :
  tally_inv (start_pool links (before_pool w base_url html)).
Proof.
  split; [| split].
  - change (tally_ok (count_text (get_text w html) [])).
    destruct (count_text_step (get_text w html) []) as (Hok & _). apply Hok. constructor.
  - change (NoDup (counter_keys (count_text (get_text w html) []))).
    destruct (count_text_step (get_text w html) []) as (_ & Hnd & _). apply Hnd.
    constructor.
  - intros link c v rest Hj. by apply start_pool_jobs in Hj as [_ ?].
Qed.

(** The tally of a crawl at any moment of the pool, and after the wait. *)
Lemma tally_crawl (html : string) (links : gset string) (schedule : list string) :
  tally_inv (crawl_pool w base_url html links schedule)
  ∧ tally_inv (join w base_url (crawl_pool w base_url html links schedule)).
Proof.
  unfold crawl_pool.
  destruct (pool_induction_trace w base_url tally_inv tally_inv_step
              (start_pool (iterate w links) (before_pool w base_url html)))
    as (Hrun & _ & Hjoin).
  - apply (crawl_pool_trace w base_url [] html links).
  - apply tally_inv_start.
  - split; [apply Hrun | apply Hjoin].
Qed.

Lemma keys_kept_crawl (html : string) (links : gset string) (schedule more : list string)
    (key : string) :
  let p := crawl_pool w base_url html links schedule in
  In key (counter_keys (keyword_counter (shared p))) →
  In key (counter_keys (keyword_counter
                          (shared (crawl_pool w base_url html links (schedule ++ more)))))
  ∧ In key (counter_keys (keyword_counter (shared (join w base_url p)))).
Proof.
  intros p Hkey. unfold crawl_pool. rewrite run_schedule_app. fold p.
  destruct (pool_induction w base_url
              (fun p' => In key (counter_keys (keyword_counter (shared p'))))
              (fun link p' => keys_kept_step link key p') p Hkey) as [Hrun Hjoin].
  split; [apply Hrun | apply Hjoin].
Qed.

(** The tally that [scrape_website] ranks. *)
Lemma ranked_tally (output_csv : string) (schedule : list string) :
  tally_ok (keyword_counter (snd (scrape_website w base_url output_csv schedule)))
  ∧ NoDup (counter_keys
             (keyword_counter (snd (scrape_website w base_url output_csv schedule)))).
Proof.
  destruct (scrape_website_cases w base_url output_csv schedule)
    as [[_ ->] | [(_ & _ & ->) | (links & _ & _ & ->)]]; simpl.
  - unfold fetch_page_content. destruct (http_get w base_url); split; constructor.
  - split; constructor.
  - destruct (tally_crawl (seed_body w base_url) links schedule) as [_ (Hok & Hnd & _)].
    by destruct (can_open w output_csv).
Qed.

End TallyInvariant.

(** ** The contacts and the printed lines, for every schedule *)

Section ContactsInvariant.

Context (w : world) (base_url : string).

Lemma url_unfetched (url : string) :
  fetched_text w url = None →
  url_emails w url = [] ∧ url_phones w url = [] ∧ ∀ key, url_hits w key url = 0%Z.
Proof. unfold url_emails, url_phones, url_hits. by intros ->. Qed.

Lemma http_failed_unfetched (url : string) :
  http_get w url = None → fetched_text w url = None.
Proof. unfold fetched_text. by intros ->. Qed.

(** The step that follows the request. *)
Lemma job_step_from_fetch (link : string) (st st' : state) (j' : job) :
  job_step w base_url link JFetch st = (j', st') →
  (∃ text, j' = JEmails text ∧ fetched_text w link = Some text)
  ∨ (j' = JPrintError ∧ http_get w link = None)
  ∨ (j' = JDone ∧ http_get w link ≠ None ∧ fetched_text w link = None).
Proof.
  cbn [job_step]. unfold fetched_text.
  destruct (http_get w link) as [[|c content]|]; simpl; intros [= <- <-]; eauto.
Qed.

(** One proof for the two sets of contacts: [get] is the set, [cands] gives
    the contacts of a URL, and [before] says that a job has still to add
    those of its page. *)
Lemma contacts_step (get : state → gset string) (cands : string → list string)
    (before : option job → bool) (link : string) (p : pool) (j j' : job) (st' : state) :
  jobs p !! link = Some j →
  (∀ x, x ∈ get (shared p)
        ↔ ∃ url, In url (requested (shared p)) ∧ before (jobs p !! url) = false
                 ∧ In x (cands url)) →
  (requested st' = requested (shared p) ++ [link]
   ∧ ¬ In link (requested (shared p))
   ∧ get st' = get (shared p)
   ∧ (before (Some j') = false → cands link = []))
  ∨ (requested st' = requested (shared p)
     ∧ In link (requested (shared p))
     ∧ before (Some j) = true ∧ before (Some j') = false
     ∧ get st' = get (shared p) ∪ list_to_set (cands link))
  ∨ (requested st' = requested (shared p)
     ∧ get st' = get (shared p)
     ∧ before (Some j') = before (Some j)) →
  ∀ x, x ∈ get st'
       ↔ ∃ url, In url (requested st') ∧ before (<[link := j']> (jobs p) !! url) = false
                ∧ In x (cands url).
Proof.
  intros Hj Hinv Hcases x.
  destruct Hcases as [(-> & Hfresh & -> & Hempty)
                     | [(-> & Hlink & Hbefore & Hafter & ->) | (-> & -> & Hsame)]].
  - rewrite Hinv. split.
    + intros (url & Hurl & Hb & Hx). exists url.
      split; [apply in_app_iff; by left |].
      rewrite lookup_insert_ne by (by intros <-). done.
    + intros (url & Hurl & Hb & Hx).
      destruct (decide (url = link)) as [-> | Hne].
      * rewrite lookup_insert_eq in Hb. rewrite (Hempty Hb) in Hx. done.
      * rewrite lookup_insert_ne in Hb by done.
        apply in_app_iff in Hurl as [Hurl | [<- | []]]; [eauto | done].
  - rewrite elem_of_union, elem_of_list_to_set, list_elem_of_In, Hinv. split.
    + intros [(url & Hurl & Hb & Hx) | Hx].
      * exists url. split; [done |].
        rewrite lookup_insert_ne; [done |]. intros <-. rewrite Hj in Hb. congruence.
      * exists link. by rewrite lookup_insert_eq.
    + intros (url & Hurl & Hb & Hx).
      destruct (decide (url = link)) as [-> | Hne]; [by right |].
      rewrite lookup_insert_ne in Hb by done. left. eauto.
  - rewrite Hinv. split; intros (url & Hurl & Hb & Hx); exists url;
      (split; [done |]); (split; [| done]);
      (destruct (decide (url = link)) as [-> | Hne];
        [rewrite lookup_insert_eq in *; rewrite Hj in *; congruence
        | by rewrite lookup_insert_ne in * by done]).
Qed.

Lemma contacts_inv_step (link : string) (p : pool) :
  trace_inv w base_url p → contacts_inv w p → contacts_inv w (step_at w base_url link p).
Proof.
  intros Htrace [Hemails Hphones]. unfold step_at.
  destruct (jobs p !! link) as [j|] eqn:Hj; [| done].
  destruct (job_step_aggregates w base_url link j (shared p)) as (He & Hp & _).
  destruct (job_step_trace w base_url link j (shared p)) as [_ Htr].
  pose proof (job_step_to w base_url link j (shared p)) as Hto.
  pose proof (inv_job _ _ _ Htrace link j Hj) as Hjob.
  pose proof (inv_after _ _ _ Htrace link j Hj) as Hafter.
  pose proof (inv_fetch _ _ _ Htrace link) as Hfetch.
  destruct (job_step w base_url link j (shared p)) as [j' st'] eqn:Hstep.
  cbn [fst snd] in *.
  assert (requested st' = requested (shared p) ∨ j = JFetch) as Hreq.
  { destruct Htr as [(_ & _ & _ & ->) | [(-> & _) | (_ & _ & _ & _ & _ & _ & ->)]]; auto. }
  assert (j = JFetch → requested st' = requested (shared p) ++ [link]) as Hreq'.
  { intros ->. by destruct Htr as [(? & _) | [(_ & _ & _ & _ & ->) | (_ & ? & _)]]. }
  split.
  - apply (contacts_step emails (url_emails w) before_emails link p j j' st' Hj Hemails).
    destruct j as [| | | | |text|text|s rest text|s rest text|c rest|c v rest|];
      try (right; right; destruct Hreq as [-> | ?]; [| done];
           split; [done |]; split; [done |];
           destruct j'; try done; by destruct Hto).
    + left. apply job_step_from_fetch in Hstep as Hfrom.
      split; [by apply Hreq' |]. split; [by apply Hfetch |]. split; [done |].
      destruct Hfrom as [(text & -> & _) | [[-> Hnone] | (-> & _ & Hnone)]]; [done | |];
        intros _; [apply http_failed_unfetched in Hnone |]; by apply url_unfetched.
    + right; left. destruct Hreq as [-> | ?]; [| done].
      split; [done |]. split; [by apply Hafter |]. split; [done |].
      injection Hstep as <- <-. split; [done |].
      unfold url_emails. by rewrite Hjob.
  - apply (contacts_step phones (url_phones w) before_phones link p j j' st' Hj Hphones).
    destruct j as [| | | | |text|text|s rest text|s rest text|c rest|c v rest|];
      try (right; right; destruct Hreq as [-> | ?]; [| done];
           split; [done |]; split; [done |];
           destruct j'; try done; by destruct Hto).
    + left. apply job_step_from_fetch in Hstep as Hfrom.
      split; [by apply Hreq' |]. split; [by apply Hfetch |]. split; [done |].
      destruct Hfrom as [(text & -> & _) | [[-> Hnone] | (-> & _ & Hnone)]]; [done | |];
        intros _; [apply http_failed_unfetched in Hnone |]; by apply url_unfetched.
    + right; left. destruct Hreq as [-> | ?]; [| done].
      split; [done |]. split; [by apply Hafter |]. split; [done |].
      split.
      * destruct j'; try done; destruct Hto; done.
      * unfold url_phones. by rewrite Hjob.
Qed.

Lemma contacts_inv_start (links : list string) (html : string) :
  fetched_text w base_url = Some (get_text w html) →
  contacts_inv w (start_pool links (before_pool w base_url html)).
Proof.
  intros Hseed.
  assert (∀ url, jobs (start_pool links (before_pool w base_url html)) !! url
                 = Some JQueued
                 ∨ jobs (start_pool links (before_pool w base_url html)) !! url = None)
    as Hjobs.
  { intros url.
    destruct (jobs (start_pool links (before_pool w base_url html)) !! url) as [j|] eqn:Hj;
      [| by right].
    apply start_pool_jobs in Hj as [_ ->]. by left. }
  split.
  - intros email.
    change (emails (shared (start_pool links (before_pool w base_url html))))
      with (∅ ∪ list_to_set (valid_emails_of (get_text w html)) : gset string).
    rewrite union_empty_l_L, elem_of_list_to_set, list_elem_of_In. split.
    + intros Hin. exists base_url. split; [by left |].
      split; [by destruct (Hjobs base_url) as [-> | ->] |].
      unfold url_emails. by rewrite Hseed.
    + intros (url & [<- | []] & _ & Hin). unfold url_emails in Hin. by rewrite Hseed in Hin.
  - intros phone.
    change (phones (shared (start_pool links (before_pool w base_url html))))
      with (∅ ∪ list_to_set (valid_phones_of (get_text w html)) : gset string).
    rewrite union_empty_l_L, elem_of_list_to_set, list_elem_of_In. split.
    + intros Hin. exists base_url. split; [by left |].
      split; [by destruct (Hjobs base_url) as [-> | ->] |].
      unfold url_phones. by rewrite Hseed.
    + intros (url & [<- | []] & _ & Hin). unfold url_phones in Hin. by rewrite Hseed in Hin.
Qed.

Lemma printed_inv_step (link : string) (p : pool) :
  trace_inv w base_url p → printed_inv w p → printed_inv w (step_at w base_url link p).
Proof.
  intros Htrace [Hnd Hlines]. unfold step_at.
  destruct (jobs p !! link) as [j|] eqn:Hj; [| done].
  destruct (job_step_aggregates w base_url link j (shared p)) as (_ & _ & _ & _ & Hp).
  destruct (job_step_trace w base_url link j (shared p)) as [_ Htr].
  pose proof (job_step_to w base_url link j (shared p)) as Hto.
  pose proof (inv_job _ _ _ Htrace link j Hj) as Hjob.
  pose proof (inv_after _ _ _ Htrace link j Hj) as Hafter.
  pose proof (inv_fetch _ _ _ Htrace link) as Hfetch.
  destruct (job_step w base_url link j (shared p)) as [j' st'] eqn:Hstep.
  cbn [fst snd] in *.
  assert (requested st' = requested (shared p) ∨ j = JFetch) as Hreq.
  { destruct Htr as [(_ & _ & _ & ->) | [(-> & _) | (_ & _ & _ & _ & _ & _ & ->)]]; auto. }
  assert (j = JFetch → requested st' = requested (shared p) ++ [link]) as Hreq'.
  { intros ->. by destruct Htr as [(? & _) | [(_ & _ & _ & _ & ->) | (_ & ? & _)]]. }
  assert ((j = JFetch ∧ printed st' = printed (shared p)
           ∧ requested st' = requested (shared p) ++ [link]
           ∧ ¬ In link (requested (shared p))
           ∧ (http_get w link = None → j' = JPrintError))
          ∨ (j = JPrintError ∧ j' ≠ JPrintError
             ∧ printed st' = printed (shared p) ++ [HttpRequestError link]
             ∧ requested st' = requested (shared p)
             ∧ In link (requested (shared p)) ∧ http_get w link = None)
          ∨ (j ≠ JPrintError ∧ j' ≠ JPrintError
             ∧ printed st' = printed (shared p)
             ∧ requested st' = requested (shared p))) as Hcases.
  { destruct j as [| | | | |text|text|s rest text|s rest text|c rest|c v rest|];
      try (right; right; destruct Hreq as [-> | ?]; [| done];
           split; [done |]; split; [| done];
           destruct j'; try done; by destruct Hto).
    - left. apply job_step_from_fetch in Hstep as Hfrom.
      split; [done |]. split; [done |]. split; [by apply Hreq' |].
      split; [by apply Hfetch |].
      destruct Hfrom as [(text & -> & Htext) | [[-> _] | (-> & Hsome & _)]]; [| done | done].
      intros Hnone. apply http_failed_unfetched in Hnone. congruence.
    - right; left. destruct Hreq as [-> | ?]; [| done].
      injection Hstep as <- <-. split; [done |]. split; [done |]. split; [done |].
      split; [done |]. split; [by apply Hafter | done]. }
  clear Htr Hto Hreq Hreq' Hp Hstep. unfold printed_inv. cbn [shared jobs].
  destruct Hcases as [(-> & -> & -> & Hfresh & Hfail)
                     | [(-> & Hj' & -> & -> & Hlink & Hnone) | (Hne & Hj' & -> & ->)]].
  - split; [done |]. intros m. rewrite Hlines. split.
    + intros (url & -> & Hurl & Hget & Hb). exists url. split; [done |].
      split; [apply in_app_iff; by left |]. split; [done |].
      rewrite lookup_insert_ne; [done |]. by intros <-.
    + intros (url & -> & Hurl & Hget & Hb). exists url. split; [done |].
      destruct (decide (url = link)) as [-> | Hne].
      * rewrite lookup_insert_eq in Hb. rewrite (Hfail Hget) in Hb. done.
      * rewrite lookup_insert_ne in Hb by done.
        apply in_app_iff in Hurl as [Hurl | [<- | []]]; done.
  - split.
    + apply NoDup_app. split; [done |]. split; [| apply NoDup_singleton].
      intros m Hm Hin. apply list_elem_of_singleton in Hin as ->.
      apply list_elem_of_In, Hlines in Hm as (url & [= <-] & _ & _ & Hb). done.
    + intros m. rewrite in_app_iff, Hlines. simpl. split.
      * intros [(url & -> & Hurl & Hget & Hb) | [<- | []]].
        -- exists url. split; [done |]. split; [done |]. split; [done |].
           rewrite lookup_insert_ne; [done |]. by intros <-.
        -- exists link. split; [done |]. split; [done |]. split; [done |].
           rewrite lookup_insert_eq. by intros [= ->].
      * intros (url & -> & Hurl & Hget & Hb).
        destruct (decide (url = link)) as [-> | Hne]; [right; by left |].
        rewrite lookup_insert_ne in Hb by done. left. eauto.
  - split; [done |]. intros m. rewrite Hlines.
    split; intros (url & -> & Hurl & Hget & Hb); exists url;
      (split; [done |]); (split; [done |]); (split; [done |]);
      (destruct (decide (url = link)) as [-> | Hneq];
        [rewrite lookup_insert_eq in *; rewrite Hj in *; congruence
        | by rewrite lookup_insert_ne in * by done]).
Qed.

Lemma printed_inv_start (links : list string) (html : string) :
  http_get w base_url ≠ None →
  printed_inv w (start_pool links (before_pool w base_url html)).
Proof.
  intros Hseed. split; [constructor |].
  intros m. split; [done |]. by intros (url & _ & [<- | []] & Hget & _).
Qed.

End ContactsInvariant.

(** ** The counts, for every schedule *)

Section CountInvariant.

Context (w : world) (base_url : string).

Lemma sum_Z_map_le {A : Type} (f g : A → Z) (l : list A) :
  (∀ x, In x l → (f x <= g x)%Z) → (sum_Z (map f l) <= sum_Z (map g l))%Z.
Proof.
  induction l as [|x l IH]; intros Hle; simpl; [lia |].
  pose proof (Hle x (or_introl eq_refl)).
  assert (sum_Z (map f l) <= sum_Z (map g l))%Z by (apply IH; intros; apply Hle; by right).
  lia.
Qed.

Lemma sum_Z_map_lt {A : Type} (f g : A → Z) (l : list A) (a : A) :
  In a l → (∀ x, In x l → (f x <= g x)%Z) → (f a + 1 <= g a)%Z →
  (sum_Z (map f l) + 1 <= sum_Z (map g l))%Z.
Proof.
  induction l as [|x l IH]; intros Ha Hle Hlt; simpl; [done |].
  pose proof (Hle x (or_introl eq_refl)).
  assert (sum_Z (map f l) <= sum_Z (map g l))%Z
    by (apply sum_Z_map_le; intros; apply Hle; by right).
  destruct Ha as [-> | Ha]; [lia |].
  assert (sum_Z (map f l) + 1 <= sum_Z (map g l))%Z
    by (apply IH; [done | intros; apply Hle; by right | done]).
  lia.
Qed.

Lemma sum_Z_map_ext {A : Type} (f g : A → Z) (l : list A) :
  (∀ x, In x l → f x = g x) → sum_Z (map f l) = sum_Z (map g l).
Proof. intros Heq. f_equal. by apply map_ext_in. Qed.

Lemma url_hits_text (url text key : string) :
  fetched_text w url = Some text →
  url_hits w key url = Z.of_nat (count_occ string_dec (text_increments text) key).
Proof. intros Htext. unfold url_hits. by rewrite Htext, text_increments_hits. Qed.

Lemma stored_hits_other (st' : state) (link url key : string) (j' : job) (p : pool) :
  url ≠ link →
  stored_hits w (mkPool st' (queue p) (<[link := j']> (jobs p))) key url
  = stored_hits w p key url.
Proof. intros Hne. unfold stored_hits. simpl. by rewrite lookup_insert_ne. Qed.

Lemma stored_hits_self (st' : state) (link key : string) (j' : job) (p : pool) :
  stored_hits w (mkPool st' (queue p) (<[link := j']> (jobs p))) key link
  = (url_hits w key link
     - Z.of_nat (count_occ string_dec (pending_increments (Some j')) key))%Z.
Proof. unfold stored_hits. simpl. by rewrite lookup_insert_eq. Qed.

Lemma stored_hits_same (st' : state) (link url key : string) (j j' : job) (p : pool) :
  jobs p !! link = Some j →
  pending_increments (Some j') = pending_increments (Some j) →
  stored_hits w (mkPool st' (queue p) (<[link := j']> (jobs p))) key url
  = stored_hits w p key url.
Proof.
  intros Hj Hsame. destruct (decide (url = link)) as [-> | Hne].
  - rewrite stored_hits_self. unfold stored_hits. by rewrite Hj, Hsame.
  - by apply stored_hits_other.
Qed.

Lemma count_inv_step (link : string) (p : pool) :
  trace_inv w base_url p → count_inv w p → count_inv w (step_at w base_url link p).
Proof.
  intros Htrace (Hkeys & Hbound & Hstore). unfold step_at.
  destruct (jobs p !! link) as [j|] eqn:Hj; [| done].
  destruct (job_step_aggregates w base_url link j (shared p)) as (_ & _ & _ & Hk & _).
  destruct (job_step_trace w base_url link j (shared p)) as [_ Htr].
  pose proof (job_step_to w base_url link j (shared p)) as Hto.
  pose proof (inv_job _ _ _ Htrace link j Hj) as Hjob.
  pose proof (inv_after _ _ _ Htrace link j Hj) as Hafter.
  pose proof (inv_fetch _ _ _ Htrace link) as Hfetch.
  destruct (job_step w base_url link j (shared p)) as [j' st'] eqn:Hstep.
  cbn [fst snd] in *.
  assert (requested st' = requested (shared p) ∨ j = JFetch) as Hreq.
  { destruct Htr as [(_ & _ & _ & ->) | [(-> & _) | (_ & _ & _ & _ & _ & _ & ->)]]; auto. }
  assert (j = JFetch → requested st' = requested (shared p) ++ [link]) as Hreq'.
  { intros ->. by destruct Htr as [(? & _) | [(_ & _ & _ & _ & ->) | (_ & ? & _)]]. }
  assert (∀ l c v rest, <[link := j']> (jobs p) !! l = Some (JCountStore c v rest) →
                        (l = link ∧ j = JCountRead c rest
                         ∧ j' = JCountStore c v rest
                         ∧ v = counter_get (keyword_counter (shared p)) c)
                        ∨ (l ≠ link ∧ jobs p !! l = Some (JCountStore c v rest)))
    as Hstores.
  { intros l c v rest Hl. apply lookup_insert_Some in Hl as [[<- ->] | [Hne Hl]]; [| by right].
    left. by destruct Hto as [-> ->]. }
  clear Htr. unfold count_inv. cbn [shared jobs].
  destruct j as [| | | | |text|text|s rest text|s rest text|c rest|c v rest|].
  (* the steps that leave the requests, the tally and the pending increments *)
  1-3, 5-9, 12:
    (destruct Hreq as [Hreq | ?]; [| done]; rewrite Hreq, Hk;
     assert (pending_increments (Some j') = pending_increments (jobs p !! link)) as Hsame
       by (rewrite Hj; injection Hstep as <- <-;
           rewrite ?pending_mission_next, ?pending_count_next;
           repeat (match goal with |- context [if ?b then _ else _] => destruct b end);
           rewrite ?pending_count_next; done);
     rewrite Hj in Hsame;
     split; [| split];
     [ intros key; rewrite Hkeys; split; intros (url & Hurl & Hpos); exists url;
       (split; [done |]);
       [rewrite (stored_hits_same st' link url key _ j' p Hj Hsame)
       | rewrite (stored_hits_same st' link url key _ j' p Hj Hsame) in Hpos]; done
     | intros key;
       rewrite (sum_Z_map_ext _ (stored_hits w p key));
       [apply Hbound | intros url _; by apply (stored_hits_same st' link url key _ j' p Hj)]
     | intros l c v rest' Hl;
       rewrite (sum_Z_map_ext _ (stored_hits w p c));
       [| intros url _; by apply (stored_hits_same st' link url c _ j' p Hj)];
       apply Hstores in Hl as [(_ & ? & _) | [_ Hl]]; [done | eauto] ]).
  - (* the request *)
    rewrite (Hreq' eq_refl), Hk. pose proof (Hfetch Hj) as Hfresh.
    assert (∀ key, stored_hits w (mkPool st' (queue p) (<[link := j']> (jobs p))) key link
                   = 0%Z) as Hzero.
    { intros key. rewrite stored_hits_self.
      apply job_step_from_fetch in Hstep
        as [(text & -> & Htext) | [[-> Hnone] | (-> & _ & Hnone)]].
      - rewrite (url_hits_text link text key Htext). simpl. lia.
      - apply http_failed_unfetched, url_unfetched in Hnone as (_ & _ & ->). simpl. lia.
      - apply url_unfetched in Hnone as (_ & _ & ->). simpl. lia. }
    assert (∀ key, sum_Z (map (stored_hits w (mkPool st' (queue p) (<[link := j']> (jobs p)))
                                           key)
                              (requested (shared p) ++ [link]))
                   = sum_Z (map (stored_hits w p key) (requested (shared p)))) as Hsum.
    { intros key. rewrite map_app, sum_Z_app. simpl. rewrite Hzero.
      rewrite (sum_Z_map_ext _ (stored_hits w p key)); [lia |].
      intros url Hurl. apply stored_hits_other. by intros ->. }
    split; [| split].
    + intros key. rewrite Hkeys. split.
      * intros (url & Hurl & Hpos). exists url. split; [apply in_app_iff; by left |].
        rewrite stored_hits_other; [done |]. by intros ->.
      * intros (url & Hurl & Hpos).
        destruct (decide (url = link)) as [-> | Hne]; [rewrite Hzero in Hpos; lia |].
        rewrite stored_hits_other in Hpos by done.
        apply in_app_iff in Hurl as [Hurl | [<- | []]]; [eauto | done].
    + intros key. rewrite Hsum. apply Hbound.
    + intros l c v rest Hl. rewrite Hsum.
      apply Hstores in Hl as [(_ & ? & _) | [_ Hl]]; [done | eauto].
  - (* the read of a count *)
    destruct Hreq as [Hreq | ?]; [| done]. rewrite Hreq, Hk.
    injection Hstep as <- <-.
    assert (∀ key url,
              stored_hits w (mkPool (shared p) (queue p)
                               (<[link := JCountStore c
                                            (counter_get (keyword_counter (shared p)) c)
                                            rest]> (jobs p))) key url
              = stored_hits w p key url) as Hsame.
    { intros key url. by apply (stored_hits_same _ link url key (JCountRead c rest)). }
    split; [| split].
    + intros key. rewrite Hkeys.
      split; intros (url & Hurl & Hpos); exists url; (split; [done |]);
        [rewrite Hsame | rewrite Hsame in Hpos]; done.
    + intros key. rewrite (sum_Z_map_ext _ (stored_hits w p key)) by (intros; apply Hsame).
      apply Hbound.
    + intros l c' v' rest' Hl.
      rewrite (sum_Z_map_ext _ (stored_hits w p c')) by (intros; apply Hsame).
      apply Hstores in Hl as [(_ & [= <- <-] & _ & ->) | [_ Hl]]; [apply Hbound | eauto].
  - (* the store of a count *)
    destruct Hreq as [Hreq | ?]; [| done]. rewrite Hreq, Hk.
    injection Hstep as <- <-.
    pose proof (Hafter eq_refl) as Hlink.
    destruct Hjob as (text & Htext & Hsuffix).
    set (p' := mkPool (set_keyword_counter
                         (fun c0 => counter_set c0 c (v + 1)%Z) (shared p))
                      (queue p) (<[link := count_next rest]> (jobs p))).
    assert (∀ key url, (stored_hits w p key url <= stored_hits w p' key url)%Z) as Hmono.
    { intros key url. destruct (decide (url = link)) as [-> | Hne].
      - unfold p'. rewrite stored_hits_self, pending_count_next.
        unfold stored_hits. rewrite Hj. simpl. destruct (string_dec c key); lia.
      - unfold p'. rewrite stored_hits_other by done. lia. }
    assert (∀ key url, key ≠ c → stored_hits w p' key url = stored_hits w p key url)
      as Hother.
    { intros key url Hkey. destruct (decide (url = link)) as [-> | Hne].
      - unfold p'. rewrite stored_hits_self, pending_count_next.
        unfold stored_hits. rewrite Hj. simpl.
        destruct (string_dec c key) as [<- | _]; [done | lia].
      - unfold p'. by rewrite stored_hits_other. }
    assert (stored_hits w p' c link = (stored_hits w p c link + 1)%Z) as Hself.
    { unfold p'. rewrite stored_hits_self, pending_count_next.
      unfold stored_hits. rewrite Hj. simpl.
      destruct (string_dec c c) as [_ | Hne]; [lia | done]. }
    assert (0 < stored_hits w p' c link)%Z as Hpos.
    { unfold p'. rewrite stored_hits_self, pending_count_next.
      rewrite (url_hits_text link text c Htext).
      pose proof (count_occ_suffix _ _ c Hsuffix) as Hle. simpl in Hle.
      destruct (string_dec c c) as [_ | Hne]; [lia | done]. }
    fold p'. split; [| split].
    + intros key. split.
      * intros Hkey. apply counter_keys_set_inv in Hkey as [Hkey | ->].
        -- apply Hkeys in Hkey as (url & Hurl & Hp). exists url. split; [done |].
           pose proof (Hmono key url). lia.
        -- exists link. done.
      * intros (url & Hurl & Hp).
        destruct (string_dec key c) as [-> | Hkey]; [apply counter_keys_set_self |].
        apply counter_keys_set, Hkeys. exists url. split; [done |].
        by rewrite <- (Hother key url Hkey).
    + intros key. simpl. rewrite counter_get_set.
      destruct (String.eqb c key) eqn:Heq.
      * apply String.eqb_eq in Heq as <-.
        pose proof (Hstore link c v rest Hj).
        assert (sum_Z (map (stored_hits w p c) (requested (shared p))) + 1
                <= sum_Z (map (stored_hits w p' c) (requested (shared p))))%Z; [| lia].
        apply (sum_Z_map_lt _ _ _ link); [done | intros; apply Hmono | lia].
      * apply String.eqb_neq in Heq.
        rewrite (sum_Z_map_ext _ (stored_hits w p key)); [apply Hbound |].
        intros url _. apply Hother. congruence.
    + intros l c' v' rest' Hl.
      apply Hstores in Hl as [(_ & ? & _) | [_ Hl]]; [done |].
      pose proof (Hstore l c' v' rest' Hl).
      assert (sum_Z (map (stored_hits w p c') (requested (shared p)))
              <= sum_Z (map (stored_hits w p' c') (requested (shared p))))%Z; [| lia].
      apply sum_Z_map_le. intros; apply Hmono.
Qed.

Lemma count_inv_start (links : list string) (html : string) :
  fetched_text w base_url = Some (get_text w html) →
  count_inv w (start_pool links (before_pool w base_url html)).
Proof.
  intros Hseed.
  set (p := start_pool links (before_pool w base_url html)).
  assert (∀ key url, stored_hits w p key url = url_hits w key url) as Hstored.
  { intros key url. unfold stored_hits.
    destruct (jobs p !! url) as [j|] eqn:Hj; [| simpl; lia].
    apply start_pool_jobs in Hj as [_ ->]. simpl. lia. }
  assert (∀ key, counter_get (keyword_counter (shared p)) key = url_hits w key base_url)
    as Hget.
  { intros key. change (keyword_counter (shared p)) with (count_text (get_text w html) []).
    rewrite count_text_hits. unfold url_hits. rewrite Hseed. simpl. lia. }
  destruct (tally_inv_start w base_url links html) as (Hok & _).
  split; [| split].
  - intros key. split.
    + intros Hkey. exists base_url. split; [by left |].
      rewrite Hstored, <- Hget. by apply tally_ok_key_pos.
    + intros (url & [<- | []] & Hpos). rewrite Hstored, <- Hget in Hpos.
      by apply counter_get_pos_key.
  - intros key. change (requested (shared p)) with [base_url]. simpl.
    rewrite Hstored, Hget. lia.
  - intros link c v rest Hj. by apply start_pool_jobs in Hj as [_ ?].
Qed.

End CountInvariant.

(** ** The state in which a crawl ends *)

Section CrawlResults.

Context (w : world) (base_url : string).

Lemma crawl_invariants (links : gset string) (schedule : list string) :
  seed_body w base_url ≠ "" →
  let p := crawl_pool w base_url (seed_body w base_url) links schedule in
  (contacts_inv w p ∧ printed_inv w p ∧ count_inv w p)
  ∧ (contacts_inv w (join w base_url p) ∧ printed_inv w (join w base_url p)
     ∧ count_inv w (join w base_url p)).
Proof.
  intros Hseed. cbv zeta.
  destruct (seed_body_loaded w base_url Hseed) as (Hget & _ & Htext).
  unfold crawl_pool.
  destruct (pool_induction_trace w base_url
              (fun p => contacts_inv w p ∧ printed_inv w p ∧ count_inv w p))
    with (p := start_pool (iterate w links) (before_pool w base_url (seed_body w base_url)))
    as (Hrun & _ & Hjoin).
  - intros link p Htrace (Hc & Hp & Hk).
    split; [by apply (contacts_inv_step w base_url) |].
    split; [by apply (printed_inv_step w base_url) | by apply (count_inv_step w base_url)].
  - apply (crawl_pool_trace w base_url [] (seed_body w base_url) links).
  - split; [by apply contacts_inv_start |].
    split; [apply printed_inv_start; congruence | by apply count_inv_start].
  - split; [apply Hrun | apply Hjoin].
Qed.

(** The state after the wait, in terms of the URLs that were requested. *)
Lemma crawl_final (links : gset string) (schedule : list string) :
  seed_body w base_url ≠ "" →
  let st := shared (join w base_url
                      (crawl_pool w base_url (seed_body w base_url) links schedule)) in
  (∀ url, url ∈ visited st ↔ In url (requested st))
  ∧ NoDup (requested st)
  ∧ In base_url (requested st)
  ∧ (∀ url, In url (requested st) → url = base_url ∨ url ∈ links)
  ∧ submitted st = iterate w links
  ∧ (∀ email, email ∈ emails st
              ↔ ∃ url, In url (requested st) ∧ In email (url_emails w url))
  ∧ (∀ phone, phone ∈ phones st
              ↔ ∃ url, In url (requested st) ∧ In phone (url_phones w url))
  ∧ NoDup (printed st)
  ∧ (∀ m, In m (printed st)
          ↔ ∃ url, m = HttpRequestError url ∧ In url (requested st)
                   ∧ http_get w url = None)
  ∧ (∀ key, In key (counter_keys (keyword_counter st))
            ↔ ∃ url, In url (requested st) ∧ (0 < url_hits w key url)%Z)
  ∧ (∀ key, (counter_get (keyword_counter st) key
             <= sum_Z (map (url_hits w key) (requested st)))%Z).
Proof.
  intros Hseed.
  destruct (crawl_invariants links schedule Hseed)
    as [_ ([Hemails Hphones] & [Hnd Hprinted] & (Hkeys & Hbound & _))].
  destruct (crawl_end w base_url schedule (seed_body w base_url) links)
    as (Htrace & Hqueue & _ & Hdone & _).
  set (p := join w base_url (crawl_pool w base_url (seed_body w base_url) links schedule))
    in *.
  cbv zeta.
  assert (∀ url, jobs p !! url = Some JDone ∨ jobs p !! url = None) as Hjobs.
  { intros url. destruct (jobs p !! url) as [j|] eqn:Hj; [| by right].
    left. by rewrite (Hdone url j Hj). }
  assert (∀ key url, stored_hits w p key url = url_hits w key url) as Hstored.
  { intros key url. unfold stored_hits.
    destruct (Hjobs url) as [-> | ->]; simpl; lia. }
  split.
  { intros url. rewrite (inv_visited _ _ _ Htrace).
    destruct (Hjobs url) as [-> | ->]; split; intros; try tauto;
      destruct H as [? | ?]; done. }
  split; [apply (inv_once _ _ _ Htrace) |].
  split; [apply (inv_seed _ _ _ Htrace) |].
  split.
  { intros url Hurl. destruct (inv_links _ _ _ Htrace url Hurl) as [-> | Hin]; [by left |].
    right. rewrite Hqueue in Hin. by apply iterate_In in Hin. }
  split; [by rewrite (inv_submitted _ _ _ Htrace) |].
  split.
  { intros email. rewrite Hemails. split.
    - intros (url & Hurl & _ & Hin). eauto.
    - intros (url & Hurl & Hin). exists url. split; [done |]. split; [| done].
      by destruct (Hjobs url) as [-> | ->]. }
  split.
  { intros phone. rewrite Hphones. split.
    - intros (url & Hurl & _ & Hin). eauto.
    - intros (url & Hurl & Hin). exists url. split; [done |]. split; [| done].
      by destruct (Hjobs url) as [-> | ->]. }
  split; [done |].
  split.
  { intros m. rewrite Hprinted. split.
    - intros (url & -> & Hurl & Hget & _). eauto.
    - intros (url & -> & Hurl & Hget). exists url. split; [done |]. split; [done |].
      split; [done |]. by destruct (Hjobs url) as [-> | ->]. }
  split.
  { intros key. rewrite Hkeys.
    split; intros (url & Hurl & Hpos); exists url; (split; [done |]);
      [rewrite Hstored in Hpos | rewrite Hstored]; done. }
  intros key. rewrite <- (sum_Z_map_ext (stored_hits w p key)); [apply Hbound |].
  intros url _. apply Hstored.
Qed.

(** A job whose request fails holds no page, and none of its steps changes
    the results. *)
Lemma failed_job_step (link : string) (p : pool) :
  trace_inv w base_url p → http_get w link = None →
  same_aggregates (shared p) (shared (step_at w base_url link p))
  ∧ visited (shared (step_at w base_url link p)) ⊆ visited (shared p) ∪ {[link]}.
Proof.
  intros Htrace Hnone. unfold step_at.
  destruct (jobs p !! link) as [j|] eqn:Hj.
  2: { split; [by repeat split |]. apply union_subseteq_l. }
  destruct (job_step_aggregates w base_url link j (shared p)) as (He & Hp & Hm & Hk & _).
  destruct (job_step_trace w base_url link j (shared p)) as [_ Htr].
  pose proof (inv_job _ _ _ Htrace link j Hj) as Hjob.
  apply http_failed_unfetched in Hnone.
  destruct (job_step w base_url link j (shared p)) as [j' st']. cbn [fst snd shared] in *.
  split.
  - unfold same_aggregates. rewrite He, Hp, Hm, Hk.
    destruct j; try done; exfalso; simpl in Hjob;
      first [ congruence
            | destruct Hjob as [Hjob ?]; congruence
            | destruct Hjob as (? & Hjob & ?); congruence ].
  - destruct Htr as [(_ & _ & -> & _) | [(_ & _ & _ & -> & _) | (_ & _ & _ & _ & _ & -> & _)]];
      [done | apply union_subseteq_l | apply union_subseteq_l].
Qed.

End CrawlResults.

(** ** Jobs and requests *)

(** C1, as stated: a job exists only for a link that is unvisited and of the
    seed's origin, so two same-origin links and one cross-origin link give
    two jobs.  On such a seed page three jobs are submitted. *)
Lemma jobs_only_for_same_origin_counterexample :
  let st := snd (scrape_website site_with_outside_link "https://a.org" "out.csv" []) in
  let same_origin link := String.eqb (origin_of link) (origin_of "https://a.org") in
  find_links site_with_outside_link "home" "https://a.org"
  = Some (list_to_set ["https://a.org/x"; "https://a.org/y"; "https://b.com/z"])
  ∧ List.filter same_origin (submitted st) = ["https://a.org/x"; "https://a.org/y"]
  ∧ List.filter (fun link => negb (same_origin link)) (submitted st) = ["https://b.com/z"]
  ∧ length (submitted st) = 3
  ∧ length (submitted st) ≠ 2.
Proof. cbv zeta. repeat split; compute_done. Qed.

(** C1, amended.  When the seed page is loaded and [urljoin] accepts its
    links, one job is submitted for every discovered link, whatever the
    link; the test of the visited set is made inside the job, and the job of
    a link that is visited ends there, without a request.  Whatever the
    schedule of the jobs, no URL is requested twice, and what is requested
    is the seed URL or a discovered link.  A seed page with two links of its
    origin and one of another origin gives three jobs. *)
Theorem one_job_per_link_one_request_per_url (w : world) (base_url output_csv : string)
    (schedule : list string) (links : gset string)
    (Hseed : seed_body w base_url ≠ "")
    (Hlinks : find_links w (seed_body w base_url) base_url = Some links) :
  let st := snd (scrape_website w base_url output_csv schedule) in
  submitted st ≡ₚ elements links
  ∧ NoDup (requested st)
  ∧ In base_url (requested st)
  ∧ (∀ url, In url (requested st) → url = base_url ∨ url ∈ links)
  ∧ (∀ link st0, link ∈ visited st0 →
       job_step w base_url link JTest st0 = (JDone, st0)
       ∧ scrape_single_page w link base_url st0 = st0)
  ∧ length (submitted
              (snd (scrape_website site_with_outside_link "https://a.org" "out.csv"
                                   schedule))) = 3.
Proof.
  intros st.
  assert (∀ w' base_url' output_csv' links',
            seed_body w' base_url' ≠ "" →
            find_links w' (seed_body w' base_url') base_url' = Some links' →
            let st' := snd (scrape_website w' base_url' output_csv' schedule) in
            submitted st' = iterate w' links'
            ∧ NoDup (requested st')
            ∧ In base_url' (requested st')
            ∧ (∀ url, In url (requested st') → url = base_url' ∨ url ∈ links')) as Hcrawl.
  { intros w' base_url' output_csv' links' Hseed' Hlinks'. cbv zeta.
    rewrite (scrape_website_loaded w' base_url' output_csv' schedule links' Hseed' Hlinks').
    destruct (crawl_final w' base_url' links' schedule Hseed')
      as (_ & Hnd & Hbase & Hreq & Hsub & _).
    by destruct (can_open w' output_csv'). }
  destruct (Hcrawl w base_url output_csv links Hseed Hlinks) as (Hsub & Hnd & Hbase & Hreq).
  fold st in Hsub, Hnd, Hbase, Hreq.
  split; [rewrite Hsub; apply iterate_perm |].
  split; [done |]. split; [done |]. split; [done |].
  split.
  { intros link st0 Hvisited.
    assert (link_is_taken link base_url st0 = false) as Htaken.
    { unfold link_is_taken. by rewrite bool_decide_eq_true_2. }
    split; [simpl; by rewrite Htaken | by apply scrape_single_page_skip]. }
  destruct (Hcrawl site_with_outside_link "https://a.org" "out.csv"
              (list_to_set ["https://a.org/x"; "https://a.org/y"; "https://b.com/z"]))
    as (-> & _); [discriminate | compute_done | compute_done].
Qed.

Lemma one_job_per_link_one_request_per_url_witness :
  seed_body site_with_outside_link "https://a.org" ≠ ""
  ∧ find_links site_with_outside_link (seed_body site_with_outside_link "https://a.org")
               "https://a.org"
    = Some (list_to_set ["https://a.org/x"; "https://a.org/y"; "https://b.com/z"])
  ∧ NoDup (requested
             (snd (scrape_website site_with_outside_link "https://a.org" "out.csv"
                                  ["https://a.org/y"; "https://a.org/x"]))).
Proof.
  assert (seed_body site_with_outside_link "https://a.org" ≠ "") as Hseed
    by discriminate.
  assert (find_links site_with_outside_link (seed_body site_with_outside_link "https://a.org")
                     "https://a.org"
          = Some (list_to_set ["https://a.org/x"; "https://a.org/y"; "https://b.com/z"]))
    as Hlinks by compute_done.
  split; [exact Hseed |]. split; [exact Hlinks |].
  destruct (one_job_per_link_one_request_per_url
              site_with_outside_link "https://a.org" "out.csv"
              ["https://a.org/y"; "https://a.org/x"] _ Hseed Hlinks) as (_ & Hnd & _).
  exact Hnd.
Defined.

(** ** The cap on the mission sentences *)

(** C4.  On one page the candidates (the matches of the mission pattern that
    pass [filter_valid_sentence], stripped) are taken in ascending order of
    length, and as many of them are appended as the list has room for, so
    that [extract_information] alone never makes a list longer than three.
    In the pool the test of the length and the append are two steps: when
    two jobs test a list of two sentences before either appends, both
    append, and the crawl ends with four sentences and writes four rows;
    when the jobs run one after the other the same crawl ends with three. *)
Theorem mission_cap_exceeded_by_racing_jobs :
  (∀ (w : world) (html : string) (st : state),
     let candidates := sorted_by_len (valid_mission_sentences_of (get_text w html)) in
     Permutation candidates (valid_mission_sentences_of (get_text w html))
     ∧ StronglySorted (fun x y => String.length x ≤ String.length y) candidates
     ∧ mission_sentences (extract_information w html st)
       = mission_sentences st ++ take (3 - length (mission_sentences st)) candidates
     ∧ length (mission_sentences (extract_information w html st))
       ≤ max 3 (length (mission_sentences st)))
  ∧ (let in_turn := scrape_website site_with_missions "https://a.org" "out.csv" [] in
     length (mission_sentences (snd in_turn)) = 3)
  ∧ (let raced :=
       scrape_website site_with_missions "https://a.org" "out.csv" both_test_then_append in
     mission_sentences (snd raced)
     = ["Our mission is to feed people."; "Our mission is to shelter people.";
        "Our mission is to teach people."; "Our mission is to heal people."]
     ∧ ∃ rows, fst raced = Written rows
               ∧ length (rows_of_type "Mission Sentence" rows) = 4).
Proof.
  split.
  { intros w html st candidates. subst candidates.
    split; [apply sorted_by_len_perm |].
    split; [apply sorted_by_len_sorted |].
    split; [apply mission_sentences_extract |].
    rewrite mission_sentences_extract, length_app, length_take. lia. }
  split; [by vm_compute |].
  split; [by vm_compute |].
  eexists. split; [by vm_compute | by vm_compute].
Qed.

(** ** The keyword tally *)

(** C10.  At every moment of the pool, whatever the schedule, the keys of
    the tally are categories of the taxonomy and its counts are positive,
    and a key that is in the tally stays in it; so the tally that
    [scrape_website] ranks has only taxonomy names as keys and only positive
    counts.  A count can go down: the increment is a read and a store, and a
    job that has read 0 and is overtaken by a job that counts to 3 stores 1
    afterwards. *)
Theorem tally_keys_stay_counts_may_drop (w : world) (base_url output_csv html : string)
    (links : gset string) (schedule more : list string) :
  let tally s := keyword_counter (shared (crawl_pool w base_url html links s)) in
  let raced s :=
    keyword_counter
      (shared (crawl_pool site_with_keywords "https://a.org" "home"
                          (list_to_set ["https://a.org/x"; "https://a.org/y"]) s)) in
  tally_ok (tally schedule)
  ∧ NoDup (counter_keys (tally schedule))
  ∧ incl (counter_keys (tally schedule)) (counter_keys (tally (schedule ++ more)))
  ∧ incl (counter_keys (tally schedule))
         (counter_keys
            (keyword_counter
               (shared (join w base_url (crawl_pool w base_url html links schedule)))))
  ∧ tally_ok (keyword_counter (snd (scrape_website w base_url output_csv schedule)))
  ∧ counter_get (raced read_then_overtaken) "environment" = 3%Z
  ∧ counter_get (raced (read_then_overtaken ++ ["https://a.org/x"])) "environment" = 1%Z
  ∧ ¬ tally_grows (raced read_then_overtaken)
                  (raced (read_then_overtaken ++ ["https://a.org/x"])).
Proof.
  intros tally raced.
  destruct (tally_crawl w base_url html links schedule) as [(Hok & Hnd & _) _].
  split; [done |]. split; [done |].
  split; [intros key Hkey; by apply (keys_kept_crawl w base_url html links schedule more) |].
  split; [intros key Hkey; by apply (keys_kept_crawl w base_url html links schedule []) |].
  split; [apply ranked_tally |].
  assert (counter_get (raced read_then_overtaken) "environment" = 3%Z) as Hbefore
    by (by vm_compute).
  assert (counter_get (raced (read_then_overtaken ++ ["https://a.org/x"])) "environment"
          = 1%Z) as Hafter by (by vm_compute).
  split; [done |]. split; [done |].
  intros Hgrows. destruct (Hgrows "environment") as [_ Hle].
  rewrite Hbefore, Hafter in Hle. lia.
Qed.

(** ** Failures *)

Ltac compute_each := repeat (split; [compute_done |]); compute_done.

Lemma scrape_single_page_failure (w : world) (link base_url : string) (st : state) :
  truthy (http_get w link) = false →
  let st' := scrape_single_page w link base_url st in
  same_aggregates st st'
  ∧ visited st'
    = (if link_is_taken link base_url st then visited st ∪ {[link]} else visited st).
Proof.
  intros Hfalsy. split; [| apply scrape_single_page_trace].
  unfold scrape_single_page, fetch_page_content.
  destruct (link_is_taken link base_url st); [| by repeat split].
  destruct (http_get w link) as [[|c text]|]; simpl in *;
    [| discriminate |]; by repeat split.
Qed.

(** C8, as stated: a job whose fetch fails has no effect on the shared
    state, and nothing but an unreachable seed ends the operation.  The job
    has put its link in the visited set before it asked for the page; and
    with the seed page loaded the call ends in an exception, without a
    file, when [urljoin] refuses a link of the seed page and when the
    output file cannot be opened. *)
Lemma failed_job_leaves_state_counterexample :
  let before := crawl_pool site_with_dead_link "https://a.org" "home"
                           (list_to_set ["https://a.org/gone"]) [] in
  let after := join site_with_dead_link "https://a.org" before in
  http_get site_with_dead_link "https://a.org/gone" = None
  ∧ ("https://a.org/gone" ∉ visited (shared before))
  ∧ ("https://a.org/gone" ∈ visited (shared after))
  ∧ seed_body site_with_malformed_link "https://a.org" ≠ ""
  ∧ fst (scrape_website site_with_malformed_link "https://a.org" "out.csv" [])
    = Raised ValueError
  ∧ seed_body site_with_locked_file "https://a.org" ≠ ""
  ∧ fst (scrape_website site_with_locked_file "https://a.org" "/proc/out.csv" [])
    = Raised OSError.
Proof. cbv zeta. compute_each. Qed.

(** C8, amended.  When the seed page cannot be loaded, [scrape_website]
    prints that it cannot load the main page and returns: no file is
    written, no job is submitted and nothing has been extracted.  How the
    call ends is decided by the seed page, by what [urljoin] makes of its
    links and by the output file, for every schedule: neither the fetch of
    a link nor the order of the jobs can end it.  A step of a job whose
    fetch fails leaves the e-mails, the phones, the mission sentences and
    the tally as they were; of the shared objects only the visited set may
    differ, by the job's own link, which is added before the fetch. *)
Theorem only_seed_failure_aborts (w : world) (base_url output_csv : string)
    (schedule : list string) :
  let result := scrape_website w base_url output_csv schedule in
  let links_found := find_links w (seed_body w base_url) base_url in
  (seed_body w base_url = "" →
     fst result = Returned
     ∧ last (printed (snd result)) = Some CannotLoadMainPage
     ∧ same_aggregates initial_state (snd result)
     ∧ submitted (snd result) = []
     ∧ visited (snd result) = ∅)
  ∧ (fst result = Returned ↔ seed_body w base_url = "")
  ∧ (fst result = Raised ValueError ↔ seed_body w base_url ≠ "" ∧ links_found = None)
  ∧ (fst result = Raised OSError
     ↔ seed_body w base_url ≠ "" ∧ links_found ≠ None ∧ can_open w output_csv = false)
  ∧ ((∃ rows, fst result = Written rows)
     ↔ seed_body w base_url ≠ "" ∧ links_found ≠ None ∧ can_open w output_csv = true)
  ∧ (∀ link links steps,
       http_get w link = None →
       let p := crawl_pool w base_url (seed_body w base_url) links steps in
       same_aggregates (shared p) (shared (pool_step w base_url link p))
       ∧ visited (shared (pool_step w base_url link p)) ⊆ visited (shared p) ∪ {[link]})
  ∧ (∀ link st0,
       truthy (http_get w link) = false →
       let st1 := scrape_single_page w link base_url st0 in
       same_aggregates st0 st1
       ∧ visited st1
         = (if negb (bool_decide (link ∈ visited st0)) && str_in base_url link
            then visited st0 ∪ {[link]} else visited st0)).
Proof.
  intros result links_found.
  assert (seed_body w base_url = "" →
          fst result = Returned
          ∧ last (printed (snd result)) = Some CannotLoadMainPage
          ∧ same_aggregates initial_state (snd result)
          ∧ submitted (snd result) = []
          ∧ visited (snd result) = ∅) as Hunloaded.
  { intros Hseed. unfold result.
    rewrite (scrape_website_unloaded w base_url output_csv schedule Hseed).
    unfold fetch_page_content. simpl.
    destruct (http_get w base_url); simpl; rewrite ?last_snoc; by repeat split.
    }
  split; [exact Hunloaded |].
  assert (∀ link links steps,
            http_get w link = None →
            let p := crawl_pool w base_url (seed_body w base_url) links steps in
            same_aggregates (shared p) (shared (pool_step w base_url link p))
            ∧ visited (shared (pool_step w base_url link p))
              ⊆ visited (shared p) ∪ {[link]}) as Hsteps.
  { intros link links steps Hfail p. unfold pool_step.
    destruct (may_step link p).
    - apply (failed_job_step w base_url); [| done].
      apply (crawl_pool_trace w base_url steps _ links).
    - split; [by repeat split | apply union_subseteq_l]. }
  assert (∀ link st0,
            truthy (http_get w link) = false →
            let st1 := scrape_single_page w link base_url st0 in
            same_aggregates st0 st1
            ∧ visited st1
              = (if negb (bool_decide (link ∈ visited st0)) && str_in base_url link
                 then visited st0 ∪ {[link]} else visited st0)) as Hfunc.
  { intros link st0 Hfalsy. by apply scrape_single_page_failure. }
  cut ((fst result = Returned ↔ seed_body w base_url = "")
       ∧ (fst result = Raised ValueError
          ↔ seed_body w base_url ≠ "" ∧ links_found = None)
       ∧ (fst result = Raised OSError
          ↔ seed_body w base_url ≠ "" ∧ links_found ≠ None
            ∧ can_open w output_csv = false)
       ∧ ((∃ rows, fst result = Written rows)
          ↔ seed_body w base_url ≠ "" ∧ links_found ≠ None
            ∧ can_open w output_csv = true)).
  { intros (H1 & H2 & H3 & H4). by repeat (split; [assumption |]). }
  clear Hunloaded Hsteps Hfunc. unfold result, links_found.
  destruct (scrape_website_cases w base_url output_csv schedule)
    as [[Hseed ->] | [(Hseed & Hnone & ->) | (links & Hseed & Hsome & ->)]].
  - cbn [fst]. rewrite Hseed.
    split; [done |].
    split; [split; [done | by intros [? _]] |].
    split; [split; [done | by intros [? _]] |].
    split; [by intros [rows ?] | by intros [? _]].
  - cbn [fst]. rewrite Hnone.
    split; [split; [done | by intros] |].
    split; [done |].
    split; [split; [done | by intros (_ & ? & _)] |].
    split; [by intros [rows ?] | by intros (_ & ? & _)].
  - rewrite Hsome. destruct (can_open w output_csv); cbn [fst].
    + split; [split; [done | by intros] |].
      split; [split; [done | by intros [_ ?]] |].
      split; [split; [done | by intros (_ & _ & ?)] |].
      split; [done | eauto].
    + split; [split; [done | by intros] |].
      split; [split; [done | by intros [_ ?]] |].
      split; [done |].
      split; [by intros [rows ?] | by intros (_ & _ & ?)].
Qed.

Lemma only_seed_failure_aborts_witness :
  seed_body site_with_dead_link "https://nowhere.org" = ""
  ∧ fst (scrape_website site_with_dead_link "https://nowhere.org" "out.csv" []) = Returned
  ∧ http_get site_with_dead_link "https://a.org/gone" = None
  ∧ same_aggregates
      (shared (crawl_pool site_with_dead_link "https://a.org"
                          (seed_body site_with_dead_link "https://a.org")
                          (list_to_set ["https://a.org/gone"])
                          (repeat "https://a.org/gone" 3)))
      (shared (pool_step site_with_dead_link "https://a.org" "https://a.org/gone"
                 (crawl_pool site_with_dead_link "https://a.org"
                             (seed_body site_with_dead_link "https://a.org")
                             (list_to_set ["https://a.org/gone"])
                             (repeat "https://a.org/gone" 3)))).
Proof.
  assert (seed_body site_with_dead_link "https://nowhere.org" = "") as Hseed
    by reflexivity.
  assert (http_get site_with_dead_link "https://a.org/gone" = None) as Hfail
    by reflexivity.
  split; [exact Hseed |]. split.
  - destruct (only_seed_failure_aborts site_with_dead_link "https://nowhere.org" "out.csv" [])
      as (Hunloaded & _).
    destruct (Hunloaded Hseed) as [Hreturned _]. exact Hreturned.
  - split; [exact Hfail |].
    destruct (only_seed_failure_aborts site_with_dead_link "https://a.org" "out.csv" [])
      as (_ & _ & _ & _ & _ & Hstep & _).
    destruct (Hstep "https://a.org/gone" (list_to_set ["https://a.org/gone"])
                    (repeat "https://a.org/gone" 3) Hfail) as [Hsame _].
    exact Hsame.
Defined.

(** ** The wait for the jobs, and what the jobs do to the shared objects *)

(** C9.  When the seed page is loaded and its links are resolved, the rows
    of the report are computed from the shared state after the wait at the
    end of the [with] block: every job is done then, whatever the schedule,
    and a further step of any job would change nothing.  No mark of the
    visited set and no insertion into the sets of contacts is lost: every
    requested URL is visited and requested once, and every contact of a
    requested page is in the sets.  The increment of a count is not
    atomic: it is a read and a store, and in a crawl of two pages with four
    trigger hits, where the job of the first page reads before, and stores
    after, the three increments of the other job, the count ends as 1;
    with the jobs in turn it ends as 4. *)
Theorem jobs_joined_but_increments_lost (w : world) (base_url output_csv : string)
    (schedule : list string) (links : gset string)
    (Hseed : seed_body w base_url ≠ "")
    (Hlinks : find_links w (seed_body w base_url) base_url = Some links) :
  let p := run_jobs w base_url links schedule
                    (before_pool w base_url (seed_body w base_url)) in
  let result := scrape_website w base_url output_csv schedule in
  (∀ link, link ∈ links → jobs p !! link = Some JDone)
  ∧ (∀ link, step_at w base_url link p = p)
  ∧ same_aggregates (shared p) (snd result)
  ∧ visited (snd result) = visited (shared p)
  ∧ (∀ rows, fst result = Written rows → rows = csv_rows w (shared p))
  ∧ (∀ url, In url (requested (shared p)) → url ∈ visited (shared p))
  ∧ NoDup (requested (shared p))
  ∧ (∀ url contact,
       In url (requested (shared p)) →
       (In contact (url_emails w url) → contact ∈ emails (shared p))
       ∧ (In contact (url_phones w url) → contact ∈ phones (shared p)))
  ∧ (let lost := snd (scrape_website site_with_keywords "https://a.org" "out.csv"
                                     store_after_overtaken) in
     sum_Z (map (url_hits site_with_keywords "environment") (requested lost)) = 4%Z
     ∧ counter_get (keyword_counter lost) "environment" = 1%Z)
  ∧ (let in_turn := snd (scrape_website site_with_keywords "https://a.org" "out.csv" []) in
     counter_get (keyword_counter in_turn) "environment" = 4%Z).
Proof.
  intros p result.
  destruct (crawl_end w base_url schedule (seed_body w base_url) links)
    as (_ & _ & Hdone & _ & Hstill).
  destruct (crawl_final w base_url links schedule Hseed)
    as (Hvisited & Hnd & _ & _ & _ & Hemails & Hphones & _).
  change (join w base_url (crawl_pool w base_url (seed_body w base_url) links schedule))
    with p in *.
  assert (result = if can_open w output_csv
                   then (Written (csv_rows w (shared p)),
                         set_printed (fun l => l ++ [SavedTo output_csv]) (shared p))
                   else (Raised OSError, shared p)) as Hresult.
  { unfold result. by rewrite (scrape_website_loaded w base_url output_csv schedule links). }
  split; [exact Hdone |]. split; [exact Hstill |].
  split; [rewrite Hresult; by destruct (can_open w output_csv) |].
  split; [rewrite Hresult; by destruct (can_open w output_csv) |].
  split.
  { intros rows. rewrite Hresult. destruct (can_open w output_csv); simpl; congruence. }
  split; [intros url Hurl; by apply Hvisited |].
  split; [exact Hnd |].
  split.
  { intros url contact Hurl. split; intros Hin; [apply Hemails | apply Hphones]; eauto. }
  split; [split; by vm_compute | by vm_compute].
Qed.

Lemma jobs_joined_but_increments_lost_witness :
  seed_body site_with_keywords "https://a.org" ≠ ""
  ∧ find_links site_with_keywords (seed_body site_with_keywords "https://a.org")
               "https://a.org"
    = Some (list_to_set ["https://a.org/x"; "https://a.org/y"])
  ∧ jobs (run_jobs site_with_keywords "https://a.org"
                   (list_to_set ["https://a.org/x"; "https://a.org/y"])
                   store_after_overtaken
                   (before_pool site_with_keywords "https://a.org"
                                (seed_body site_with_keywords "https://a.org")))
    !! "https://a.org/y" = Some JDone.
Proof.
  assert (seed_body site_with_keywords "https://a.org" ≠ "") as Hseed by discriminate.
  assert (find_links site_with_keywords (seed_body site_with_keywords "https://a.org")
                     "https://a.org"
          = Some (list_to_set ["https://a.org/x"; "https://a.org/y"])) as Hlinks
    by compute_done.
  split; [exact Hseed |]. split; [exact Hlinks |].
  destruct (jobs_joined_but_increments_lost site_with_keywords "https://a.org" "out.csv"
              store_after_overtaken _ Hseed Hlinks) as (Hdone & _).
  apply Hdone. compute_done.
Defined.

(** * Further properties of the crawl *)

(** ** What is reported as a mission sentence *)

(** X3.  Every mission sentence that a crawl ends with, whatever the
    schedule of the jobs, is stripped and passes [filter_valid_sentence] as
    it stands: it has between 10 and 200 characters and none of the
    blacklisted phrases. *)
Theorem reported_mission_sentences_valid (w : world) (base_url output_csv : string)
    (schedule : list string) (m : string) :
  In m (mission_sentences (snd (scrape_website w base_url output_csv schedule))) →
  strip m = m
  ∧ 10 ≤ String.length m ≤ 200
  ∧ Forall (fun phrase => str_in phrase (lower m) = false) common_invalid_phrases.
Proof.
  intros Hin.
  assert (Forall (fun m => strip m = m
                   ∧ filter_valid_sentence m default_min_length default_max_length = true)
            (mission_sentences (snd (scrape_website w base_url output_csv schedule))))
    as Hall.
  { apply mission_scrape_website. intros text sentence Hs.
    pose proof (valid_mission_sentences_valid text) as Hvalid.
    rewrite List.Forall_forall in Hvalid. destruct (Hvalid sentence Hs) as [Hstripped ?].
    rewrite Hstripped. by split. }
  rewrite List.Forall_forall in Hall. destruct (Hall m Hin) as [Hstrip Hvalid].
  split; [done |].
  unfold filter_valid_sentence, default_min_length, default_max_length in Hvalid.
  rewrite Hstrip in Hvalid.
  destruct (String.length m <? 10) eqn:Hmin; [done |].
  destruct (200 <? String.length m) eqn:Hmax; [done |].
  apply Nat.ltb_ge in Hmin, Hmax. split; [lia |].
  cbn [orb] in Hvalid.
  destruct (existsb (fun phrase => str_in phrase (lower m)) common_invalid_phrases)
    eqn:Hex; [done |].
  apply List.Forall_forall. intros phrase Hphrase.
  destruct (str_in phrase (lower m)) eqn:Hp; [| done].
  assert (existsb (fun phrase => str_in phrase (lower m)) common_invalid_phrases = true)
    as Hyes by (apply existsb_exists; eauto).
  congruence.
Qed.

Lemma reported_mission_sentences_valid_witness :
  In "Our mission is to protect wildlife."
     (mission_sentences
        (snd (scrape_website site_with_mission "https://a.org" "out.csv"
                             ["https://a.org/about"])))
  ∧ 10 ≤ String.length "Our mission is to protect wildlife." ≤ 200.
Proof.
  assert (In "Our mission is to protect wildlife."
            (mission_sentences
               (snd (scrape_website site_with_mission "https://a.org" "out.csv"
                                    ["https://a.org/about"]))))
    as Hin by (vm_compute; by left).
  split; [exact Hin |].
  apply (reported_mission_sentences_valid site_with_mission "https://a.org" "out.csv"
           ["https://a.org/about"] "Our mission is to protect wildlife." Hin).
Defined.

(** X15.  Every mission sentence that a crawl ends with, whatever the
    schedule of the jobs, contains the word "mission", in whatever letter
    case, and ends with one of the characters [.], [!] and [?]. *)
Theorem reported_mission_sentences_shape (w : world) (base_url output_csv : string)
    (schedule : list string) (m : string)
    (Hin : In m (mission_sentences (snd (scrape_website w base_url output_csv schedule)))) :
  str_in "mission" (lower m) = true ∧ ends_with_terminal m = true.
Proof.
  revert m Hin. apply List.Forall_forall.
  apply (mission_scrape_website w base_url
           (fun m => str_in "mission" (lower m) = true ∧ ends_with_terminal m = true)).
  intros text sentence Hs.
  pose proof (valid_mission_sentences_stripped text) as Hstripped.
  rewrite List.Forall_forall in Hstripped. rewrite (Hstripped sentence Hs).
  unfold valid_mission_sentences_of in Hs.
  apply in_map_iff in Hs as (s & <- & Hs).
  apply filter_In in Hs as [Hs _].
  apply findall_sound in Hs as (pre & post & _ & Hs).
  apply mission_match in Hs as [Hword Hend].
  split; [| by apply strip_terminal].
  by rewrite str_in_lower_strip.
Qed.

Lemma reported_mission_sentences_shape_witness :
  In "Is the mission of the school clear?"
     (mission_sentences
        (snd (scrape_website site_with_mission "https://a.org" "out.csv"
                             ["https://a.org/about"])))
  ∧ ends_with_terminal "Is the mission of the school clear?" = true.
Proof.
  assert (In "Is the mission of the school clear?"
            (mission_sentences
               (snd (scrape_website site_with_mission "https://a.org" "out.csv"
                                    ["https://a.org/about"]))))
    as Hin by (vm_compute; right; by left).
  split; [exact Hin |].
  apply (reported_mission_sentences_shape site_with_mission "https://a.org" "out.csv"
           ["https://a.org/about"] "Is the mission of the school clear?" Hin).
Defined.

(** ** What a crawl gathers *)

(** X7.  When the seed page is loaded, the visited set at the end of the
    crawl is the set of the URLs that were requested, whatever the schedule
    of the jobs; when it is not, the seed URL has been requested and the
    visited set is empty. *)
Theorem visited_are_the_requested (w : world) (base_url output_csv : string)
    (schedule : list string) (url : string) :
  let st := snd (scrape_website w base_url output_csv schedule) in
  (url ∈ visited st ↔ truthy (http_get w base_url) = true ∧ In url (requested st))
  ∧ In base_url (requested st).
Proof.
  cbv zeta.
  destruct (scrape_website_cases w base_url output_csv schedule)
    as [[Hseed ->] | [(Hseed & _ & ->) | (links & Hseed & _ & ->)]].
  - destruct (seed_body_unloaded w base_url Hseed) as [-> _].
    unfold fetch_page_content. destruct (http_get w base_url); simpl.
    + split; [| by left]. rewrite elem_of_empty. split; [done | by intros [? _]].
    + split; [| by left]. rewrite elem_of_empty. split; [done | by intros [? _]].
  - destruct (seed_body_loaded w base_url Hseed) as (_ & -> & _). simpl.
    split; [| by left].
    rewrite union_empty_l_L, elem_of_singleton. split; [intros ->; auto |].
    by intros [_ [<- | []]].
  - destruct (seed_body_loaded w base_url Hseed) as (_ & -> & _).
    destruct (crawl_final w base_url links schedule Hseed) as (Hvisited & _ & Hbase & _).
    destruct (can_open w output_csv); simpl; (split; [| done]);
      rewrite Hvisited; tauto.
Qed.

(** X8.  Unless [find_links] raises, the e-mails and the phones at the end
    of a crawl are exactly the valid candidates of the texts of the pages
    that were requested and delivered a non-empty body, whatever the
    schedule of the jobs: nothing else gets in and none of them is lost.
    When [find_links] raises, nothing has been collected. *)
Theorem contacts_come_from_requested_pages (w : world) (base_url output_csv : string)
    (schedule : list string) (contact : string) :
  let result := scrape_website w base_url output_csv schedule in
  let st := snd result in
  (fst result ≠ Raised ValueError →
     (contact ∈ emails st
      ↔ ∃ url text, In url (requested st) ∧ fetched_text w url = Some text
                    ∧ In contact (findall email_pattern text)
                    ∧ valid_email contact = true)
     ∧ (contact ∈ phones st
        ↔ ∃ url text, In url (requested st) ∧ fetched_text w url = Some text
                      ∧ In contact (findall phone_pattern text)
                      ∧ valid_phone contact = true))
  ∧ (fst result = Raised ValueError → emails st = ∅ ∧ phones st = ∅).
Proof.
  cbv zeta.
  assert (∀ url, In contact (url_emails w url)
                 ↔ ∃ text, fetched_text w url = Some text
                           ∧ In contact (findall email_pattern text)
                           ∧ valid_email contact = true) as Hemail.
  { intros url. unfold url_emails, valid_emails_of.
    destruct (fetched_text w url) as [text|].
    - rewrite filter_In. split; [intros [? ?]; eauto |].
      by intros (text' & [= <-] & ? & ?).
    - split; [done | by intros (? & ? & _)]. }
  assert (∀ url, In contact (url_phones w url)
                 ↔ ∃ text, fetched_text w url = Some text
                           ∧ In contact (findall phone_pattern text)
                           ∧ valid_phone contact = true) as Hphone.
  { intros url. unfold url_phones, valid_phones_of.
    destruct (fetched_text w url) as [text|].
    - rewrite filter_In. split; [intros [? ?]; eauto |].
      by intros (text' & [= <-] & ? & ?).
    - split; [done | by intros (? & ? & _)]. }
  destruct (scrape_website_cases w base_url output_csv schedule)
    as [[Hseed ->] | [(Hseed & _ & ->) | (links & Hseed & _ & ->)]].
  - destruct (seed_body_unloaded w base_url Hseed) as [_ Hnone].
    split; [intros _ | done].
    assert (∀ st, requested st = [base_url] → emails st = ∅ → phones st = ∅ →
                  (contact ∈ emails st
                   ↔ ∃ url text, In url (requested st) ∧ fetched_text w url = Some text
                                 ∧ In contact (findall email_pattern text)
                                 ∧ valid_email contact = true)
                  ∧ (contact ∈ phones st
                     ↔ ∃ url text, In url (requested st) ∧ fetched_text w url = Some text
                                   ∧ In contact (findall phone_pattern text)
                                   ∧ valid_phone contact = true)) as Hempty.
    { intros st -> -> ->. rewrite !elem_of_empty.
      split; (split; [done |]); intros (url & text & [<- | []] & Htext & _); congruence. }
    unfold fetch_page_content. destruct (http_get w base_url); by apply Hempty.
  - by split.
  - split; [intros _ | by destruct (can_open w output_csv)].
    destruct (crawl_final w base_url links schedule Hseed)
      as (_ & _ & _ & _ & _ & Hemails & Hphones & _).
    assert (∀ st, emails st = emails (shared (join w base_url
                      (crawl_pool w base_url (seed_body w base_url) links schedule))) →
                  phones st = phones (shared (join w base_url
                      (crawl_pool w base_url (seed_body w base_url) links schedule))) →
                  requested st = requested (shared (join w base_url
                      (crawl_pool w base_url (seed_body w base_url) links schedule))) →
                  (contact ∈ emails st
                   ↔ ∃ url text, In url (requested st) ∧ fetched_text w url = Some text
                                 ∧ In contact (findall email_pattern text)
                                 ∧ valid_email contact = true)
                  ∧ (contact ∈ phones st
                     ↔ ∃ url text, In url (requested st) ∧ fetched_text w url = Some text
                                   ∧ In contact (findall phone_pattern text)
                                   ∧ valid_phone contact = true)) as Hst.
    { intros st -> -> ->. rewrite Hemails, Hphones. split.
      - split.
        + intros (url & Hurl & Hin). apply Hemail in Hin as (text & ? & ? & ?).
          exists url, text. done.
        + intros (url & text & Hurl & ? & ? & ?). exists url. split; [done |].
          apply Hemail. eauto.
      - split.
        + intros (url & Hurl & Hin). apply Hphone in Hin as (text & ? & ? & ?).
          exists url, text. done.
        + intros (url & text & Hurl & ? & ? & ?). exists url. split; [done |].
          apply Hphone. eauto. }
    destruct (can_open w output_csv); by apply Hst.
Qed.

Lemma contacts_come_from_requested_pages_witness :
  fst (scrape_website site_with_mission "https://a.org" "out.csv" ["https://a.org/about"])
  ≠ Raised ValueError
  ∧ ("555-1234"
     ∈ phones (snd (scrape_website site_with_mission "https://a.org" "out.csv"
                                   ["https://a.org/about"]))
     ↔ ∃ url text,
         In url (requested (snd (scrape_website site_with_mission "https://a.org" "out.csv"
                                                ["https://a.org/about"])))
         ∧ fetched_text site_with_mission url = Some text
         ∧ In "555-1234" (findall phone_pattern text)
         ∧ valid_phone "555-1234" = true).
Proof.
  assert (fst (scrape_website site_with_mission "https://a.org" "out.csv"
                              ["https://a.org/about"])
          ≠ Raised ValueError) as Hends by (vm_compute; discriminate).
  split; [exact Hends |].
  destruct (contacts_come_from_requested_pages site_with_mission "https://a.org" "out.csv"
              ["https://a.org/about"] "555-1234") as [Hcontacts _].
  destruct (Hcontacts Hends) as [_ Hphones]. exact Hphones.
Defined.

(** X9.  At the end of a crawl, whatever the schedule of the jobs, the
    count of a key is at most the sum, over the URLs requested, of the hits
    of their pages' accepted sentences: increments can be lost, none is
    invented.  A key that is in the tally has a count of at least one and
    some requested page has a hit for it; and unless [find_links] raises,
    every key that some requested page has a hit for is in the tally. *)
Theorem counts_bounded_by_hits_of_requested_pages (w : world)
    (base_url output_csv : string) (schedule : list string) (key : string) :
  let result := scrape_website w base_url output_csv schedule in
  let st := snd result in
  (counter_get (keyword_counter st) key
   <= sum_Z (map (url_hits w key) (requested st)))%Z
  ∧ (In key (counter_keys (keyword_counter st)) →
       (1 <= counter_get (keyword_counter st) key)%Z
       ∧ ∃ url, In url (requested st) ∧ (0 < url_hits w key url)%Z)
  ∧ (fst result ≠ Raised ValueError →
       (∃ url, In url (requested st) ∧ (0 < url_hits w key url)%Z) →
       In key (counter_keys (keyword_counter st))).
Proof.
  cbv zeta.
  destruct (ranked_tally w base_url output_csv schedule) as [Hok _].
  assert (∀ st : state, tally_ok (keyword_counter st) →
                        In key (counter_keys (keyword_counter st)) →
                        (1 <= counter_get (keyword_counter st) key)%Z) as Hone.
  { intros st Hst Hkey. destruct (tally_ok_key_pos _ key Hst Hkey). lia. }
  specialize (Hone _ Hok). revert Hone. clear Hok.
  destruct (scrape_website_cases w base_url output_csv schedule)
    as [[Hseed ->] | [(Hseed & _ & ->) | (links & Hseed & _ & ->)]].
  - destruct (seed_body_unloaded w base_url Hseed) as [_ Hnone].
    apply url_unfetched in Hnone as (_ & _ & Hzero).
    intros _. unfold fetch_page_content.
    destruct (http_get w base_url); simpl; rewrite Hzero;
      (split; [lia |]); (split; [done |]);
      intros _ (url & [<- | []] & Hpos); rewrite Hzero in Hpos; lia.
  - intros _. simpl. pose proof (url_hits_nonneg w key base_url).
    split; [lia |]. by split.
  - intros Hone.
    destruct (crawl_final w base_url links schedule Hseed)
      as (_ & _ & _ & _ & _ & _ & _ & _ & _ & Hkeys & Hbound).
    destruct (can_open w output_csv); simpl in *;
      (split; [apply Hbound |]);
      (split; [intros Hkey; split; [by apply Hone | by apply Hkeys] |]);
      intros _ Hurl; by apply Hkeys.
Qed.

Lemma counts_bounded_by_hits_of_requested_pages_witness :
  In "environment"
     (counter_keys
        (keyword_counter
           (snd (scrape_website site_with_keywords "https://a.org" "out.csv"
                                store_after_overtaken))))
  ∧ (1 <= counter_get
            (keyword_counter
               (snd (scrape_website site_with_keywords "https://a.org" "out.csv"
                                    store_after_overtaken)))
            "environment")%Z.
Proof.
  assert (In "environment"
            (counter_keys
               (keyword_counter
                  (snd (scrape_website site_with_keywords "https://a.org" "out.csv"
                                       store_after_overtaken))))) as Hkey
    by (vm_compute; by left).
  split; [exact Hkey |].
  destruct (counts_bounded_by_hits_of_requested_pages site_with_keywords "https://a.org"
              "out.csv" store_after_overtaken "environment") as (_ & Hpresent & _).
  destruct (Hpresent Hkey) as [Hone _]. exact Hone.
Defined.

(** X10.  What a crawl prints, whatever the schedule of the jobs: one error
    line for each requested URL whose request raised an exception and none
    for the others, in the order in which the jobs come to print them; the
    line that says that the main page cannot be loaded exactly when the
    call returns for that reason, and the line that says that the file was
    saved exactly when it was written; either of the two is the last
    line. *)
Theorem printed_lines (w : world) (base_url output_csv : string)
    (schedule : list string) :
  let result := scrape_website w base_url output_csv schedule in
  let st := snd result in
  NoDup (printed st)
  ∧ (∀ url, In (HttpRequestError url) (printed st)
            ↔ In url (requested st) ∧ http_get w url = None)
  ∧ (In CannotLoadMainPage (printed st) ↔ fst result = Returned)
  ∧ (∀ path, In (SavedTo path) (printed st)
             ↔ path = output_csv ∧ ∃ rows, fst result = Written rows)
  ∧ (fst result = Returned → last (printed st) = Some CannotLoadMainPage)
  ∧ ((∃ rows, fst result = Written rows) → last (printed st) = Some (SavedTo output_csv)).
Proof.
  cbv zeta.
  destruct (scrape_website_cases w base_url output_csv schedule)
    as [[Hseed ->] | [(Hseed & _ & ->) | (links & Hseed & _ & ->)]].
  - unfold fetch_page_content.
    destruct (http_get w base_url) as [content|] eqn:Hget; simpl.
    + split; [apply NoDup_singleton |].
      split.
      { intros url. split; [by intros [? | []] |]. intros [[<- | []] ?]. congruence. }
      split; [split; [done | intros _; by left] |].
      split; [intros path; split; [by intros [? | []] | by intros [_ [rows ?]]] |].
      split; [done | by intros [rows ?]].
    + split.
      { apply NoDup_cons. split; [| apply NoDup_singleton].
        rewrite list_elem_of_singleton. done. }
      split.
      { intros url. split.
        - intros [[= <-] | [? | []]]; [| done]. split; [by left | done].
        - intros [[<- | []] _]. by left. }
      split; [split; [done | intros _; right; by left] |].
      split; [intros path; split; [by intros [? | [? | []]] | by intros [_ [rows ?]]] |].
      split; [done | by intros [rows ?]].
  - destruct (seed_body_loaded w base_url Hseed) as (Hget & _). simpl.
    split; [constructor |].
    split.
    { intros url. split; [done |]. intros [[<- | []] ?]. congruence. }
    split; [split; [done | done] |].
    split; [intros path; split; [done | by intros [_ [rows ?]]] |].
    split; [done | by intros [rows ?]].
  - destruct (crawl_final w base_url links schedule Hseed)
      as (_ & _ & _ & _ & _ & _ & _ & Hnd & Hprinted & _).
    set (st := shared (join w base_url
                         (crawl_pool w base_url (seed_body w base_url) links schedule)))
      in *.
    assert (∀ url, In (HttpRequestError url) (printed st)
                   ↔ In url (requested st) ∧ http_get w url = None) as Herrors.
    { intros url. rewrite Hprinted. split.
      - by intros (url' & [= <-] & ? & ?).
      - intros [? ?]. eauto. }
    assert (¬ In CannotLoadMainPage (printed st)) as Hcannot.
    { rewrite Hprinted. by intros (url & ? & _). }
    assert (∀ path, ¬ In (SavedTo path) (printed st)) as Hsaved.
    { intros path. rewrite Hprinted. by intros (url & ? & _). }
    destruct (can_open w output_csv); simpl.
    + split.
      { apply NoDup_app. split; [done |]. split; [| apply NoDup_singleton].
        intros m Hm Hin. apply list_elem_of_singleton in Hin as ->.
        by apply list_elem_of_In, Hsaved in Hm. }
      split.
      { intros url. rewrite in_app_iff, Herrors. simpl. split; [| tauto].
        by intros [? | [? | []]]. }
      split.
      { rewrite in_app_iff. simpl. split; [| done]. by intros [? | [? | []]]. }
      split.
      { intros path. rewrite in_app_iff. simpl. split.
        - intros [Hin | [[= <-] | []]]; [by apply Hsaved in Hin | eauto].
        - intros [-> _]. right. by left. }
      split; [done |]. intros _. apply last_snoc.
    + split; [done |].
      split; [apply Herrors |].
      split; [split; [done | done] |].
      split; [intros path; split; [by intros ?%Hsaved | by intros [_ [rows ?]]] |].
      split; [done | by intros [rows ?]].
Qed.

Lemma printed_lines_witness :
  (∃ rows, fst (scrape_website site_with_dead_link "https://a.org" "out.csv" []) = Written rows)
  ∧ printed (snd (scrape_website site_with_dead_link "https://a.org" "out.csv" []))
    = [HttpRequestError "https://a.org/gone"; SavedTo "out.csv"]
  ∧ last (printed (snd (scrape_website site_with_dead_link "https://a.org" "out.csv" [])))
    = Some (SavedTo "out.csv").
Proof.
  assert (∃ rows, fst (scrape_website site_with_dead_link "https://a.org" "out.csv" [])
                  = Written rows) as Hwritten by (eexists; by vm_compute).
  split; [exact Hwritten |]. split; [by vm_compute |].
  destruct (printed_lines site_with_dead_link "https://a.org" "out.csv" [])
    as (_ & _ & _ & _ & _ & Hlast).
  exact (Hlast Hwritten).
Defined.

(** ** The report *)

Lemma scrape_website_rows (w : world) (base_url output_csv : string)
    (schedule : list string) (rows : list row) :
  fst (scrape_website w base_url output_csv schedule) = Written rows →
  rows = csv_rows w (snd (scrape_website w base_url output_csv schedule)).
Proof.
  destruct (scrape_website_cases w base_url output_csv schedule)
    as [[_ ->] | [(_ & _ & ->) | (links & _ & _ & ->)]]; [done | done |].
  destruct (can_open w output_csv); simpl; [| done]. by intros [= <-].
Qed.

Lemma take_iterate (w : world) (s : gset string) (n : nat) :
  length (take n (iterate w s)) = min n (size s)
  ∧ ∀ x, In x (take n (iterate w s)) → x ∈ s.
Proof.
  split.
  - rewrite length_take. f_equal. unfold size, set_size. simpl.
    apply Permutation_length, iterate_perm.
  - intros x Hin. apply list_elem_of_In, elem_of_take in Hin as (i & Hi & _).
    apply (iterate_In w). apply list_elem_of_In. eapply list_elem_of_lookup_2. exact Hi.
Qed.

(** X11.  The report of a crawl starts with the header row; it has as many
    e-mail rows as there are e-mails, up to three, and as many phone rows as
    there are phones, up to three, each with a contact of the collected
    sets, exactly one row for the main cause and one for the secondary
    cause, and one row for each mission sentence, in the order of the list
    and with the sentence as it stands in the list. *)
Theorem report_shape (w : world) (base_url output_csv : string) (schedule : list string)
    (rows : list row)
    (Hrows : fst (scrape_website w base_url output_csv schedule) = Written rows) :
  let st := snd (scrape_website w base_url output_csv schedule) in
  let causes := get_main_and_secondary_causes (keyword_counter st) in
  head rows = Some ("Type", "Category", "Content")
  ∧ length rows = 3 + length (rows_of_kind "Contact" "Email" rows)
                  + length (rows_of_kind "Contact" "Phone" rows)
                  + length (mission_sentences st)
  ∧ length (rows_of_kind "Contact" "Email" rows) = min 3 (size (emails st))
  ∧ (∀ r, In r (rows_of_kind "Contact" "Email" rows) → row_content r ∈ emails st)
  ∧ length (rows_of_kind "Contact" "Phone" rows) = min 3 (size (phones st))
  ∧ (∀ r, In r (rows_of_kind "Contact" "Phone" rows) → row_content r ∈ phones st)
  ∧ rows_of_type "Main Cause" rows = [("Main Cause", fst causes, "")]
  ∧ rows_of_type "Secondary Cause" rows = [("Secondary Cause", snd causes, "")]
  ∧ map row_content (rows_of_type "Mission Sentence" rows) = mission_sentences st.
Proof.
  intros st causes. apply scrape_website_rows in Hrows. fold st in Hrows.
  assert (map strip (mission_sentences st) = mission_sentences st) as Hstripped.
  { apply map_strip_stripped.
    apply (mission_scrape_website w base_url (fun m => strip m = m)).
    intros text sentence Hs.
    pose proof (valid_mission_sentences_stripped text) as Hall.
    rewrite List.Forall_forall in Hall. by rewrite !(Hall sentence Hs). }
  destruct (take_iterate w (emails st) 3) as [Hes Hemails].
  destruct (take_iterate w (phones st) 3) as [Hps Hphones].
  subst rows. unfold csv_rows. fold causes. destruct causes as [main_cause secondary_cause].
  set (es := take 3 (iterate w (emails st))) in *.
  set (ps := take 3 (iterate w (phones st))) in *.
  clearbody es ps.
  unfold rows_of_kind, rows_of_type.
  split; [done |].
  rewrite !List.filter_app.
  repeat (erewrite filter_map_const; [| intros ?; cbv; reflexivity]).
  simpl. rewrite !app_nil_r.
  split.
  { rewrite !length_app, !length_map. simpl. rewrite !length_map. lia. }
  split; [by rewrite length_map |].
  split.
  { intros r Hr. apply in_map_iff in Hr as (email & <- & Hin). by apply Hemails. }
  split; [by rewrite length_map |].
  split.
  { intros r Hr. apply in_map_iff in Hr as (phone & <- & Hin). by apply Hphones. }
  split; [done |]. split; [done |].
  rewrite map_map. simpl. exact Hstripped.
Qed.

Lemma report_shape_witness :
  fst (scrape_website site_with_mission "https://a.org" "out.csv" ["https://a.org/about"])
  = Written [("Type", "Category", "Content");
             ("Contact", "Email", "jane.doe@example.com");
             ("Contact", "Phone", "555-1234");
             ("Main Cause", "education", "");
             ("Secondary Cause", "animal", "");
             ("Mission Sentence", "N/A", "Our mission is to protect wildlife.");
             ("Mission Sentence", "N/A", "Is the mission of the school clear?")]
  ∧ mission_sentences
      (snd (scrape_website site_with_mission "https://a.org" "out.csv"
                           ["https://a.org/about"]))
    = ["Our mission is to protect wildlife."; "Is the mission of the school clear?"].
Proof.
  assert (fst (scrape_website site_with_mission "https://a.org" "out.csv"
                              ["https://a.org/about"])
          = Written [("Type", "Category", "Content");
                     ("Contact", "Email", "jane.doe@example.com");
                     ("Contact", "Phone", "555-1234");
                     ("Main Cause", "education", "");
                     ("Secondary Cause", "animal", "");
                     ("Mission Sentence", "N/A", "Our mission is to protect wildlife.");
                     ("Mission Sentence", "N/A", "Is the mission of the school clear?")])
    as Hrows by (by vm_compute).
  split; [exact Hrows |].
  destruct (report_shape site_with_mission "https://a.org" "out.csv"
              ["https://a.org/about"] _ Hrows)
    as (_ & _ & _ & _ & _ & _ & _ & _ & Hmission).
  rewrite <- Hmission. reflexivity.
Defined.

(** ** Results are never taken back *)

Lemma results_kept_trans (st1 st2 st3 : state) :
  results_kept st1 st2 → results_kept st2 st3 → results_kept st1 st3.
Proof.
  intros (He & Hp & Hm) (He' & Hp' & Hm'). split; [| split]; by etrans.
Qed.

Lemma results_kept_job_step (w : world) (base_url link : string) (j : job) (st : state) :
  results_kept st (snd (job_step w base_url link j st)).
Proof.
  destruct (job_step_aggregates w base_url link j st) as (He & Hp & Hm & _).
  unfold results_kept. rewrite He, Hp, Hm.
  split; [| split].
  - destruct j; try done. apply union_subseteq_l.
  - destruct j; try done. apply union_subseteq_l.
  - destruct j; try done. by apply prefix_app_r.
Qed.

Lemma results_kept_step (w : world) (base_url link : string) (p : pool) :
  results_kept (shared p) (shared (step_at w base_url link p)).
Proof.
  unfold step_at. destruct (jobs p !! link) as [j|]; [| apply results_kept_refl].
  pose proof (results_kept_job_step w base_url link j (shared p)) as Hkept.
  by destruct (job_step w base_url link j (shared p)).
Qed.

Lemma results_kept_single_page (w : world) (link base_url : string) (st : state) :
  results_kept st (scrape_single_page w link base_url st).
Proof.
  unfold scrape_single_page, fetch_page_content.
  destruct (link_is_taken link base_url st); [| apply results_kept_refl].
  destruct (http_get w link) as [[|c content]|]; simpl.
  - by repeat split.
  - apply results_kept_extract. by repeat split.
  - by repeat split.
Qed.

(** X12.  No step of a crawl removes an e-mail, a phone or a mission
    sentence, or moves a mission sentence: the sets only grow and the old
    list is a prefix of the new one.  This holds of [extract_information],
    of a job that runs uninterrupted, of every step of a job, and so of the
    pool under every schedule and of the wait for the jobs. *)
Theorem results_only_grow (w : world) (base_url : string) (st : state) :
  (∀ html, results_kept st (extract_information w html st))
  ∧ (∀ link, results_kept st (scrape_single_page w link base_url st))
  ∧ (∀ link j, results_kept st (snd (job_step w base_url link j st)))
  ∧ (∀ q js schedule,
       results_kept st (shared (run_schedule w base_url schedule (mkPool st q js)))
       ∧ results_kept st (shared (join w base_url (mkPool st q js))))
  ∧ (∀ links schedule, results_kept st (shared (run_jobs w base_url links schedule st))).
Proof.
  assert (∀ p, results_kept st (shared p) →
               (∀ schedule, results_kept st (shared (run_schedule w base_url schedule p)))
               ∧ results_kept st (shared (join w base_url p))) as Hpool.
  { apply (pool_induction w base_url (fun p => results_kept st (shared p))).
    intros link p Hp. eapply results_kept_trans; [exact Hp | apply results_kept_step]. }
  split; [intros html; apply results_kept_extract, results_kept_refl |].
  split; [intros link; apply results_kept_single_page |].
  split; [intros link j; apply results_kept_job_step |].
  split.
  { intros q js schedule.
    destruct (Hpool (mkPool st q js) (results_kept_refl st)) as [Hrun Hjoin]. auto. }
  intros links schedule. unfold run_jobs.
  destruct (Hpool (start_pool (iterate w links) st)) as [Hrun _];
    [by repeat split |].
  apply (pool_induction w base_url (fun p => results_kept st (shared p))); [| apply Hrun].
  intros link p Hp. eapply results_kept_trans; [exact Hp | apply results_kept_step].
Qed.

(** ** A job that is not interrupted *)

Section Uninterrupted.

Context (w : world) (base_url link : string).

Lemma step_at_job (st : state) (q : list string) (js : gmap string job) (j : job) :
  js !! link = Some j →
  step_at w base_url link (mkPool st q js)
  = mkPool (snd (job_step w base_url link j st)) q
           (<[link := fst (job_step w base_url link j st)]> js).
Proof.
  intros Hj. unfold step_at. simpl. rewrite Hj.
  by destruct (job_step w base_url link j st).
Qed.

Lemma steps_at_finished (n : nat) (st : state) (q : list string) (js : gmap string job) :
  js !! link = Some JDone →
  steps_at w base_url link n (mkPool st q js) = mkPool st q js.
Proof.
  intros Hj. induction n as [|n IH]; [done |].
  cbn [steps_at]. rewrite (step_at_job st q js JDone Hj). simpl.
  rewrite insert_id by done. exact IH.
Qed.

Lemma foldl_flat_map {A B C : Type} (f : A → B → A) (g : C → list B) (l : list C) (a : A) :
  foldl f a (flat_map g l) = foldl (fun a x => foldl f a (g x)) a l.
Proof.
  revert a. induction l as [|x l IH]; intros a; simpl; [done |].
  by rewrite foldl_app, IH.
Qed.

(** The increments of a text, made one after the other, are the count of
    the text. *)
Lemma increments_count_text (text : string) (c : Counter) :
  foldl counter_incr c (text_increments text) = count_text text c.
Proof.
  unfold text_increments, count_text. rewrite foldl_flat_map.
  revert c. induction (split_on "." text) as [|sentence l IH]; intros c; simpl; [done |].
  rewrite <- IH. f_equal.
  destruct (filter_valid_sentence sentence default_min_length default_max_length);
    [| done].
  unfold sentence_increments, classify_cause_and_count, classify_over.
  rewrite foldl_flat_map. generalize categories. intros cats. revert c.
  induction cats as [|[category keywords] cats IHc]; intros c; simpl; [done |].
  rewrite <- IHc. f_equal. unfold count_keywords. clear.
  revert c. induction keywords as [|keyword keywords IHk]; intros c; simpl; [done |].
  destruct (str_in keyword (lower sentence)); simpl; apply IHk.
Qed.

Lemma run_count (increments : list string) :
  ∀ st q js n,
    js !! link = Some (count_next increments) → 2 * length increments ≤ n →
    steps_at w base_url link n (mkPool st q js)
    = mkPool (set_keyword_counter (fun c => foldl counter_incr c increments) st) q
             (<[link := JDone]> js).
Proof.
  induction increments as [|category rest IH]; intros st q js n Hj Hn.
  - rewrite (steps_at_finished n st q js Hj), insert_id by done. by destruct st.
  - destruct n as [|[|n]]; [simpl in Hn; lia | simpl in Hn; lia |].
    change (count_next (category :: rest)) with (JCountRead category rest) in Hj.
    cbn [steps_at]. rewrite (step_at_job st q js _ Hj). cbn [job_step fst snd].
    rewrite (step_at_job st q _ _ (lookup_insert_eq _ _ _)). cbn [job_step fst snd].
    rewrite insert_insert_eq.
    rewrite (IH _ q _ n (lookup_insert_eq _ _ _)) by (simpl in Hn; lia).
    by rewrite insert_insert_eq.
Qed.

Lemma run_mission (text : string) (sentences : list string) :
  ∀ st q js n,
    js !! link = Some (mission_next sentences text) →
    2 * length sentences + 2 * length (text_increments text) ≤ n →
    steps_at w base_url link n (mkPool st q js)
    = mkPool (set_keyword_counter (count_text text)
                (set_mission_sentences (append_capped sentences) st))
             q (<[link := JDone]> js).
Proof.
  induction sentences as [|sentence rest IH]; intros st q js n Hj Hn.
  - rewrite (run_count (text_increments text) st q js n Hj) by (simpl in Hn; lia).
    f_equal. destruct st. unfold set_keyword_counter, set_mission_sentences. simpl.
    by rewrite increments_count_text.
  - destruct n as [|n]; [simpl in Hn; lia |].
    change (mission_next (sentence :: rest) text) with (JMissionTest sentence rest text)
      in Hj.
    cbn [steps_at]. rewrite (step_at_job st q js _ Hj). cbn [job_step fst snd].
    destruct (length (mission_sentences st) <? 3) eqn:Hroom.
    + destruct n as [|n]; [simpl in Hn; lia |].
      cbn [steps_at].
      rewrite (step_at_job st q _ _ (lookup_insert_eq _ _ _)). cbn [job_step fst snd].
      rewrite insert_insert_eq.
      rewrite (IH _ q _ n (lookup_insert_eq _ _ _)) by (simpl in Hn; lia).
      rewrite insert_insert_eq. f_equal.
      destruct st. unfold set_keyword_counter, set_mission_sentences. simpl in *.
      by rewrite Hroom.
    + rewrite (run_count (text_increments text) st q _ n (lookup_insert_eq _ _ _))
        by (simpl in Hn; lia).
      rewrite insert_insert_eq. f_equal.
      destruct st. unfold set_keyword_counter, set_mission_sentences. simpl in *.
      by rewrite Hroom, increments_count_text.
Qed.

Lemma run_page (html : string) (st : state) (q : list string) (js : gmap string job)
    (n : nat) :
  js !! link = Some (JEmails (get_text w html)) →
  text_fuel (get_text w html) ≤ n →
  steps_at w base_url link n (mkPool st q js)
  = mkPool (extract_information w html st) q (<[link := JDone]> js).
Proof.
  intros Hj Hn. unfold text_fuel in Hn.
  destruct n as [|[|n]]; [lia | lia |].
  cbn [steps_at]. rewrite (step_at_job st q js _ Hj). cbn [job_step fst snd].
  rewrite (step_at_job _ q _ _ (lookup_insert_eq _ _ _)). cbn [job_step fst snd].
  rewrite insert_insert_eq.
  rewrite (run_mission _ _ _ q _ n (lookup_insert_eq _ _ _)) by lia.
  by rewrite insert_insert_eq.
Qed.

Lemma run_job (st : state) (q : list string) (js : gmap string job) :
  js !! link = Some JQueued →
  finish_job w base_url (mkPool st q js) link
  = mkPool (scrape_single_page w link base_url st) q (<[link := JDone]> js).
Proof.
  intros Hj. unfold finish_job. cbn [jobs]. rewrite Hj.
  change (job_fuel w link (default JDone (Some JQueued)))
    with (S (S (S (S (match http_get w link with
                      | Some content => text_fuel (get_text w content)
                      | None => 1
                      end))))).
  cbn [steps_at]. rewrite (step_at_job st q js _ Hj). cbn [job_step fst snd].
  rewrite (step_at_job st q _ _ (lookup_insert_eq _ _ _)). cbn [job_step fst snd].
  rewrite insert_insert_eq. unfold scrape_single_page.
  destruct (link_is_taken link base_url st).
  - rewrite (step_at_job st q _ _ (lookup_insert_eq _ _ _)). cbn [job_step fst snd].
    rewrite insert_insert_eq.
    rewrite (step_at_job _ q _ _ (lookup_insert_eq _ _ _)). cbn [job_step fst snd].
    rewrite insert_insert_eq. unfold fetch_page_content.
    destruct (http_get w link) as [[|c content]|]; cbn [truthy fst snd default].
    + rewrite steps_at_finished by apply lookup_insert_eq. done.
    + rewrite (run_page (String c content) _ q _ _ (lookup_insert_eq _ _ _)) by lia.
      by rewrite insert_insert_eq.
    + cbn [steps_at].
      rewrite (step_at_job _ q _ _ (lookup_insert_eq _ _ _)). cbn [job_step fst snd].
      by rewrite insert_insert_eq.
  - change (steps_at w base_url link ?n
              (step_at w base_url link (step_at w base_url link ?p)))
      with (steps_at w base_url link (S (S n)) p).
    rewrite steps_at_finished by apply lookup_insert_eq. done.
Qed.

End Uninterrupted.

Lemma join_in_turn (w : world) (base_url : string) (links : list string) :
  NoDup links →
  ∀ st q js,
    (∀ link, In link links → js !! link = Some JQueued) →
    shared (foldl (finish_job w base_url) (mkPool st q js) links)
    = foldl (fun st link => scrape_single_page w link base_url st) st links.
Proof.
  induction links as [|link links IH]; intros Hnd st q js Hqueued; [done |].
  apply NoDup_cons in Hnd as [Hfresh Hnd]. simpl.
  rewrite (run_job w base_url link st q js) by (apply Hqueued; by left).
  apply IH; [done |]. intros l Hl.
  rewrite lookup_insert_ne; [apply Hqueued; by right |].
  intros <-. apply Hfresh. by apply list_elem_of_In.
Qed.

(** X18.  The steps of a job that no other job interrupts are
    [scrape_single_page]: run to its end from the queue, the job leaves the
    shared state that the function returns.  So when no job has started
    before the wait, the pool leaves the state that the calls of
    [scrape_single_page] leave when they are made one after the other, in
    the order of submission. *)
Theorem uninterrupted_job_is_scrape_single_page (w : world) (base_url : string)
    (links : gset string) (st : state) :
  (∀ link q js,
     js !! link = Some JQueued →
     finish_job w base_url (mkPool st q js) link
     = mkPool (scrape_single_page w link base_url st) q (<[link := JDone]> js))
  ∧ shared (run_jobs w base_url links [] st)
    = foldl (fun st link => scrape_single_page w link base_url st)
            (set_submitted (fun l => l ++ iterate w links) st) (iterate w links).
Proof.
  split; [intros link q js; apply run_job |].
  unfold run_jobs, join, start_pool. simpl.
  apply join_in_turn; [apply iterate_NoDup |].
  intros link Hlink.
  apply (start_pool_jobs (iterate w links) st link JQueued). done.
Qed.

Lemma uninterrupted_job_is_scrape_single_page_witness :
  let js : gmap string job := {["https://a.org/about" := JQueued]} in
  js !! "https://a.org/about" = Some JQueued
  ∧ mission_sentences
      (shared (finish_job site_with_mission "https://a.org"
                          (mkPool three_sentences [] js) "https://a.org/about"))
    = mission_sentences three_sentences.
Proof.
  cbv zeta.
  assert (({["https://a.org/about" := JQueued]} : gmap string job) !! "https://a.org/about"
          = Some JQueued) as Hj by apply lookup_singleton_eq.
  split; [exact Hj |].
  destruct (uninterrupted_job_is_scrape_single_page site_with_mission "https://a.org"
              ∅ three_sentences) as [Hjob _].
  rewrite (Hjob "https://a.org/about" [] _ Hj). by vm_compute.
Defined.

(** ** The wait is a schedule *)

Section Wait.

Context (w : world) (base_url : string).

Lemma earlier_taken_split (js : gmap string job) (done : list string) (link : string)
    (rest : list string) :
  (∀ l, In l done → is_queued (js !! l) = false) →
  earlier_taken js (done ++ link :: rest) link = true.
Proof.
  intros Hdone. induction done as [|l done IH]; simpl.
  - by rewrite String.eqb_refl.
  - destruct (String.eqb l link); [done |].
    rewrite (Hdone l) by (by left). apply IH. intros l' Hl'. apply Hdone. by right.
Qed.

Lemma earlier_taken_before (js : gmap string job) (pre : list string) (l : string)
    (post : list string) (link : string) :
  earlier_taken js (pre ++ l :: post) link = true →
  ¬ In link pre → l ≠ link → is_queued (js !! l) = false.
Proof.
  intros Htaken Hpre Hne. induction pre as [|l' pre IH]; simpl in Htaken.
  - apply String.eqb_neq in Hne. rewrite Hne in Htaken.
    apply andb_true_iff in Htaken as [Hl _]. by apply negb_true_iff.
  - destruct (String.eqb l' link) eqn:Heq.
    + apply String.eqb_eq in Heq as ->. exfalso. apply Hpre. by left.
    + apply andb_true_iff in Htaken as [_ Htaken]. apply IH; [done |].
      intros Hin. apply Hpre. by right.
Qed.

Lemma job_step_not_queued (link : string) (j : job) (st : state) :
  is_queued (Some (fst (job_step w base_url link j st))) = false.
Proof.
  pose proof (job_step_to w base_url link j st) as Hto.
  by destruct (fst (job_step w base_url link j st)).
Qed.

(** A step that the pool allows keeps the order of the jobs. *)
Lemma in_order_step (link : string) (p : pool) :
  NoDup (queue p) → in_order p → may_step link p = true →
  in_order (step_at w base_url link p).
Proof.
  intros Hnd Horder Hmay. unfold may_step in Hmay. unfold step_at.
  destruct (jobs p !! link) as [j|] eqn:Hj; [| done].
  pose proof (job_step_not_queued link j (shared p)) as Hnew.
  destruct (job_step w base_url link j (shared p)) as [j' st']. cbn [fst] in Hnew.
  intros taken l waiting Hqueue Hl l' Hl'. cbn [queue jobs] in *.
  assert (l ≠ link) as Hne.
  { intros ->. rewrite lookup_insert_eq in Hl. congruence. }
  rewrite lookup_insert_ne in Hl by done.
  pose proof (Horder taken l waiting Hqueue Hl l' Hl') as Hwaits.
  destruct (decide (l' = link)) as [-> | Hne']; [| by rewrite lookup_insert_ne].
  exfalso. rewrite Hj in Hwaits. destruct j; try done.
  apply andb_true_iff in Hmay as [Htaken _]. rewrite Hqueue in Htaken, Hnd.
  apply NoDup_app in Hnd as (_ & Hdisjoint & _).
  assert (is_queued (jobs p !! l) = false); [| congruence].
  apply (earlier_taken_before _ taken l waiting link Htaken); [| done].
  intros Hin. apply (Hdisjoint link); [by apply list_elem_of_In |].
  apply list_elem_of_In. right. done.
Qed.

Lemma pool_step_induction (Inv : pool → Prop) :
  (∀ link p, Inv p → may_step link p = true → Inv (step_at w base_url link p)) →
  ∀ schedule p, Inv p → Inv (run_schedule w base_url schedule p).
Proof.
  intros Hstep schedule. unfold run_schedule.
  induction schedule as [|link schedule IH]; intros p Hp; simpl; [done |].
  apply IH. unfold pool_step. destruct (may_step link p) eqn:Hmay; auto.
Qed.

(** The pool that waits for its jobs: the queue has no link twice, every
    link of the queue has a job, and the jobs are taken in order. *)
Lemma waiting_pool_schedule (schedule : list string) (p : pool) :
  NoDup (queue p) ∧ in_order p ∧ (∀ l, In l (queue p) → is_Some (jobs p !! l)) →
  let p' := run_schedule w base_url schedule p in
  NoDup (queue p') ∧ in_order p' ∧ (∀ l, In l (queue p') → is_Some (jobs p' !! l)).
Proof.
  apply (pool_step_induction
           (fun p => NoDup (queue p) ∧ in_order p
                     ∧ (∀ l, In l (queue p) → is_Some (jobs p !! l)))).
  intros link p0 (Hnd & Horder & Htotal) Hmay.
  rewrite step_at_queue. split; [done |]. split; [by apply in_order_step |].
  intros l Hl. apply step_at_is_Some. auto.
Qed.

(** While the jobs before [link] in the queue are done, a step of the job of
    [link] is a step that the pool allows, or changes nothing. *)
Lemma step_at_allowed (done : list string) (link : string) (rest : list string) (p : pool) :
  queue p = done ++ link :: rest →
  (∀ l, In l done → jobs p !! l = Some JDone) →
  NoDup (queue p) → in_order p →
  step_at w base_url link p = pool_step w base_url link p.
Proof.
  intros Hqueue Hdone Hnd Horder. unfold pool_step, may_step.
  destruct (jobs p !! link) as [j|] eqn:Hj; [| unfold step_at; by rewrite Hj].
  destruct j; try done.
  - (* the job waits: the jobs before it are done and those behind it wait *)
    assert (List.filter (fun l => is_running (jobs p !! l)) (queue p) = []) as ->.
    { apply filter_nil_all. intros l Hl. rewrite Hqueue in Hl.
      apply in_app_iff in Hl as [Hl | [<- | Hl]].
      - by rewrite (Hdone l Hl).
      - by rewrite Hj.
      - pose proof (Horder done link rest Hqueue) as Hwait.
        rewrite Hj in Hwait. specialize (Hwait eq_refl l Hl).
        by destruct (jobs p !! l) as [[]|]. }
    rewrite Hqueue, earlier_taken_split; [done |].
    intros l Hl. by rewrite (Hdone l Hl).
  - (* the job is done *)
    unfold step_at. rewrite Hj. simpl. destruct p as [st q js]. simpl in *.
    f_equal. by apply insert_id.
Qed.

Lemma steps_at_schedule (done : list string) (link : string) (rest : list string) (n : nat) :
  ∀ p,
    queue p = done ++ link :: rest →
    (∀ l, In l done → jobs p !! l = Some JDone) →
    NoDup (queue p) → in_order p → (∀ l, In l (queue p) → is_Some (jobs p !! l)) →
    steps_at w base_url link n p = run_schedule w base_url (repeat link n) p.
Proof.
  induction n as [|n IH]; intros p Hqueue Hdone Hnd Horder Htotal; [done |].
  cbn [steps_at repeat]. unfold run_schedule. cbn [foldl].
  rewrite <- (step_at_allowed done link rest p Hqueue Hdone Hnd Horder).
  apply IH.
  - by rewrite step_at_queue.
  - intros l Hl. by apply step_at_done_kept, Hdone.
  - by rewrite step_at_queue.
  - destruct (waiting_pool_schedule [link] p (conj Hnd (conj Horder Htotal)))
      as (_ & Hnext & _).
    unfold run_schedule in Hnext. cbn [foldl] in Hnext.
    by rewrite <- (step_at_allowed done link rest p Hqueue Hdone Hnd Horder) in Hnext.
  - rewrite step_at_queue. intros l Hl. apply step_at_is_Some. auto.
Qed.

Lemma join_schedule (p : pool) :
  NoDup (queue p) → in_order p → (∀ l, In l (queue p) → is_Some (jobs p !! l)) →
  ∃ more, join w base_url p = run_schedule w base_url more p.
Proof.
  unfold join. intros Hnd Horder Htotal.
  assert (∃ done, queue p = done ++ queue p
                  ∧ ∀ l, In l done → jobs p !! l = Some JDone) as (done & Hqueue & Hdone).
  { exists []. by split. }
  revert Hqueue. generalize (queue p) at 2 3. intros rest.
  revert p done Hnd Horder Htotal Hdone.
  induction rest as [|link rest IH]; intros p done Hnd Horder Htotal Hdone Hqueue.
  - by exists [].
  - cbn [foldl]. unfold finish_job at 2.
    set (n := job_fuel w link (default JDone (jobs p !! link))).
    assert (is_Some (jobs p !! link)) as Hlink.
    { apply Htotal. rewrite Hqueue. apply in_app_iff. right. by left. }
    pose proof (finish_job_done w base_url link p Hlink) as Hfinished.
    unfold finish_job in Hfinished. fold n in Hfinished.
    rewrite (steps_at_schedule done link rest n p Hqueue Hdone Hnd Horder Htotal)
      in Hfinished |- *.
    destruct (waiting_pool_schedule (repeat link n) p (conj Hnd (conj Horder Htotal)))
      as (Hnd' & Horder' & Htotal').
    set (p' := run_schedule w base_url (repeat link n) p) in *.
    destruct (IH p' (done ++ [link]) Hnd' Horder' Htotal') as [more Hmore].
    + intros l Hl. apply in_app_iff in Hl as [Hl | [<- | []]]; [| done].
      apply (pool_step_induction (fun p0 => jobs p0 !! l = Some JDone)); [| by apply Hdone].
      intros l0 p0 Hp0 _. by apply step_at_done_kept.
    + unfold p'. rewrite run_schedule_queue, Hqueue, <- app_assoc. done.
    + exists (repeat link n ++ more). rewrite Hmore. unfold p'.
      by rewrite run_schedule_app.
Qed.

Lemma start_pool_waiting (links : list string) (st : state) :
  NoDup links →
  NoDup (queue (start_pool links st)) ∧ in_order (start_pool links st)
  ∧ (∀ l, In l (queue (start_pool links st)) → is_Some (jobs (start_pool links st) !! l)).
Proof.
  intros Hnd. split; [done |]. split.
  - intros taken link waiting Hqueue _ l Hl.
    assert (jobs (start_pool links st) !! l = Some JQueued) as ->; [| done].
    apply start_pool_jobs. split; [| done].
    change (queue (start_pool links st)) with links in Hqueue. rewrite Hqueue.
    apply in_app_iff. right. by right.
  - intros l Hl. exists JQueued. by apply start_pool_jobs.
Qed.

Lemma join_finished (p : pool) :
  (∀ link j, jobs p !! link = Some j → j = JDone) → join w base_url p = p.
Proof.
  intros Hdone. unfold join. generalize (queue p). intros q.
  induction q as [|link q IH]; [done |]. cbn [foldl].
  assert (finish_job w base_url p link = p) as ->; [| exact IH].
  unfold finish_job. generalize (job_fuel w link (default JDone (jobs p !! link))).
  intros n. induction n as [|n IHn]; [done |]. cbn [steps_at].
  assert (step_at w base_url link p = p) as ->; [| exact IHn].
  unfold step_at. destruct (jobs p !! link) as [j|] eqn:Hj; [| done].
  pose proof (Hdone link j Hj) as ->. simpl. clear IH IHn Hdone.
  destruct p as [st q0 js]. simpl in *.
  f_equal. by apply insert_id.
Qed.

End Wait.

(** X19.  The wait at the end of the [with] block is itself a schedule of
    the pool: the steps by which the jobs come to their end are steps that
    the pool allows (a job starts when the jobs submitted before it have
    started and fewer than [max_workers] are running).  So every crawl ends
    as a crawl in which the schedule runs every job to its end, and for
    which the wait has nothing left to do. *)
Theorem wait_is_a_schedule (w : world) (base_url output_csv : string)
    (schedule : list string) :
  (∀ html links,
     ∃ more,
       let p := crawl_pool w base_url html links (schedule ++ more) in
       join w base_url (crawl_pool w base_url html links schedule) = p
       ∧ (∀ link j, jobs p !! link = Some j → j = JDone)
       ∧ join w base_url p = p)
  ∧ (∃ more,
       scrape_website w base_url output_csv (schedule ++ more)
       = scrape_website w base_url output_csv schedule
       ∧ ∀ link j,
           jobs (crawl_pool w base_url (seed_body w base_url)
                            (default ∅ (find_links w (seed_body w base_url) base_url))
                            (schedule ++ more)) !! link = Some j →
           j = JDone).
Proof.
  assert (∀ html links,
            ∃ more,
              let p := crawl_pool w base_url html links (schedule ++ more) in
              join w base_url (crawl_pool w base_url html links schedule) = p
              ∧ (∀ link j, jobs p !! link = Some j → j = JDone)
              ∧ join w base_url p = p) as Hpool.
  { intros html links. unfold crawl_pool.
    destruct (join_schedule w base_url
                (run_schedule w base_url schedule
                   (start_pool (iterate w links) (before_pool w base_url html))))
      as [more Hmore].
    - apply (waiting_pool_schedule w base_url), start_pool_waiting, iterate_NoDup.
    - apply (waiting_pool_schedule w base_url), start_pool_waiting, iterate_NoDup.
    - apply (waiting_pool_schedule w base_url), start_pool_waiting, iterate_NoDup.
    - exists more. cbv zeta. rewrite run_schedule_app, <- Hmore.
      destruct (crawl_end w base_url schedule html links) as (_ & _ & _ & Hall & _).
      split; [done |]. split; [exact Hall |]. by apply join_finished. }
  split; [exact Hpool |].
  destruct (Hpool (seed_body w base_url)
                  (default ∅ (find_links w (seed_body w base_url) base_url)))
    as (more & Hjoin & Hdone & Hstill).
  exists more. split; [| exact Hdone].
  destruct (scrape_website_cases w base_url output_csv schedule)
    as [[Hseed ->] | [(Hseed & Hnone & ->) | (links & Hseed & Hsome & ->)]].
  - by apply scrape_website_unloaded.
  - by apply scrape_website_refused.
  - rewrite (scrape_website_loaded w base_url output_csv _ links Hseed Hsome).
    rewrite Hsome in Hjoin, Hstill. simpl in Hjoin, Hstill.
    cbv zeta. by rewrite Hstill, <- Hjoin.
Qed.

Lemma wait_is_a_schedule_witness :
  ∃ more,
    scrape_website site_with_keywords "https://a.org" "out.csv"
                   (read_then_overtaken ++ more)
    = scrape_website site_with_keywords "https://a.org" "out.csv" read_then_overtaken.
Proof.
  destruct (wait_is_a_schedule site_with_keywords "https://a.org" "out.csv"
              read_then_overtaken) as [_ (more & Hsame & _)].
  exists more. exact Hsame.
Defined.

